(** * Direct collocation notebooks: the transcription cells of
      [2_Direct_Collocation.ipynb]

    The notebook assembles three nonlinear programs with CasADi's [Opti]
    stack: the block move with trapezoidal collocation, the block move with
    Hermite-Simpson collocation (separated form) and the cart-pole swing-up.
    Each cell is embedded below as a computation in a state-and-exception
    monad over the [Opti] object; symbolic CasADi expressions are a data
    type, and the Python/numpy/CasADi primitives the cells call are modelled
    next to them.

    Numbers.  Python floats are read as exact rationals ([Q]): a literal
    denotes the rational it is written as, and the arithmetic inside the
    cells does not round.  Where a property is about the numbers numpy
    computes, the time grid, the same code is given with every operation
    rounded to binary64 ([rnd64], [linspace_rnd]).  Python ints are [Z],
    sizes and segment counts are [nat]; the cells are also given over a
    Python int segment count, which may be negative. *)

From Stdlib Require Import String.
From Stdlib Require Import List ZArith QArith Qfield Qpower Qabs Qround Lia Lqa Bool Arith.
Import ListNotations.

Set Implicit Arguments.

(* ------------------------------------------------------------------ *)
(** ** Exceptions and the result type *)

Inductive exn : Type :=
| IndexError          (* numpy / Python index out of range *)
| ZeroDivisionError   (* Python float or int division by zero *)
| ValueError          (* numpy: a negative number of samples *)
| RuntimeError.       (* CasADi: index out of bounds, dimension mismatch,
                         negative dimension *)

Inductive result (A : Type) : Type :=
| Ok (a : A)
| Raise (e : exn).
Arguments Raise {A} e.

Class Monad (m : Type -> Type) : Type := {
  ret  : forall {A}, A -> m A;
  bind : forall {A B}, m A -> (A -> m B) -> m B
}.

Declare Scope monad_scope.
Delimit Scope monad_scope with monad.
Notation "x <- c ;; k" := (bind c (fun x => k))
  (at level 61, c at next level, right associativity) : monad_scope.
Notation "c ;; k" := (bind c (fun _ => k))
  (at level 61, right associativity) : monad_scope.
Local Open Scope monad_scope.

#[export] Instance Monad_result : Monad result := {
  ret  := fun A a => Ok a;
  bind := fun A B c k => match c with Ok a => k a | Raise e => Raise e end
}.

(* ------------------------------------------------------------------ *)
(** ** Python and numpy primitives *)

(** [range(n)]. *)
Definition range (n : nat) : list Z := map Z.of_nat (seq 0 n).

(** Index normalisation of Python sequences, numpy arrays and CasADi
    matrices: [0 <= i < len] is position [i], [-len <= i < 0] is position
    [len + i], anything else is out of range. *)
Definition py_index (len : nat) (i : Z) : option nat :=
  if ((0 <=? i) && (i <? Z.of_nat len))%Z then Some (Z.to_nat i)
  else if ((- Z.of_nat len <=? i) && (i <? 0))%Z then Some (Z.to_nat (i + Z.of_nat len))
  else None.

(** [a[i]] on a Python list or a numpy array. *)
Definition getitem {A} (a : list A) (i : Z) : result A :=
  match py_index (length a) i with
  | Some k => match nth_error a k with Some x => Ok x | None => Raise IndexError end
  | None => Raise IndexError
  end.

Fixpoint update {A} (a : list A) (k : nat) (v : A) : list A :=
  match a, k with
  | [], _ => []
  | _ :: r, O => v :: r
  | x :: r, S k' => x :: update r k' v
  end.

(** [a[i] = v] on a Python list or a numpy array. *)
Definition setitem {A} (a : list A) (i : Z) (v : A) : result (list A) :=
  match py_index (length a) i with
  | Some k => Ok (update a k v)
  | None => Raise IndexError
  end.

(** Python's [a / b] on floats (an int operand is converted first). *)
Definition truediv (a b : Q) : result Q :=
  if Qeq_bool b 0 then Raise ZeroDivisionError else Ok (a / b)%Q.

Definition float_of_nat (n : nat) : Q := inject_Z (Z.of_nat n).

(** [np.linspace(start, stop, num)] with the default [endpoint=True]:
    [num] samples [start + i*step], [step = (stop-start)/(num-1)], and the
    last sample is overwritten with [stop] when [num > 1].  With
    [num = 1] numpy has no step and returns [[start]]. *)
Definition linspace (start stop : Q) (num : nat) : list Q :=
  let div := (num - 1)%nat in
  let delta := (stop - start)%Q in
  let y := map float_of_nat (seq 0 num) in
  let y := if (0 <? div)%nat
           then map (fun yi => yi * (delta / float_of_nat div))%Q y
           else map (fun yi => yi * delta)%Q y in
  let y := map (fun yi => yi + start)%Q y in
  if (1 <? num)%nat then update y (num - 1) stop else y.

(** *** Binary64

    A finite binary64 number is a rational [m * 2^e] with [|m| < 2^53] and
    [e >= -1074].  Each arithmetic operation of Python and numpy returns
    the exact result rounded to the nearest such number, a tie going to
    the even [m].  Overflow has no rational model: [rnd64] is the rounding
    of binary64 for results of magnitude below [2^1024]. *)

(** [floor (log2 a)] for a rational [a > 0]. *)
Definition ilog2 (a : Q) : Z :=
  let k := (Z.log2 (Qnum a) - Z.log2 (Zpos (Qden a)))%Z in
  if Qle_bool (2 ^ k)%Q a then k else (k - 1)%Z.

(** The integer nearest to [q], a tie going to the even one. *)
Definition round_half_even (q : Q) : Z :=
  let f := Qfloor q in
  match (q - inject_Z f ?= 1 # 2)%Q with
  | Lt => f
  | Gt => (f + 1)%Z
  | Eq => if Z.even f then f else (f + 1)%Z
  end.

(** Rounding to binary64: 53 significant bits, and below [2^-1022] the
    fixed exponent [-1074] of the subnormal numbers. *)
Definition rnd64 (x : Q) : Q :=
  if Qeq_bool x 0 then 0%Q
  else let e := Z.max (ilog2 (Qabs x) - 52) (-1074) in
       (inject_Z (round_half_even (x / 2 ^ e)) * 2 ^ e)%Q.


(** [np.linspace(start, stop, num)] as numpy computes it, every operation
    rounded by [rnd]: [delta = stop - start], [step = delta / div] with
    [div = num - 1], the samples [arange(0, num) * step + start] (through
    [y / div * delta] when the step underflows to zero), and the last
    sample overwritten with [stop].  [linspace] above is the same
    computation without rounding. *)
Definition linspace_rnd (rnd : Q -> Q) (start stop : Q) (num : nat) : list Q :=
  let div := (num - 1)%nat in
  let delta := rnd (stop - start)%Q in
  let y := map float_of_nat (seq 0 num) in
  let y := if (0 <? div)%nat
           then let step := rnd (delta / float_of_nat div)%Q in
                if Qeq_bool step 0
                then map (fun yi => rnd (rnd (yi / float_of_nat div) * delta)%Q) y
                else map (fun yi => rnd (yi * step)%Q) y
           else map (fun yi => rnd (yi * delta)%Q) y in
  let y := map (fun yi => rnd (yi + start)%Q) y in
  if (1 <? num)%nat then update y (num - 1) stop else y.

(** [np.linspace] in binary64. *)
Definition linspace64 : Q -> Q -> nat -> list Q := linspace_rnd rnd64.

(** [np.linspace(start, stop, num)] for a Python int [num]: numpy refuses a
    negative number of samples. *)
Definition linspace_int (start stop : Q) (num : Z) : result (list Q) :=
  if (num <? 0)%Z then Raise ValueError
  else Ok (linspace start stop (Z.to_nat num)).

(** [np.linspace(a, b, num).T] for vectors [a], [b]: row [r] of the
    transposed array is the linspace between the [r]-th components. *)
Definition linspace_T (a b : list Q) (num : nat) : list (list Q) :=
  map (fun ab => linspace (fst ab) (snd ab) num) (combine a b).

(** [np.full(shape, v)] for a 1-D shape. *)
Definition np_full (n : nat) (v : Q) : list Q := repeat v n.

(* ------------------------------------------------------------------ *)
(** ** CasADi symbolic expressions *)

(** Scalar expressions.  [Var k] is the [k]-th scalar decision variable of
    the [Opti] problem (variables are stacked in declaration order, each
    matrix column by column); [Sym s i] is entry [i] of the SX symbol
    named [s].  CasADi simplifies expressions while it builds them; the
    trees below are the unsimplified ones and are meant up to value. *)
Inductive expr : Type :=
| Const (c : Q)
| Var (k : nat)
| Sym (s : string) (i : nat)
| Neg (a : expr)
| Add (a b : expr)
| Sub (a b : expr)
| Mul (a b : expr)
| Div (a b : expr)
| Pow (a : expr) (n : nat)
| Cos (a : expr)
| Sin (a : expr).

(** A dense matrix, stored column by column as CasADi does. *)
Record matrix (A : Type) : Type := Matrix {
  nrow : nat;
  ncol : nat;
  cols : list (list A)
}.

Definition MX := matrix expr.
Definition DM := matrix Q.

Definition shape {A} (m : matrix A) : nat * nat := (nrow m, ncol m).

Definition shape_eqb (s1 s2 : nat * nat) : bool :=
  (fst s1 =? fst s2)%nat && (snd s1 =? snd s2)%nat.

(** All entries in column-major order. *)
Definition entries {A} (m : matrix A) : list A := concat (cols m).

(** A column vector from a 1-D array. *)
Definition colvec {A} (v : list A) : matrix A :=
  {| nrow := length v; ncol := 1; cols := [v] |}.

(** A matrix from a 2-D numpy array (a list of rows). *)
Definition of_rows {A} (d : A) (rows : list (list A)) : matrix A :=
  let n := length rows in
  let m := length (hd [] rows) in
  {| nrow := n; ncol := m;
     cols := map (fun j => map (fun r => nth j r d) rows) (seq 0 m) |}.

(** [np.full(shape, v)] and [np.zeros(shape)] for a 2-D shape, as the
    matrix CasADi converts them to. *)
Definition np_full_2d (s : nat * nat) (v : Q) : matrix Q :=
  {| nrow := fst s; ncol := snd s; cols := repeat (repeat v (fst s)) (snd s) |}.

Definition np_zeros (s : nat * nat) : matrix Q := np_full_2d s 0.

Definition mmap {A B} (f : A -> B) (m : matrix A) : matrix B :=
  {| nrow := nrow m; ncol := ncol m; cols := map (map f) (cols m) |}.

(** [X[:, j]]. *)
Definition col {A} (X : matrix A) (j : Z) : result (list A) :=
  match py_index (ncol X) j with
  | Some k => match nth_error (cols X) k with
              | Some c => Ok c
              | None => Raise RuntimeError
              end
  | None => Raise RuntimeError
  end.

(** [X[i]], linear indexing into the column-major entries. *)
Definition elem {A} (X : matrix A) (i : Z) : result A :=
  match py_index (nrow X * ncol X) i with
  | Some k => match nth_error (entries X) k with
              | Some e => Ok e
              | None => Raise RuntimeError
              end
  | None => Raise RuntimeError
  end.

(** [x[i]] on a symbolic vector. *)
Definition item {A} (x : list A) (i : Z) : result A :=
  match py_index (length x) i with
  | Some k => match nth_error x k with
              | Some e => Ok e
              | None => Raise RuntimeError
              end
  | None => Raise RuntimeError
  end.

(** [ca.SX.sym(name, n)]. *)
Definition SX_sym (name : string) (n : nat) : list expr :=
  map (Sym name) (seq 0 n).

(** [ca.vertcat] of column vectors. *)
Definition vertcat (vs : list (list expr)) : list expr := concat vs.

(** Entrywise product [A * B] of matrices of the same shape. *)
Definition times (A B : MX) : result MX :=
  if shape_eqb (shape A) (shape B)
  then Ok {| nrow := nrow A; ncol := ncol A;
             cols := map (fun ab => map (fun p => Mul (fst p) (snd p))
                                        (combine (fst ab) (snd ab)))
                         (combine (cols A) (cols B)) |}
  else Raise RuntimeError.

Definition sum_expr (l : list expr) : expr := fold_right Add (Const 0) l.

(** [ca.dot(A, B)]: the sum of the entrywise products; the two arguments
    must have the same shape. *)
Definition dot (A B : MX) : result expr :=
  if shape_eqb (shape A) (shape B)
  then Ok (sum_expr (map (fun p => Mul (fst p) (snd p))
                         (combine (entries A) (entries B))))
  else Raise RuntimeError.

(** A CasADi [Function]: its symbolic inputs and its outputs, which are
    expressions over those inputs (the notebook's functions have one
    output). *)
Record Function : Type := {
  f_in  : list (list expr);
  f_out : list expr
}.

(** The input symbols paired with the actual arguments. *)
Fixpoint bindings (ins args : list expr) : list (string * nat * expr) :=
  match ins, args with
  | Sym s i :: ins', a :: args' => (s, i, a) :: bindings ins' args'
  | _ :: ins', _ :: args' => bindings ins' args'
  | _, _ => []
  end.

Fixpoint lookup (s : string) (i : nat) (b : list (string * nat * expr)) : expr :=
  match b with
  | [] => Sym s i
  | (s', i', a) :: r => if String.eqb s s' && (i =? i')%nat then a else lookup s i r
  end.

Fixpoint subst (b : list (string * nat * expr)) (e : expr) : expr :=
  match e with
  | Const c => Const c
  | Var k => Var k
  | Sym s i => lookup s i b
  | Neg a => Neg (subst b a)
  | Add a1 a2 => Add (subst b a1) (subst b a2)
  | Sub a1 a2 => Sub (subst b a1) (subst b a2)
  | Mul a1 a2 => Mul (subst b a1) (subst b a2)
  | Div a1 a2 => Div (subst b a1) (subst b a2)
  | Pow a n => Pow (subst b a) n
  | Cos a => Cos (subst b a)
  | Sin a => Sin (subst b a)
  end.

Definition dims (vs : list (list expr)) : list nat := map (@length expr) vs.

(** [f(a1, ..., an)]: the outputs with the arguments substituted for the
    inputs.  The arguments must have the dimensions of the inputs (CasADi
    also replicates a scalar argument; the notebook never relies on it). *)
Definition call (f : Function) (args : list (list expr)) : result (list expr) :=
  if list_eq_dec Nat.eq_dec (dims args) (dims (f_in f))
  then Ok (map (subst (bindings (concat (f_in f)) (concat args))) (f_out f))
  else Raise RuntimeError.

(* ------------------------------------------------------------------ *)
(** ** The [Opti] stack *)

(** A constraint handed to [opti.subject_to]: an entrywise equality
    [lhs == rhs], or what [opti.bounded(lo, e, hi)] builds,
    [lo <= e <= hi] entrywise. *)
Inductive constr : Type :=
| EqC (lhs rhs : list expr)
| Bounded (lo : expr) (e : list expr) (hi : expr).

Record Opti : Type := {
  nvars       : nat;                (* scalar decision variables so far *)
  constraints : list constr;        (* in the order of the subject_to calls *)
  objective   : option expr;        (* set by minimize *)
  initial     : list (nat * Q)      (* initial guesses, by variable *)
}.

(** [ca.Opti()]. *)
Definition Opti_new : Opti :=
  {| nvars := 0; constraints := []; objective := None; initial := [] |}.

(** Computations over the [Opti] object that may raise. *)
Definition M (A : Type) : Type := Opti -> result (A * Opti).

#[export] Instance Monad_M : Monad M := {
  ret  := fun A a o => Ok (a, o);
  bind := fun A B c k o =>
            match c o with
            | Ok (a, o') => k a o'
            | Raise e => Raise e
            end
}.

Definition lift {A} (r : result A) : M A :=
  fun o => match r with Ok a => Ok (a, o) | Raise e => Raise e end.

(** [opti.variable(n, m)]: a fresh [n x m] matrix of decision variables. *)
Definition variable (n m : nat) : M MX := fun o =>
  let base := nvars o in
  Ok ({| nrow := n; ncol := m;
         cols := map (fun j => map (fun i => Var (base + j * n + i)) (seq 0 n))
                     (seq 0 m) |},
      {| nvars := base + n * m; constraints := constraints o;
         objective := objective o; initial := initial o |}).

(** [opti.subject_to(c)]. *)
Definition subject_to (c : constr) : M unit := fun o =>
  Ok (tt, {| nvars := nvars o; constraints := constraints o ++ [c];
             objective := objective o; initial := initial o |}).

(** [opti.minimize(J)]. *)
Definition minimize (J : expr) : M unit := fun o =>
  Ok (tt, {| nvars := nvars o; constraints := constraints o;
             objective := Some J; initial := initial o |}).

(** [lhs == rhs] between symbolic vectors: same length, or one side a
    scalar that is replicated. *)
Definition equals (lhs rhs : list expr) : result constr :=
  if (length lhs =? length rhs)%nat then Ok (EqC lhs rhs)
  else if (length rhs =? 1)%nat then Ok (EqC lhs (repeat (hd (Const 0) rhs) (length lhs)))
  else if (length lhs =? 1)%nat then Ok (EqC (repeat (hd (Const 0) lhs) (length rhs)) rhs)
  else Raise RuntimeError.

Definition guess_pairs (xs : list expr) (vs : list Q) : list (nat * Q) :=
  flat_map (fun xv => match fst xv with Var k => [(k, snd xv)] | _ => [] end)
           (combine xs vs).

(** [opti.set_initial(X, v)] for a matrix of decision variables and a
    numeric matrix of the same shape. *)
Definition set_initial (X : MX) (v : DM) : M unit := fun o =>
  if shape_eqb (shape X) (shape v)
  then Ok (tt, {| nvars := nvars o; constraints := constraints o;
                  objective := objective o;
                  initial := initial o ++ guess_pairs (entries X) (entries v) |})
  else Raise RuntimeError.

(** [for i in l: s = body(i, s)]. *)
Fixpoint for_ {S} (l : list Z) (body : Z -> S -> M S) (s : S) : M S :=
  match l with
  | [] => ret s
  | i :: r => s' <- body i s;; for_ r body s'
  end.

(* ------------------------------------------------------------------ *)
(** ** Meaning of expressions and constraints *)

(** Values for the decision variables and the SX symbols, and the two
    transcendental functions, which have no rational model of their own. *)
Record env : Type := {
  v_var : nat -> Q;
  v_sym : string -> nat -> Q;
  v_cos : Q -> Q;
  v_sin : Q -> Q
}.

Fixpoint eval (r : env) (e : expr) : Q :=
  match e with
  | Const c => c
  | Var k => v_var r k
  | Sym s i => v_sym r s i
  | Neg a => - eval r a
  | Add a b => eval r a + eval r b
  | Sub a b => eval r a - eval r b
  | Mul a b => eval r a * eval r b
  | Div a b => eval r a / eval r b
  | Pow a n => eval r a ^ Z.of_nat n
  | Cos a => v_cos r (eval r a)
  | Sin a => v_sin r (eval r a)
  end%Q.

Definition sat (r : env) (c : constr) : Prop :=
  match c with
  | EqC lhs rhs => Forall2 (fun a b => eval r a == eval r b)%Q lhs rhs
  | Bounded lo e hi =>
      Forall (fun a => eval r lo <= eval r a /\ eval r a <= eval r hi)%Q e
  end.

Definition feasible (r : env) (o : Opti) : Prop :=
  Forall (sat r) (constraints o).

(** The decision variables an expression or a constraint mentions. *)
Fixpoint vars (e : expr) : list nat :=
  match e with
  | Const _ | Sym _ _ => []
  | Var k => [k]
  | Neg a | Pow a _ | Cos a | Sin a => vars a
  | Add a b | Sub a b | Mul a b | Div a b => vars a ++ vars b
  end.

Definition constr_vars (c : constr) : list nat :=
  match c with
  | EqC lhs rhs => flat_map vars lhs ++ flat_map vars rhs
  | Bounded lo e hi => vars lo ++ flat_map vars e ++ vars hi
  end.

Definition is_bound (c : constr) : bool :=
  match c with Bounded _ _ _ => true | EqC _ _ => false end.

(* ------------------------------------------------------------------ *)
(** ** Block move, trapezoidal collocation *)

Module Trapz.
Section Cells.

(** [# parameters] *)
Variable tf : Q.     (* final time; 1.0 in the notebook *)
Variable N : nat.    (* number of trajectory segments; 20 in the notebook *)

(** The names the cells bind. *)
Record globals : Type := {
  X : MX;
  V : MX;
  U : MX;
  t : list Q
}.

(** [# decision variables] and [# time discretization] *)
Definition decision_variables : M globals :=
  X <- variable (N + 1) 1;;
  V <- variable (N + 1) 1;;
  U <- variable (N + 1) 1;;
  let t := linspace 0 tf (N + 1) in
  ret {| X := X; V := V; U := U; t := t |}.

(** [# time discretization] as binary64 computes it; the [t] above is
    the same line with no rounding. *)
Definition t64 : list Q := linspace64 0 tf (N + 1).

(** [# boundary constraints] *)
Definition boundary_constraints (g : globals) : M unit :=
  x0 <- lift (elem (X g) 0);;
  c <- lift (equals [x0] [Const 0]);; subject_to c;;
  xN <- lift (elem (X g) (Z.of_nat N));;
  c <- lift (equals [xN] [Const 1]);; subject_to c;;
  v0 <- lift (elem (V g) 0);;
  c <- lift (equals [v0] [Const 0]);; subject_to c;;
  vN <- lift (elem (V g) (Z.of_nat N));;
  c <- lift (equals [vN] [Const 0]);; subject_to c.

(** The body of [for i in range(N)], with the cost [J] as loop state. *)
Definition segment (g : globals) (i : Z) (J : expr) : M expr :=
  x_left <- lift (elem (X g) i);; x_right <- lift (elem (X g) (i + 1));;
  v_left <- lift (elem (V g) i);; v_right <- lift (elem (V g) (i + 1));;
  u_left <- lift (elem (U g) i);; u_right <- lift (elem (U g) (i + 1));;
  (* collocation constraints *)
  h2 <- lift (truediv ((1 # 2) * tf) (float_of_nat N));;
  c <- lift (equals [Sub x_right x_left] [Mul (Const h2) (Add v_right v_left)]);;
  subject_to c;;
  h2 <- lift (truediv ((1 # 2) * tf) (float_of_nat N));;
  c <- lift (equals [Sub v_right v_left] [Mul (Const h2) (Add u_right u_left)]);;
  subject_to c;;
  (* cost function *)
  h2 <- lift (truediv ((1 # 2) * tf) (float_of_nat N));;
  ret (Add J (Mul (Const h2) (Add (Pow u_left 2) (Pow u_right 2)))).

(** The collocation cell: the loop over the segments, then
    [opti.minimize(J)]. *)
Definition collocation (g : globals) : M expr :=
  J <- for_ (range N) (segment g) (Const 0);;
  minimize J;;
  ret J.

(** [# initial guess] *)
Definition initial_guess (g : globals) : M unit :=
  set_initial (X g) (colvec (t g));;
  set_initial (V g) (np_full_2d (shape (V g)) 1);;
  set_initial (U g) (np_zeros (shape (U g))).

(** The cells in notebook order, up to the call of the solver. *)
Definition cells : M (globals * expr) :=
  g <- decision_variables;;
  boundary_constraints g;;
  J <- collocation g;;
  initial_guess g;;
  ret (g, J).

(** The problem assembled on a fresh [ca.Opti()]. *)
Definition build : result (globals * expr * Opti) := cells Opti_new.

End Cells.
End Trapz.

(* ------------------------------------------------------------------ *)
(** ** Hermite-Simpson collocation, separated form

    The block-move cell and the cart-pole cell share their
    [# decision variables], [# objective] and [# dynamics constraints]
    parts word for word; they are given once, over the cell's parameters. *)

Module HermiteSimpson.

Record grid : Type := {
  X : MX;
  U : MX;
  t : list Q
}.

Section Cells.

Variable tf : Q.       (* final time *)
Variable N : nat.      (* number of trajectory segments *)
Variable nx nu : nat.  (* dimensions of the state and control vectors *)

(** [# decision variables + time discretization] *)
Definition decision_variables : M grid :=
  X <- variable nx (2 * N + 1);;
  U <- variable nu (2 * N + 1);;
  let t := linspace 0 tf (2 * N + 1) in
  ret {| X := X; U := U; t := t |}.

(** The time discretization as binary64 computes it; the [t] above is
    the same line with no rounding. *)
Definition t64 : list Q := linspace64 0 tf (2 * N + 1).

(** The Simpson quadrature coefficient vector, a [1 x (2N+1)] integer
    array: the comprehension, then [simp[0][0]=1] and [simp[0][-1]=1]. *)
Definition simpson_coefficients : result (list (list Z)) :=
  let simp := [map (fun i => 4 * (i mod 2) + 2 * ((i + 1) mod 2))%Z
                   (range (2 * N + 1))] in
  row <- getitem simp 0;; row <- setitem row 0 1%Z;;
  simp <- setitem simp 0 row;;
  row <- getitem simp 0;; row <- setitem row (-1) 1%Z;;
  simp <- setitem simp 0 row;;
  ret simp.

(** The integer array as CasADi reads it. *)
Definition as_MX (a : list (list Z)) : MX :=
  mmap (fun w => Const (inject_Z w)) (of_rows 0%Z a).

(** [# objective] *)
Definition objective (g : grid) : M (list (list Z) * expr) :=
  simp <- lift simpson_coefficients;;
  UU <- lift (times (U g) (U g));;
  J <- lift (dot (as_MX simp) UU);;
  minimize J;;
  ret (simp, J).

(** The names the body of the dynamics-constraints loop binds. *)
Record locals : Type := {
  x_left : list expr;  x_mid : list expr;  x_right : list expr;
  u_left : list expr;  u_mid : list expr;  u_right : list expr;
  f_left : list expr;  f_mid : list expr;  f_right : list expr
}.

(** The reads and the calls at the head of the body, for an index [i]. *)
Definition midpoint_reads (g : grid) (f : Function) (i : Z) : M locals :=
  x_left <- lift (col (X g) (i - 1));;
  x_mid <- lift (col (X g) i);;
  x_right <- lift (col (X g) (i + 1));;
  u_left <- lift (col (U g) (i - 1));;
  u_mid <- lift (col (U g) i);;
  u_right <- lift (col (U g) (i + 1));;
  f_left <- lift (call f [x_left; u_left]);;
  f_mid <- lift (call f [x_mid; u_mid]);;
  f_right <- lift (call f [x_right; u_right]);;
  ret {| x_left := x_left; x_mid := x_mid; x_right := x_right;
         u_left := u_left; u_mid := u_mid; u_right := u_right;
         f_left := f_left; f_mid := f_mid; f_right := f_right |}.

(** The body of the dynamics-constraints loop for a midpoint index [i].
    The two constraints are left to the reader in both cells (the
    [TODO] comments), so the body only reads its operands. *)
Definition midpoint (g : grid) (f : Function) (i : Z) : M unit :=
  _ <- midpoint_reads g f i;;
  (* interpolation constraint: TODO in the notebook *)
  (* collocation constraint: TODO in the notebook *)
  ret tt.

(** The loop itself, over its body:
    [for i in range(2*N+1): if i%2 != 0: body(i)]. *)
Definition midpoint_loop (body : Z -> M unit) : M unit :=
  for_ (range (2 * N + 1))
       (fun i _ => if negb (i mod 2 =? 0)%Z then body i else ret tt)
       tt.

(** [# dynamics constraints] *)
Definition dynamics_constraints (g : grid) (f : Function) : M unit :=
  midpoint_loop (midpoint g f).

End Cells.
End HermiteSimpson.

(** *** Block move *)

Module BlockMove.
Import HermiteSimpson.

(** [# parameters] other than [tf] and [N]. *)
Definition nx : nat := 2.
Definition nu : nat := 1.

(** [# dynamics] *)
Definition derive_dynamics : result Function :=
  let x := SX_sym "x" nx in
  let u := SX_sym "u" nu in
  x1 <- item x 1;;
  let xdot := vertcat [[x1]; u] in
  ret {| f_in := [x; u]; f_out := xdot |}.

(** [# boundary constraints] *)
Definition boundary_constraints (g : grid) : M unit :=
  x0 <- lift (col (X g) 0);;
  c <- lift (equals x0 [Const 0; Const 0]);; subject_to c;;
  xf <- lift (col (X g) (-1));;
  c <- lift (equals xf [Const 1; Const 0]);; subject_to c.

(** [# initial guess] *)
Definition initial_guess (g : grid) : M unit :=
  set_initial (X g) (of_rows 0 [t g; np_full (length (t g)) 1]);;
  set_initial (U g) (np_zeros (shape (U g))).

Record globals : Type := {
  g_grid : grid;
  g_f : Function;
  g_simp : list (list Z);
  g_J : expr
}.

(** The cell, in order, for final time [tf] (1.0 in the notebook) and
    [N] segments (10 in the notebook). *)
Definition cell (tf : Q) (N : nat) : M globals :=
  g <- decision_variables tf N nx nu;;
  f <- lift derive_dynamics;;
  sJ <- objective N g;;
  boundary_constraints g;;
  dynamics_constraints N g f;;
  initial_guess g;;
  ret {| g_grid := g; g_f := f; g_simp := fst sJ; g_J := snd sJ |}.

Definition build (tf : Q) (N : nat) : result (globals * Opti) :=
  cell tf N Opti_new.

End BlockMove.

(** *** Cart-pole swing-up *)

(** The linear algebra the cart-pole dynamics needs. *)

Definition entry (A : MX) (i j : nat) : expr :=
  nth i (nth j (cols A) []) (Const 0).

(** [A @ v] for a matrix and a column vector. *)
Definition mtimes (A : MX) (v : list expr) : result (list expr) :=
  if (ncol A =? length v)%nat
  then Ok (map (fun i => sum_expr (map (fun jv => Mul (entry A i (fst jv)) (snd jv))
                                       (combine (seq 0 (ncol A)) v)))
               (seq 0 (nrow A)))
  else Raise RuntimeError.

(** [a + b] for column vectors of the same length. *)
Definition plus (a b : list expr) : result (list expr) :=
  if (length a =? length b)%nat
  then Ok (map (fun p => Add (fst p) (snd p)) (combine a b))
  else Raise RuntimeError.

(** [ca.solve(A, b)] for a dense [2 x 2] system, which CasADi solves by
    forming the inverse through minor expansion; no other size occurs in
    the notebook. *)
Definition solve (A : MX) (b : list expr) : result (list expr) :=
  match b with
  | [b0; b1] =>
      if (nrow A =? 2)%nat && (ncol A =? 2)%nat
      then let a00 := entry A 0 0 in let a01 := entry A 0 1 in
           let a10 := entry A 1 0 in let a11 := entry A 1 1 in
           let det := Sub (Mul a00 a11) (Mul a01 a10) in
           Ok [Add (Mul (Div a11 det) b0) (Mul (Div (Neg a01) det) b1);
               Add (Mul (Div (Neg a10) det) b0) (Mul (Div a00 det) b1)]
      else Raise RuntimeError
  | _ => Raise RuntimeError
  end.

Module CartPole.
Import HermiteSimpson.

(** [np.pi], the binary64 number nearest to pi. *)
Definition np_pi : Q := 884279719003555 # 281474976710656.

(** [# parameters] other than [tf] and [N]. *)
Definition nx : nat := 4.
Definition nu : nat := 1.
Definition x_init : list Q := [0; 0; 0; 0].
Definition x_final : list Q := [1; np_pi; 0; 0].
Definition m1 : Q := 1.            (* cart mass *)
Definition m2 : Q := 3 # 10.       (* pendulum mass *)
Definition l : Q := 1 # 2.         (* pendulum length *)
Definition g : Q := 981 # 100.     (* gravity *)
Definition u_max : Q := 10.        (* maximum actuator force *)
Definition d_max : Q := 2.         (* extent of rail that cart travels on *)

(** [# dynamics] *)
Definition derive_dynamics : result Function :=
  let x := SX_sym "x" nx in
  let u := SX_sym "u" nu in
  x1 <- item x 1;;
  let M := of_rows (Const 0)
             [[Const (m1 + m2); Mul (Const (m2 * l)) (Cos x1)];
              [Mul (Const (m2 * l)) (Cos x1); Const (m2 * l ^ 2)]] in
  x3 <- item x 3;;
  let C := of_rows (Const 0)
             [[Const 0; Mul (Mul (Const (- m2 * l)) x3) (Sin x1)];
              [Const 0; Const 0]] in
  let tau_g := [Const 0; Mul (Const (- m2 * g * l)) (Sin x1)] in
  let B := of_rows (Const 0) [[Const 1]; [Const 0]] in
  Cv <- mtimes (mmap Neg C) (skipn 2 x);;
  Bu <- mtimes B u;;
  s <- plus Cv tau_g;;
  rhs <- plus s Bu;;
  qdd <- solve M rhs;;
  let xdot := vertcat [skipn 2 x; qdd] in
  ret {| f_in := [x; u]; f_out := xdot |}.

(** [# boundary constraints] *)
Definition boundary_constraints (gr : grid) : M unit :=
  x0 <- lift (col (X gr) 0);;
  c <- lift (equals x0 (map Const x_init));; subject_to c;;
  xf <- lift (col (X gr) (-1));;
  c <- lift (equals xf (map Const x_final));; subject_to c.

(** [# decision variable initial guess]: linear interpolation on the
    state, zero control. *)
Definition initial_guess (N : nat) (gr : grid) : M unit :=
  set_initial (X gr) (of_rows 0 (linspace_T x_init x_final (2 * N + 1)));;
  set_initial (U gr) (np_zeros (shape (U gr))).

Record globals : Type := {
  g_grid : grid;
  g_f : Function;
  g_simp : list (list Z);
  g_J : expr
}.

(** The cell, in order, for final time [tf] (2.0 in the notebook) and
    [N] segments (25 in the notebook). *)
Definition cell (tf : Q) (N : nat) : M globals :=
  gr <- decision_variables tf N nx nu;;
  f <- lift derive_dynamics;;
  sJ <- objective N gr;;
  boundary_constraints gr;;
  dynamics_constraints N gr f;;
  (* path constraint on state: TODO in the notebook *)
  (* path constraint on control: TODO in the notebook *)
  initial_guess N gr;;
  ret {| g_grid := gr; g_f := f; g_simp := fst sJ; g_J := snd sJ |}.

Definition build (tf : Q) (N : nat) : result (globals * Opti) :=
  cell tf N Opti_new.

End CartPole.

(* ------------------------------------------------------------------ *)
(** ** The cells over their parameters

    [N], [nx] and [nu] are Python ints assigned under [# parameters].
    Above, the segment count is a natural number and the state and control
    dimensions of a cell are the notebook's.  Here the segment count is
    any integer, and the dimensions of the block-move cell are any
    naturals. *)

(** [opti.variable(n, m)] for Python ints: CasADi refuses a negative
    dimension. *)
Definition variable_int (n m : Z) : M MX :=
  if ((n <? 0) || (m <? 0))%Z then fun _ => Raise RuntimeError
  else variable (Z.to_nat n) (Z.to_nat m).

Module TrapzInt.

(** [# decision variables] and [# time discretization] *)
Definition decision_variables (tf : Q) (N : Z) : M Trapz.globals :=
  X <- variable_int (N + 1) 1;;
  V <- variable_int (N + 1) 1;;
  U <- variable_int (N + 1) 1;;
  t <- lift (linspace_int 0 tf (N + 1));;
  ret {| Trapz.X := X; Trapz.V := V; Trapz.U := U; Trapz.t := t |}.

(** [# boundary constraints] *)
Definition boundary_constraints (N : Z) (g : Trapz.globals) : M unit :=
  x0 <- lift (elem (Trapz.X g) 0);;
  c <- lift (equals [x0] [Const 0]);; subject_to c;;
  xN <- lift (elem (Trapz.X g) N);;
  c <- lift (equals [xN] [Const 1]);; subject_to c;;
  v0 <- lift (elem (Trapz.V g) 0);;
  c <- lift (equals [v0] [Const 0]);; subject_to c;;
  vN <- lift (elem (Trapz.V g) N);;
  c <- lift (equals [vN] [Const 0]);; subject_to c.

(** The cells in notebook order.  [X] has [N+1] entries and [X[0]] has
    been read when the loop is reached, so [N] is a natural number
    there. *)
Definition cells (tf : Q) (N : Z) : M (Trapz.globals * expr) :=
  g <- decision_variables tf N;;
  boundary_constraints N g;;
  J <- Trapz.collocation tf (Z.to_nat N) g;;
  Trapz.initial_guess g;;
  ret (g, J).

Definition build (tf : Q) (N : Z) : result (Trapz.globals * expr * Opti) :=
  cells tf N Opti_new.

End TrapzInt.

Module HermiteSimpsonInt.
Import HermiteSimpson.

(** [# decision variables + time discretization] *)
Definition decision_variables (tf : Q) (N : Z) (nx nu : nat) : M grid :=
  X <- variable_int (Z.of_nat nx) (2 * N + 1);;
  U <- variable_int (Z.of_nat nu) (2 * N + 1);;
  t <- lift (linspace_int 0 tf (2 * N + 1));;
  ret {| X := X; U := U; t := t |}.

End HermiteSimpsonInt.

Module BlockMoveInt.
Import HermiteSimpson.

(** [# dynamics], over the declared dimensions. *)
Definition derive_dynamics (nx nu : nat) : result Function :=
  let x := SX_sym "x" nx in
  let u := SX_sym "u" nu in
  x1 <- item x 1;;
  let xdot := vertcat [[x1]; u] in
  ret {| f_in := [x; u]; f_out := xdot |}.

(** The cell, in order.  [X] has [2N+1] columns when the objective is
    reached, so [N] is a natural number there. *)
Definition cell (nx nu : nat) (tf : Q) (N : Z) : M BlockMove.globals :=
  g <- HermiteSimpsonInt.decision_variables tf N nx nu;;
  f <- lift (derive_dynamics nx nu);;
  sJ <- objective (Z.to_nat N) g;;
  BlockMove.boundary_constraints g;;
  dynamics_constraints (Z.to_nat N) g f;;
  BlockMove.initial_guess g;;
  ret {| BlockMove.g_grid := g; BlockMove.g_f := f;
         BlockMove.g_simp := fst sJ; BlockMove.g_J := snd sJ |}.

Definition build (nx nu : nat) (tf : Q) (N : Z) : result (BlockMove.globals * Opti) :=
  cell nx nu tf N Opti_new.

End BlockMoveInt.

Module CartPoleInt.
Import HermiteSimpson.

(** The cell, in order, with the notebook's [nx = 4] and [nu = 1]. *)
Definition cell (tf : Q) (N : Z) : M CartPole.globals :=
  gr <- HermiteSimpsonInt.decision_variables tf N CartPole.nx CartPole.nu;;
  f <- lift CartPole.derive_dynamics;;
  sJ <- objective (Z.to_nat N) gr;;
  CartPole.boundary_constraints gr;;
  dynamics_constraints (Z.to_nat N) gr f;;
  CartPole.initial_guess (Z.to_nat N) gr;;
  ret {| CartPole.g_grid := gr; CartPole.g_f := f;
         CartPole.g_simp := fst sJ; CartPole.g_J := snd sJ |}.

Definition build (tf : Q) (N : Z) : result (CartPole.globals * Opti) :=
  cell tf N Opti_new.

End CartPoleInt.

(* ------------------------------------------------------------------ *)
(** ** Vocabulary of the statements *)

(** The [n x m] matrix of decision variables that [opti.variable(n, m)]
    returns when [base] scalars are already declared, and its
    one-column case. *)
Definition vmat (base n m : nat) : MX :=
  {| nrow := n; ncol := m;
     cols := map (fun j => map (fun i => Var (base + j * n + i)) (seq 0 n))
                 (seq 0 m) |}.

Definition vcol (base n : nat) : MX :=
  {| nrow := n; ncol := 1;
     cols := [map (fun i => Var (base + 0 * n + i)) (seq 0 n)] |}.



(** The trapezoidal collocation constraint between grid points [i] and
    [i+1] of a trajectory stored from variable [ba] on and its derivative
    stored from variable [bb] on, as the loop writes it. *)
Definition trapz_x_constr (tf : Q) (N ba bb i : nat) : constr :=
  EqC [Sub (Var (ba + (i + 1))) (Var (ba + i))]
      [Mul (Const ((1 # 2) * tf / float_of_nat N))
           (Add (Var (bb + (i + 1))) (Var (bb + i)))].

Definition trapz_pair (tf : Q) (N bx bv bu i : nat) : list constr :=
  [trapz_x_constr tf N bx bv i; trapz_x_constr tf N bv bu i].

(** What the trapezoidal cells bind and pin. *)
Definition trapz_globals (tf : Q) (N : nat) : Trapz.globals :=
  {| Trapz.X := vcol 0 (N + 1);
     Trapz.V := vcol (N + 1) (N + 1);
     Trapz.U := vcol (2 * (N + 1)) (N + 1);
     Trapz.t := linspace 0 tf (N + 1) |}.

Definition trapz_boundary (N : nat) : list constr :=
  [EqC [Var 0] [Const 0]; EqC [Var N] [Const 1];
   EqC [Var (N + 1)] [Const 0]; EqC [Var (N + 1 + N)] [Const 0]].

(** Column [j] of [vmat base n m]. *)
Definition vmat_col (base n j : nat) : list expr :=
  map (fun i => Var (base + j * n + i)) (seq 0 n).

(** The Simpson coefficient row once the comprehension and the two
    assignments have run. *)
Definition simpson_row (N : nat) : list Z :=
  update (update (map (fun i => 4 * (i mod 2) + 2 * ((i + 1) mod 2))%Z
                      (range (2 * N + 1)))
                 0 1%Z)
         (2 * N + 1 - 1) 1%Z.

(** The objective [ca.dot(simp, U*U)] for a one-row control matrix stored
    from variable [bu] on. *)
Definition simpson_J (N bu : nat) : expr :=
  sum_expr (map (fun j => Mul (Const (inject_Z (nth j (simpson_row N) 0%Z)))
                              (Mul (Var (bu + j * 1 + 0)) (Var (bu + j * 1 + 0))))
                (seq 0 (2 * N + 1))).

(** A finite sum [f 0 + ... + f (n-1)]. *)
Definition Qsum (f : nat -> Q) (n : nat) : Q :=
  fold_right Qplus 0%Q (map f (seq 0 n)).

(** The grid of the Hermite-Simpson cells on a fresh [Opti]. *)
Definition hs_grid (tf : Q) (N nx nu : nat) : HermiteSimpson.grid :=
  {| HermiteSimpson.X := vmat 0 nx (2 * N + 1);
     HermiteSimpson.U := vmat (nx * (2 * N + 1)) nu (2 * N + 1);
     HermiteSimpson.t := linspace 0 tf (2 * N + 1) |}.

(** The midpoint indices [1, 3, ..., 2N-1], one per segment. *)
Definition midpoints (N : nat) : list Z :=
  map (fun k => Z.of_nat (2 * k + 1)) (seq 0 N).

(** The two boundary constraints of a Hermite-Simpson cell: the first and
    the last column of [X] against the initial and final state. *)
Definition hs_boundary (N nx : nat) (x0 xf : list Q) : list constr :=
  [EqC (vmat_col 0 nx 0) (map Const x0);
   EqC (vmat_col 0 nx (2 * N + 1 - 1)) (map Const xf)].

(** [A] is an [n x m] matrix: [m] columns of [n] entries each.  For a
    Hermite-Simpson trajectory the columns are the grid points. *)
Definition has_shape (n m : nat) (A : MX) : Prop :=
  shape A = (n, m)
  /\ length (cols A) = m
  /\ Forall (fun c => length c = n) (cols A).



(** The computation [c] returns and adds exactly the constraints [cs] to
    whatever problem it runs on. *)
Definition adds (c : M unit) (cs : list constr) : Prop :=
  forall o, exists o', c o = Ok (tt, o') /\ constraints o' = constraints o ++ cs.

(** The constraints [cs] are equalities that pin the state at grid index
    [0] to [init] and at grid index [last] to [final], and pin no other
    grid point: they hold exactly when the two end states have those
    values, and no variable of any other grid point occurs in them.
    [state j] is the state vector at grid index [j]. *)
Definition pins_ends (cs : list constr) (state : nat -> list expr) (last : nat)
           (init final : list Q) : Prop :=
  Forall (fun c => is_bound c = false) cs
  /\ (forall r, Forall (sat r) cs <->
                Forall2 (fun e q => eval r e == q)%Q (state 0%nat) init
                /\ Forall2 (fun e q => eval r e == q)%Q (state last) final)
  /\ (forall j k, (j <= last)%nat -> j <> 0%nat -> j <> last ->
                  In (Var k) (state j) -> ~ In k (flat_map constr_vars cs)).

(** No variable of the state at a midpoint index [2j+1], [j < N], occurs
    in the constraints [cs]. *)
Definition midpoints_unconstrained (N : nat) (X : MX) (cs : list constr) : Prop :=
  forall j k, (j < N)%nat ->
    In (Var k) (nth (2 * j + 1) (cols X) []) ->
    ~ In k (flat_map constr_vars cs).

(** A point of the cart-pole decision space that meets the two boundary
    conditions of the notebook's scenario ([N = 25]: the last state column
    starts at variable 200 and the controls at variable 204) while the
    cart sits at 3 at grid point 1 and the force is 11 at grid point 0. *)
Definition off_rail : env :=
  {| v_var := fun k => if (k =? 4)%nat then 3
                       else if (k =? 200)%nat then 1
                       else if (k =? 201)%nat then CartPole.np_pi
                       else if (k =? 204)%nat then 11
                       else 0;
     v_sym := fun _ _ => 0;
     v_cos := fun _ => 1;
     v_sin := fun _ => 0 |}.

(** The Simpson weights as the specification words them: 1 at the two
    trajectory endpoints, 4 at odd indices, 2 at even interior indices. *)
Definition simpson_weight_spec (N i : nat) : Q :=
  if (i =? 0)%nat || (i =? 2 * N)%nat then 1
  else if Nat.odd i then 4 else 2.

(** The Simpson-weighted sum of the squared controls over the [2N+1] grid
    points, and the Simpson quadrature of the specification: that sum
    scaled by [h/3] with [h = tf/(2N)]. *)
Definition simpson_sum (N : nat) (u : nat -> Q) : Q :=
  Qsum (fun i => simpson_weight_spec N i * (u i * u i))%Q (2 * N + 1).

Definition simpson_cost_spec (tf : Q) (N : nat) (u : nat -> Q) : Q :=
  (tf / float_of_nat (2 * N) / 3 * simpson_sum N u)%Q.

(** The control at grid point [i] under [r], for a one-row control matrix. *)
Definition control_at (r : env) (U : MX) (i : nat) : Q := eval r (entry U 0 i).

(** Every control equal to one. *)
Definition unit_controls : env :=
  {| v_var := fun _ => 1; v_sym := fun _ _ => 0;
     v_cos := fun _ => 1; v_sin := fun _ => 0 |}.

(** The cubic Hermite interpolant over a segment of duration [h] with end
    values [xl], [xr] and end slopes [fl], [fr]: its value and its slope at
    the middle of the segment. *)
Definition hermite_mid (h xl xr fl fr : Q) : Q :=
  ((1 # 2) * (xl + xr) + h / 8 * (fl - fr))%Q.

Definition hermite_mid_slope (h xl xr fl fr : Q) : Q :=
  ((3 # 2) / h * (xr - xl) - (1 # 4) * (fl + fr))%Q.

(** [op] applied along four vectors. *)
Fixpoint zip4 (op : Q -> Q -> Q -> Q -> Q) (a b c d : list Q) : list Q :=
  match a, b, c, d with
  | x :: a', y :: b', z :: c', w :: d' => op x y z w :: zip4 op a' b' c' d'
  | _, _, _, _ => []
  end.

(** The two midpoint identities of the Hermite-Simpson scheme at the
    midpoint index [i], for segments of duration [h], under the values
    [r]: the midpoint state is the interpolant's value (interpolation),
    and the dynamics at the midpoint is the interpolant's slope
    (collocation). *)
Definition midpoint_identities (r : env) (h : Q) (g : HermiteSimpson.grid)
           (f : Function) (i : Z) : Prop :=
  exists x_left x_mid x_right u_left u_mid u_right f_left f_mid f_right,
    col (HermiteSimpson.X g) (i - 1) = Ok x_left
    /\ col (HermiteSimpson.X g) i = Ok x_mid
    /\ col (HermiteSimpson.X g) (i + 1) = Ok x_right
    /\ col (HermiteSimpson.U g) (i - 1) = Ok u_left
    /\ col (HermiteSimpson.U g) i = Ok u_mid
    /\ col (HermiteSimpson.U g) (i + 1) = Ok u_right
    /\ call f [x_left; u_left] = Ok f_left
    /\ call f [x_mid; u_mid] = Ok f_mid
    /\ call f [x_right; u_right] = Ok f_right
    /\ Forall2 Qeq (map (eval r) x_mid)
         (zip4 (hermite_mid h) (map (eval r) x_left) (map (eval r) x_right)
               (map (eval r) f_left) (map (eval r) f_right))
    /\ Forall2 Qeq (map (eval r) f_mid)
         (zip4 (hermite_mid_slope h) (map (eval r) x_left) (map (eval r) x_right)
               (map (eval r) f_left) (map (eval r) f_right)).

(** A point of the block-move decision space ([N = 10]: the last state
    column starts at variable 40) that meets the boundary conditions, with
    the block at 5 at the first midpoint and at rest everywhere. *)
Definition off_curve : env :=
  {| v_var := fun k => if (k =? 2)%nat then 5
                       else if (k =? 40)%nat then 1
                       else 0;
     v_sym := fun _ _ => 0;
     v_cos := fun _ => 1;
     v_sin := fun _ => 0 |}.

(** Everything at zero. *)
Definition at_rest : env :=
  {| v_var := fun _ => 0; v_sym := fun _ _ => 0;
     v_cos := fun _ => 1; v_sin := fun _ => 0 |}.

(* ------------------------------------------------------------------ *)
(** ** Vocabulary for costs, feasibility, initial guesses and dynamics *)

(** The value under [r] of entry [i] of a vector of decision variables. *)
Definition value_at (r : env) (A : MX) (i : nat) : Q :=
  eval r (nth i (entries A) (Const 0)).

(** The trapezoid quadrature over [N] steps of length [h] of the samples
    [w 0, ..., w N]. *)
Definition trapezoid_sum (h : Q) (w : nat -> Q) (N : nat) : Q :=
  Qsum (fun i => h / 2 * (w i + w (i + 1)%nat))%Q N.

(** One pass of [J += 0.5*tf/N*(u_left**2 + u_right**2)] for controls
    stored from variable [bu] on, and the cost after the whole loop. *)
Definition trapz_cost_step (tf : Q) (N bu : nat) (J : expr) (i : nat) : expr :=
  Add J (Mul (Const ((1 # 2) * tf / float_of_nat N))
             (Add (Pow (Var (bu + i)) 2) (Pow (Var (bu + (i + 1))) 2))).

Definition trapz_J (tf : Q) (N bu : nat) : expr :=
  fold_left (trapz_cost_step tf N bu) (seq 0 N) (Const 0).

(** [o'] is [o] with the constraints [cs] added and nothing else changed. *)
Definition extends_by (o o' : Opti) (cs : list constr) : Prop :=
  nvars o' = nvars o
  /\ constraints o' = constraints o ++ cs
  /\ objective o' = objective o
  /\ initial o' = initial o.

(** The initial guesses the trapezoidal cell records: [X] along the time
    grid, [V] at one, [U] at zero. *)
Definition trapz_initial (tf : Q) (N : nat) : list (nat * Q) :=
  guess_pairs (entries (Trapz.X (trapz_globals tf N)))
              (entries (colvec (linspace 0 tf (N + 1))))
  ++ guess_pairs (entries (Trapz.V (trapz_globals tf N)))
                 (entries (np_full_2d (shape (Trapz.V (trapz_globals tf N))) 1))
  ++ guess_pairs (entries (Trapz.U (trapz_globals tf N)))
                 (entries (np_zeros (shape (Trapz.U (trapz_globals tf N))))).

(** The sum of a list of integers. *)
Definition Zsum (l : list Z) : Z := fold_right Z.add 0%Z l.

(** The equations of the trapezoidal block-move problem on sampled
    position [x], velocity [v] and force [u]: the four boundary
    conditions and, on every segment, the two collocation equations with
    step [h = tf/N]. *)
Definition trapz_equations (tf : Q) (N : nat) (x v u : nat -> Q) : Prop :=
  (x 0%nat == 0)%Q /\ (x N == 1)%Q /\ (v 0%nat == 0)%Q /\ (v N == 0)%Q
  /\ forall i, (i < N)%nat ->
       (x (i + 1)%nat - x i
        == tf / float_of_nat N / 2 * (v (i + 1)%nat + v i))%Q
       /\ (v (i + 1)%nat - v i
           == tf / float_of_nat N / 2 * (u (i + 1)%nat + u i))%Q.

(** A point of the trapezoidal decision space for [N = 2], [tf = 1]:
    position [0, 1/2, 1], velocity [0, 2, 0], force [8, 0, -8]. *)
Definition two_segments : env :=
  {| v_var := fun k => if (k =? 1)%nat then 1 # 2
                       else if (k =? 2)%nat then 1
                       else if (k =? 4)%nat then 2
                       else if (k =? 6)%nat then 8
                       else if (k =? 8)%nat then - (8)
                       else 0;
     v_sym := fun _ _ => 0;
     v_cos := fun _ => 1;
     v_sin := fun _ => 0 |}.

(** A trajectory for [N] segments that starts and ends at rest and moves
    at one constant velocity at every interior grid point, with the
    position and the force that the trapezoid rule then dictates. *)
Definition ramp_v (tf : Q) (N i : nat) : Q :=
  if (i =? 0)%nat || (N <=? i)%nat then 0
  else 1 / (tf / float_of_nat N * float_of_nat (N - 1)).

Fixpoint ramp_x (tf : Q) (N i : nat) : Q :=
  match i with
  | O => 0
  | S j => ramp_x tf N j
           + tf / float_of_nat N / 2 * (ramp_v tf N (S j) + ramp_v tf N j)
  end.

Fixpoint ramp_u (tf : Q) (N i : nat) : Q :=
  match i with
  | O => 0
  | S j => 2 * (ramp_v tf N (S j) - ramp_v tf N j) / (tf / float_of_nat N)
           - ramp_u tf N j
  end.

Definition ramp (tf : Q) (N : nat) : env :=
  {| v_var := fun k => if (k <? N + 1)%nat then ramp_x tf N k
                       else if (k <? 2 * (N + 1))%nat then ramp_v tf N (k - (N + 1))
                       else ramp_u tf N (k - 2 * (N + 1));
     v_sym := fun _ _ => 0;
     v_cos := fun _ => 1;
     v_sin := fun _ => 0 |}.

(** The guess recorded for variable [k]: the value of the last
    [set_initial] that mentions it. *)
Fixpoint last_guess (init : list (nat * Q)) (k : nat) : option Q :=
  match init with
  | [] => None
  | (k', v) :: rest =>
      match last_guess rest k with
      | Some w => Some w
      | None => if (k =? k')%nat then Some v else None
      end
  end.

(** The point the solver starts from: every variable at its recorded
    guess, and at zero when it has none. *)
Definition guess_env (init : list (nat * Q)) : env :=
  {| v_var := fun k => match last_guess init k with Some v => v | None => 0 end;
     v_sym := fun _ _ => 0;
     v_cos := fun _ => 1;
     v_sin := fun _ => 0 |}.

(** The guesses a Hermite-Simpson cell records: the state array [V0]
    against the state variables, zeros against the controls. *)
Definition hs_initial (N nx : nat) (V0 : DM) : list (nat * Q) :=
  guess_pairs (entries (vmat 0 nx (2 * N + 1))) (entries V0)
  ++ guess_pairs (entries (vmat (nx * (2 * N + 1)) 1 (2 * N + 1)))
                 (entries (np_zeros (1, 2 * N + 1)%nat)).

Definition blockmove_guess (tf : Q) (N : nat) : DM :=
  of_rows 0 [linspace 0 tf (2 * N + 1); np_full (2 * N + 1) 1].

Definition cartpole_guess (N : nat) : DM :=
  of_rows 0 (linspace_T CartPole.x_init CartPole.x_final (2 * N + 1)).

(** A point that takes the values [x0] on the first state column of a
    Hermite-Simpson grid and [xf] on the last one. *)
Definition pinned (N nx : nat) (x0 xf : list Q) : env :=
  {| v_var := fun k => if (k <? nx)%nat then nth k x0 0
                       else nth (k - 2 * N * nx) xf 0;
     v_sym := fun _ _ => 0;
     v_cos := fun _ => 1;
     v_sin := fun _ => 0 |}.

(** The state and the control of the trapezoidal cell at grid point [i],
    as the arguments a dynamics function takes. *)
Definition trapz_state (g : Trapz.globals) (i : nat) : list expr :=
  [nth i (entries (Trapz.X g)) (Const 0); nth i (entries (Trapz.V g)) (Const 0)].

Definition trapz_control (g : Trapz.globals) (i : nat) : list expr :=
  [nth i (entries (Trapz.U g)) (Const 0)].

(** Component [k] of a vector of expressions, evaluated. *)
Definition component (r : env) (v : list expr) (k : nat) : Q :=
  eval r (nth k v (Const 0)).

(** The manipulator equations of the cart-pole, [M qdd = -C qd + tau_g + B u],
    row by row: [c] and [s] are the cosine and the sine of the pole angle,
    [w] its rate, [u] the force, [a1] and [a2] the two accelerations. *)
Definition manipulator_equations (c s w u a1 a2 : Q) : Prop :=
  ((CartPole.m1 + CartPole.m2) * a1 + CartPole.m2 * CartPole.l * c * a2
   == CartPole.m2 * CartPole.l * w * s * w + u)%Q
  /\ (CartPole.m2 * CartPole.l * c * a1 + CartPole.m2 * CartPole.l ^ 2 * a2
      == - CartPole.m2 * CartPole.g * CartPole.l * s)%Q.

(* ------------------------------------------------------------------ *)
(** * Properties *)

Unset Implicit Arguments.

(* ------------------------------------------------------------------ *)
(** ** Lists, indices and numbers *)

Lemma py_index_nat (len i : nat) : (i < len)%nat -> py_index len (Z.of_nat i) = Some i.
Proof.
  intros H. unfold py_index.
  replace (0 <=? Z.of_nat i)%Z with true by (symmetry; apply Z.leb_le; lia).
  replace (Z.of_nat i <? Z.of_nat len)%Z with true by (symmetry; apply Z.ltb_lt; lia).
  simpl. now rewrite Nat2Z.id.
Qed.

Lemma py_index_last (len : nat) : (0 < len)%nat -> py_index len (-1) = Some (len - 1)%nat.
Proof.
  intros H. unfold py_index.
  change (0 <=? -1)%Z with false. cbv beta iota. simpl andb at 1. cbv iota.
  replace (- Z.of_nat len <=? -1)%Z with true by (symmetry; apply Z.leb_le; lia).
  change (-1 <? 0)%Z with true. simpl andb. cbv iota. f_equal. lia.
Qed.

Lemma length_update {A} (l : list A) : forall k v, length (update l k v) = length l.
Proof. induction l as [|x l IH]; intros [|k] v; simpl; auto. Qed.

Lemma nth_update_same {A} (l : list A) : forall k v d,
  (k < length l)%nat -> nth k (update l k v) d = v.
Proof.
  induction l as [|x l IH]; intros [|k] v d H; simpl in *; try lia; auto.
  apply IH. lia.
Qed.

Lemma nth_update_other {A} (l : list A) : forall k i v d,
  i <> k -> nth i (update l k v) d = nth i l d.
Proof.
  induction l as [|x l IH]; intros [|k] [|i] v d H; simpl; try reflexivity; try lia.
  apply IH. lia.
Qed.

Lemma combine_map_same {A B C} (f : A -> B) (h : A -> C) l :
  combine (map f l) (map h l) = map (fun x => (f x, h x)) l.
Proof. induction l as [|x l IH]; simpl; [reflexivity|]. now rewrite IH. Qed.

Lemma concat_map_singleton {A B} (f : A -> B) l :
  concat (map (fun x => [f x]) l) = map f l.
Proof. induction l as [|x l IH]; simpl; [reflexivity|]. now rewrite IH. Qed.

Lemma nth_error_flat_map_pair {A} (f h : nat -> A) len : forall start i,
  (i < len)%nat ->
  nth_error (flat_map (fun k => [f k; h k]) (seq start len)) (2 * i) = Some (f (start + i)%nat)
  /\ nth_error (flat_map (fun k => [f k; h k]) (seq start len)) (2 * i + 1) = Some (h (start + i)%nat).
Proof.
  induction len as [|len IH]; intros start i H; [lia|].
  destruct i as [|i].
  - simpl. rewrite Nat.add_0_r. split; reflexivity.
  - replace (2 * S i)%nat with (S (S (2 * i))) by lia.
    replace (S (S (2 * i)) + 1)%nat with (S (S (2 * i + 1))) by lia.
    cbn [seq flat_map app nth_error].
    replace (start + S i)%nat with (S start + i)%nat by lia.
    apply IH. lia.
Qed.

Lemma length_flat_map_pair {A} (f h : nat -> A) l :
  length (flat_map (fun k => [f k; h k]) l) = (2 * length l)%nat.
Proof. induction l as [|x l IH]; simpl; [reflexivity|]. rewrite IH. lia. Qed.

Lemma float_of_nat_nz {n} : (0 < n)%nat -> ~ (float_of_nat n == 0)%Q.
Proof.
  intros H E. unfold float_of_nat in E. unfold Qeq in E. simpl in E. lia.
Qed.

Lemma float_of_nat_S i : (float_of_nat (i + 1) == float_of_nat i + 1)%Q.
Proof.
  unfold float_of_nat. rewrite Nat2Z.inj_add, inject_Z_plus. reflexivity.
Qed.

Lemma float_of_nat_lt {i j} : (i < j)%nat -> (float_of_nat i < float_of_nat j)%Q.
Proof. intros H. unfold float_of_nat. rewrite <- Zlt_Qlt. lia. Qed.

Lemma float_of_nat_pos {n} : (0 < n)%nat -> (0 < float_of_nat n)%Q.
Proof. intros H. apply (float_of_nat_lt H). Qed.

Lemma truediv_ok a b : ~ (b == 0)%Q -> truediv a b = Ok (a / b)%Q.
Proof.
  intros H. unfold truediv. destruct (Qeq_bool b 0) eqn:E; [|reflexivity].
  apply Qeq_bool_iff in E. contradiction.
Qed.

Lemma half_step tf {n} : ~ (n == 0)%Q -> ((1 # 2) * tf / n == tf / n / 2)%Q.
Proof. intros H. field. exact H. Qed.

Lemma fold_Qplus_ext (f h : nat -> Q) l :
  (forall i, In i l -> (f i == h i)%Q) ->
  (fold_right Qplus 0 (map f l) == fold_right Qplus 0 (map h l))%Q.
Proof.
  induction l as [|j l IH]; intros H; [reflexivity|].
  cbn [map fold_right]. rewrite (H j (or_introl eq_refl)), IH; [reflexivity|].
  intros i Hi. apply H. now right.
Qed.

(* ------------------------------------------------------------------ *)
(** ** The time grid *)

Lemma linspace_length a b n : length (linspace a b n) = n.
Proof.
  unfold linspace.
  assert (U : forall A (l : list A) k v, length (update l k v) = length l).
  { intros A l. induction l as [|x l IH]; intros [|k] v; simpl; auto. }
  destruct (1 <? n)%nat; destruct (0 <? n - 1)%nat;
    rewrite ?U, !length_map, length_seq; reflexivity.
Qed.

(** Below the last sample, [linspace] is [start + i * step]. *)
Lemma linspace_nth_inner a b n i :
  (1 <= n)%nat -> (i < n)%nat ->
  nth i (linspace a b (n + 1)) 0%Q
  = (float_of_nat i * ((b - a) / float_of_nat (n + 1 - 1)) + a)%Q.
Proof.
  intros Hn Hi. unfold linspace.
  replace (1 <? n + 1)%nat with true by (symmetry; apply Nat.ltb_lt; lia).
  replace (0 <? n + 1 - 1)%nat with true by (symmetry; apply Nat.ltb_lt; lia).
  rewrite nth_update_other by lia.
  rewrite !map_map.
  rewrite (nth_indep _ 0%Q
             ((fun x => float_of_nat x * ((b - a) / float_of_nat (n + 1 - 1)) + a)%Q 0%nat))
    by (rewrite length_map, length_seq; lia).
  rewrite (map_nth (fun x => float_of_nat x * ((b - a) / float_of_nat (n + 1 - 1)) + a)%Q).
  rewrite seq_nth by lia. reflexivity.
Qed.

Lemma linspace_nth_last a b n :
  (1 <= n)%nat -> nth n (linspace a b (n + 1)) 0%Q = b.
Proof.
  intros Hn. unfold linspace.
  replace (1 <? n + 1)%nat with true by (symmetry; apply Nat.ltb_lt; lia).
  replace (n + 1 - 1)%nat with n by lia.
  apply nth_update_same. destruct (0 <? n)%nat; rewrite !length_map, length_seq; lia.
Qed.

(** With exact arithmetic the overwritten last sample is on the line too. *)
Lemma linspace_nth a b n i :
  (1 <= n)%nat -> (i <= n)%nat ->
  (nth i (linspace a b (n + 1)) 0 == a + float_of_nat i * ((b - a) / float_of_nat n))%Q.
Proof.
  intros Hn Hi. destruct (Nat.eq_dec i n) as [->|Hne].
  - rewrite linspace_nth_last by assumption.
    pose proof (float_of_nat_nz Hn). field. assumption.
  - rewrite linspace_nth_inner by lia. replace (n + 1 - 1)%nat with n by lia. ring.
Qed.

Lemma linspace_one a b : linspace a b 1 = [(0 * (b - a) + a)%Q].
Proof. reflexivity. Qed.

Lemma length_linspace_T a b n :
  length (linspace_T a b n) = length (combine a b)
  /\ Forall (fun r => length r = n) (linspace_T a b n).
Proof.
  unfold linspace_T. split; [now rewrite length_map|].
  apply Forall_forall. intros r Hr. apply in_map_iff in Hr.
  destruct Hr as (ab & <- & _). apply linspace_length.
Qed.

(* ------------------------------------------------------------------ *)
(** ** Running a cell *)

Lemma bind_ok {A B} (c : M A) (k : A -> M B) o {a o'} :
  c o = Ok (a, o') -> bind c k o = k a o'.
Proof. intros H. simpl. now rewrite H. Qed.

Lemma bind_lift {A B} {r : result A} (k : A -> M B) o {a} :
  r = Ok a -> bind (lift r) k o = k a o.
Proof. intros ->. reflexivity. Qed.

Lemma bind_subject_to {B} c (k : unit -> M B) o :
  bind (subject_to c) k o =
  k tt {| nvars := nvars o; constraints := constraints o ++ [c];
          objective := objective o; initial := initial o |}.
Proof. reflexivity. Qed.

Lemma bind_minimize {B} J (k : unit -> M B) o :
  bind (minimize J) k o =
  k tt {| nvars := nvars o; constraints := constraints o;
          objective := Some J; initial := initial o |}.
Proof. reflexivity. Qed.

Lemma bind_variable {B} n m (k : MX -> M B) o :
  bind (variable n m) k o =
  k (vmat (nvars o) n m)
    {| nvars := nvars o + n * m; constraints := constraints o;
       objective := objective o; initial := initial o |}.
Proof. reflexivity. Qed.

Lemma bind_variable_col {B} n (k : MX -> M B) o :
  bind (variable n 1) k o =
  k (vcol (nvars o) n)
    {| nvars := nvars o + n * 1; constraints := constraints o;
       objective := objective o; initial := initial o |}.
Proof. reflexivity. Qed.

Lemma for_app {S} (body : Z -> S -> M S) l2 : forall l1 s o,
  for_ (l1 ++ l2) body s o =
  match for_ l1 body s o with
  | Ok (s', o') => for_ l2 body s' o'
  | Raise e => Raise e
  end.
Proof.
  induction l1 as [|i l1 IH]; intros s o; [reflexivity|].
  cbn [app for_ bind Monad_M].
  destruct (body i s o) as [[s1 o1]|e]; [apply IH|reflexivity].
Qed.

(** A loop whose body leaves the state alone and does not raise. *)
Lemma for_unit_ok (body : Z -> unit -> M unit) o : forall l,
  (forall i, In i l -> body i tt o = Ok (tt, o)) ->
  for_ l body tt o = Ok (tt, o).
Proof.
  induction l as [|i l IH]; intros H; [reflexivity|].
  cbn [for_]. rewrite (bind_ok _ _ _ (H i (or_introl eq_refl))).
  apply IH. intros j Hj. apply H. now right.
Qed.

Lemma set_initial_ok X0 v o :
  shape X0 = shape v ->
  exists o', set_initial X0 v o = Ok (tt, o')
    /\ constraints o' = constraints o /\ objective o' = objective o.
Proof.
  intros H. unfold set_initial, shape_eqb. rewrite H, !Nat.eqb_refl.
  eexists. split; [reflexivity|]. split; reflexivity.
Qed.

Lemma set_initial_zeros X0 o :
  exists o', set_initial X0 (np_zeros (shape X0)) o = Ok (tt, o')
    /\ constraints o' = constraints o /\ objective o' = objective o.
Proof. apply set_initial_ok. reflexivity. Qed.

Lemma sat_eq1 r a b : sat r (EqC [a] [b]) <-> (eval r a == eval r b)%Q.
Proof.
  simpl. split.
  - intros H. inversion H; subst. assumption.
  - intros H. constructor; [assumption|constructor].
Qed.

Lemma Forall2_map_Const r (l : list expr) (q : list Q) :
  Forall2 (fun a b => eval r a == eval r b)%Q l (map Const q)
  <-> Forall2 (fun e c => eval r e == c)%Q l q.
Proof.
  revert l. induction q as [|c q IH]; intros l; cbn [map]; split; intros H.
  - inversion H. constructor.
  - inversion H. constructor.
  - inversion_clear H as [|? ? ? ? H1 H2]. constructor; [exact H1|now apply IH].
  - inversion_clear H as [|? ? ? ? H1 H2]. constructor; [exact H1|now apply IH].
Qed.

Lemma vars_map_Const (q : list Q) : flat_map vars (map Const q) = [].
Proof. induction q as [|c q IH]; [reflexivity|exact IH]. Qed.

Lemma eval_sum_expr r (F : nat -> expr) l :
  eval r (sum_expr (map F l)) = fold_right Qplus 0%Q (map (fun j => eval r (F j)) l).
Proof.
  induction l as [|j l IH]; [reflexivity|].
  cbn [map sum_expr fold_right eval]. f_equal. exact IH.
Qed.

(* ------------------------------------------------------------------ *)
(** ** Matrices of decision variables *)

Lemma elem_vcol base n i :
  (i < n)%nat -> elem (vcol base n) (Z.of_nat i) = Ok (Var (base + i)).
Proof.
  intros H. unfold elem. simpl nrow. simpl ncol. rewrite py_index_nat by lia.
  unfold entries. simpl. rewrite app_nil_r.
  rewrite nth_error_map, nth_error_seq.
  rewrite (proj2 (Nat.ltb_lt i n) H). simpl. now rewrite Nat.add_0_r.
Qed.

Lemma nth_entries_vcol base n j d :
  (j < n)%nat -> nth j (entries (vcol base n)) d = Var (base + j).
Proof.
  intros H. unfold entries. cbn [vcol cols concat]. rewrite app_nil_r.
  rewrite (nth_indep _ d ((fun i => Var (base + 0 * n + i)) 0%nat))
    by (rewrite length_map, length_seq; exact H).
  rewrite (map_nth (fun i => Var (base + 0 * n + i))), seq_nth by exact H.
  cbn [Nat.mul]. now rewrite Nat.add_0_r.
Qed.


Lemma has_shape_vcol base n : has_shape n 1 (vcol base n).
Proof.
  split; [reflexivity|]. cbn [vcol cols]. split; [reflexivity|].
  constructor; [|constructor]. now rewrite length_map, length_seq.
Qed.

Lemma col_vmat base n {m j} :
  (j < m)%nat -> col (vmat base n m) (Z.of_nat j) = Ok (vmat_col base n j).
Proof.
  intros H. unfold col. cbn [vmat ncol cols]. rewrite py_index_nat by assumption.
  rewrite nth_error_map, nth_error_seq, (proj2 (Nat.ltb_lt j m) H). reflexivity.
Qed.

Lemma col_vmat_last base n {m} :
  (0 < m)%nat -> col (vmat base n m) (-1) = Ok (vmat_col base n (m - 1)).
Proof.
  intros H. unfold col. cbn [vmat ncol cols]. rewrite py_index_last by assumption.
  rewrite nth_error_map, nth_error_seq.
  replace (m - 1 <? m)%nat with true by (symmetry; apply Nat.ltb_lt; lia).
  reflexivity.
Qed.

Lemma length_vmat_col base n j : length (vmat_col base n j) = n.
Proof. unfold vmat_col. now rewrite length_map, length_seq. Qed.

Lemma nth_cols_vmat base n m j :
  (j < m)%nat -> nth j (cols (vmat base n m)) [] = vmat_col base n j.
Proof.
  intros H. cbn [vmat cols].
  rewrite (nth_indep _ [] ((fun j => vmat_col base n j) 0%nat))
    by (rewrite length_map, length_seq; exact H).
  unfold vmat_col at 1.
  rewrite (map_nth (fun j => map (fun i => Var (base + j * n + i)) (seq 0 n))).
  now rewrite seq_nth by exact H.
Qed.

Lemma entry_vmat_row base m j :
  (j < m)%nat -> entry (vmat base 1 m) 0 j = Var (base + j * 1 + 0).
Proof.
  intros H. unfold entry. now rewrite nth_cols_vmat by exact H.
Qed.


Lemma in_vars_vmat_col base n j k :
  In k (flat_map vars (vmat_col base n j))
  -> exists i, (i < n)%nat /\ k = (base + j * n + i)%nat.
Proof.
  unfold vmat_col. intros H. apply in_flat_map in H.
  destruct H as (e & He & Hk). apply in_map_iff in He.
  destruct He as (i & <- & Hi). apply in_seq in Hi.
  destruct Hk as [<-|[]]. exists i. split; [lia|reflexivity].
Qed.

Lemma in_entries_vmat base n m e :
  In e (entries (vmat base n m)) ->
  exists j i, (j < m)%nat /\ (i < n)%nat /\ e = Var (base + j * n + i).
Proof.
  unfold entries. cbn [vmat cols]. intros H. apply in_concat in H.
  destruct H as (c & Hc & He). apply in_map_iff in Hc.
  destruct Hc as (j & <- & Hj). apply in_seq in Hj.
  apply in_map_iff in He. destruct He as (i & <- & Hi). apply in_seq in Hi.
  exists j, i. repeat split; lia.
Qed.

Lemma call_ok f x u nx nu :
  dims (f_in f) = [nx; nu] -> length x = nx -> length u = nu ->
  exists y, call f [x; u] = Ok y.
Proof.
  intros Hf Hx Hu. unfold call. cbn [dims map]. rewrite Hf, Hx, Hu.
  destruct (list_eq_dec Nat.eq_dec [nx; nu] [nx; nu]) as [_|ne]; [|contradiction].
  eexists. reflexivity.
Qed.

(* ------------------------------------------------------------------ *)
(** ** Examples *)

(** Some runs on small inputs. *)

Example linspace_quarters : linspace 0 1 5 = [0 # 4; 1 # 4; 2 # 4; 3 # 4; 1]%Q.
Proof. reflexivity. Qed.

Example simpson_coefficients_2 :
  HermiteSimpson.simpson_coefficients 2 = Ok [[1; 4; 2; 4; 1]%Z].
Proof. reflexivity. Qed.

Example last_column_by_minus_one :
  col (vmat 0 2 3) (-1) = Ok [Var 4; Var 5].
Proof. reflexivity. Qed.

Example column_out_of_range :
  col (vmat 0 2 3) 3 = Raise RuntimeError.
Proof. reflexivity. Qed.

(** The block-move dynamics is [xdot = (v, u)]. *)
Example blockmove_f_call :
  (f <- BlockMove.derive_dynamics;; call f [[Var 0; Var 1]; [Var 8]])%monad
  = Ok [Var 1; Var 8].
Proof. reflexivity. Qed.

Example trapz_two_segments :
  exists g J o,
    Trapz.build 1 2 = Ok (g, J, o)
    /\ constraints o
       = [EqC [Var 0] [Const 0]; EqC [Var 2] [Const 1];
          EqC [Var 3] [Const 0]; EqC [Var 5] [Const 0];
          EqC [Sub (Var 1) (Var 0)] [Mul (Const (1 # 4)) (Add (Var 4) (Var 3))];
          EqC [Sub (Var 4) (Var 3)] [Mul (Const (1 # 4)) (Add (Var 7) (Var 6))];
          EqC [Sub (Var 2) (Var 1)] [Mul (Const (1 # 4)) (Add (Var 5) (Var 4))];
          EqC [Sub (Var 5) (Var 4)] [Mul (Const (1 # 4)) (Add (Var 8) (Var 7))]].
Proof. do 3 eexists. split; [vm_compute; reflexivity|reflexivity]. Qed.

Example blockmove_one_segment :
  exists G o,
    BlockMove.build 1 1 = Ok (G, o)
    /\ constraints o
       = [EqC [Var 0; Var 1] [Const 0; Const 0]; EqC [Var 4; Var 5] [Const 1; Const 0]]
    /\ BlockMove.g_simp G = [[1; 4; 1]%Z].
Proof. do 2 eexists. split; [vm_compute; reflexivity|]. split; reflexivity. Qed.

(* ------------------------------------------------------------------ *)
(** ** The trapezoidal cells *)

Ltac mstep :=
  first
    [ rewrite bind_subject_to
    | rewrite bind_minimize
    | erewrite bind_lift
        by (first [ apply elem_vcol; lia
                  | apply truediv_ok, float_of_nat_nz; lia
                  | reflexivity ]) ].

Section TrapzFacts.
Variable tf : Q.
Variable N : nat.
Variables bx bv bu : nat.
Variable tg : list Q.

Let g : Trapz.globals :=
  {| Trapz.X := vcol bx (N + 1); Trapz.V := vcol bv (N + 1);
     Trapz.U := vcol bu (N + 1); Trapz.t := tg |}.

Lemma segment_run i J o :
  (i < N)%nat ->
  exists J' o', Trapz.segment tf N g (Z.of_nat i) J o = Ok (J', o')
    /\ constraints o' = constraints o ++ trapz_pair tf N bx bv bu i.
Proof.
  intros H. unfold Trapz.segment, g. cbn [Trapz.X Trapz.V Trapz.U].
  replace (Z.of_nat i + 1)%Z with (Z.of_nat (i + 1)) by lia.
  repeat mstep.
  do 2 eexists. split; [reflexivity|]. simpl.
  rewrite <- app_assoc. reflexivity.
Qed.

Lemma segments_run len : forall start J o,
  (start + len <= N)%nat ->
  exists J' o',
    for_ (map Z.of_nat (seq start len)) (Trapz.segment tf N g) J o = Ok (J', o')
    /\ constraints o' =
       constraints o ++ flat_map (trapz_pair tf N bx bv bu) (seq start len).
Proof.
  induction len as [|len IH]; intros start J o H.
  - simpl. do 2 eexists. split; [reflexivity|]. simpl. now rewrite app_nil_r.
  - destruct (@segment_run start J o ltac:(lia)) as (J1 & o1 & E1 & C1).
    destruct (IH (S start) J1 o1 ltac:(lia)) as (J2 & o2 & E2 & C2).
    exists J2, o2. split.
    + cbn [seq map for_]. rewrite (bind_ok _ _ _ E1). exact E2.
    + rewrite C2, C1, <- app_assoc. reflexivity.
Qed.

Lemma collocation_run o :
  exists J o', Trapz.collocation tf N g o = Ok (J, o')
    /\ constraints o' =
       constraints o ++ flat_map (trapz_pair tf N bx bv bu) (seq 0 N).
Proof.
  destruct (@segments_run N 0%nat (Const 0) o ltac:(lia)) as (J & o1 & E & C).
  exists J. eexists. split.
  - unfold Trapz.collocation, range. rewrite (bind_ok _ _ _ E). reflexivity.
  - exact C.
Qed.

Lemma boundary_run o :
  exists o', Trapz.boundary_constraints N g o = Ok (tt, o')
    /\ constraints o' =
       constraints o ++ [EqC [Var (bx + 0)] [Const 0]; EqC [Var (bx + N)] [Const 1];
                          EqC [Var (bv + 0)] [Const 0]; EqC [Var (bv + N)] [Const 0]].
Proof.
  unfold Trapz.boundary_constraints, g. cbn [Trapz.X Trapz.V Trapz.U].
  change 0%Z with (Z.of_nat 0).
  repeat mstep. unfold lift, equals; simpl.
  eexists. split; [reflexivity|]. simpl.
  rewrite <- !app_assoc. reflexivity.
Qed.

Lemma initial_guess_run o :
  length tg = (N + 1)%nat ->
  exists o', Trapz.initial_guess g o = Ok (tt, o')
    /\ constraints o' = constraints o.
Proof.
  intros L. unfold Trapz.initial_guess, g, set_initial. cbn [Trapz.X Trapz.V Trapz.U Trapz.t].
  unfold shape, shape_eqb, colvec, vcol. simpl. rewrite L, !Nat.eqb_refl. simpl.
  eexists. split; reflexivity.
Qed.

End TrapzFacts.

Lemma decision_variables_run tf N :
  exists o, Trapz.decision_variables tf N Opti_new = Ok (trapz_globals tf N, o)
    /\ constraints o = [].
Proof.
  unfold Trapz.decision_variables.
  rewrite !bind_variable_col. cbn [nvars Opti_new].
  replace (0 + (N + 1) * 1)%nat with (N + 1)%nat by lia.
  replace (N + 1 + (N + 1) * 1)%nat with (2 * (N + 1))%nat by lia.
  eexists. split; reflexivity.
Qed.

Lemma trapz_build_run tf N :
  exists J o,
    Trapz.build tf N = Ok (trapz_globals tf N, J, o)
    /\ constraints o =
       trapz_boundary N
       ++ flat_map (trapz_pair tf N 0 (N + 1) (2 * (N + 1))) (seq 0 N).
Proof.
  destruct (decision_variables_run tf N) as (o1 & E1 & C1).
  destruct (boundary_run N 0 (N + 1) (2 * (N + 1)) (linspace 0 tf (N + 1)) o1)
    as (o2 & E2 & C2).
  destruct (collocation_run tf N 0 (N + 1) (2 * (N + 1)) (linspace 0 tf (N + 1)) o2)
    as (J & o3 & E3 & C3).
  destruct (initial_guess_run N 0 (N + 1) (2 * (N + 1)) (linspace 0 tf (N + 1)) o3
              (linspace_length 0 tf (N + 1)))
    as (o4 & E4 & C4).
  exists J, o4. split.
  - unfold Trapz.build, Trapz.cells.
    rewrite (bind_ok _ _ _ E1). fold (trapz_globals tf N) in E2, E3, E4.
    rewrite (bind_ok _ _ _ E2), (bind_ok _ _ _ E3), (bind_ok _ _ _ E4).
    reflexivity.
  - rewrite C4, C3, C2, C1. unfold trapz_boundary.
    rewrite !Nat.add_0_r. reflexivity.
Qed.

(** C3.  Trapezoidal transcription, [N] segments, horizon [tf]: after the
    four boundary constraints the problem has exactly two constraints for
    every pair of adjacent grid points [(i, i+1)], [i] in [0..N-1], both
    equalities: [x[i+1] - x[i] = (h/2) (v[i+1] + v[i])] and
    [v[i+1] - v[i] = (h/2) (u[i+1] + u[i])] with [h = tf/N]. *)
Theorem trapz_collocation_constraints (tf : Q) (N : nat) :
  exists g J o,
    Trapz.build tf N = Ok (g, J, o) /\
    length (constraints o) = (4 + 2 * N)%nat /\
    forall i, (i < N)%nat ->
      exists x_left x_right v_left v_right u_left u_right cx cv,
        elem (Trapz.X g) (Z.of_nat i) = Ok x_left /\
        elem (Trapz.X g) (Z.of_nat i + 1) = Ok x_right /\
        elem (Trapz.V g) (Z.of_nat i) = Ok v_left /\
        elem (Trapz.V g) (Z.of_nat i + 1) = Ok v_right /\
        elem (Trapz.U g) (Z.of_nat i) = Ok u_left /\
        elem (Trapz.U g) (Z.of_nat i + 1) = Ok u_right /\
        nth_error (constraints o) (4 + 2 * i) = Some cx /\
        nth_error (constraints o) (4 + 2 * i + 1) = Some cv /\
        is_bound cx = false /\ is_bound cv = false /\
        forall r : env,
          let h := (tf / float_of_nat N)%Q in
          (sat r cx <->
           eval r x_right - eval r x_left == (h / 2) * (eval r v_right + eval r v_left))%Q /\
          (sat r cv <->
           eval r v_right - eval r v_left == (h / 2) * (eval r u_right + eval r u_left))%Q.
Proof.
  destruct (trapz_build_run tf N) as (J & o & E & C).
  unfold trapz_pair in C.
  exists (trapz_globals tf N), J, o. split; [exact E|]. split.
  - rewrite C, length_app, length_flat_map_pair, length_seq. reflexivity.
  - intros i Hi.
    replace (Z.of_nat i + 1)%Z with (Z.of_nat (i + 1)) by lia.
    pose proof (@nth_error_flat_map_pair _
                  (trapz_x_constr tf N 0 (N + 1))
                  (trapz_x_constr tf N (N + 1) (2 * (N + 1))) N 0 i Hi) as [P1 P2].
    do 6 eexists. exists (trapz_x_constr tf N 0 (N + 1) i),
                         (trapz_x_constr tf N (N + 1) (2 * (N + 1)) i).
    cbn [trapz_globals Trapz.X Trapz.V Trapz.U].
    repeat (split; [apply elem_vcol; lia|]).
    split; [|split].
    + rewrite C. change (4 + 2 * i)%nat with (length (trapz_boundary N) + 2 * i)%nat.
      rewrite nth_error_app2 by lia.
      replace (length (trapz_boundary N) + 2 * i - length (trapz_boundary N))%nat
        with (2 * i)%nat by lia.
      exact P1.
    + rewrite C. change (4 + 2 * i + 1)%nat with (length (trapz_boundary N) + 2 * i + 1)%nat.
      rewrite nth_error_app2 by lia.
      replace (length (trapz_boundary N) + 2 * i + 1 - length (trapz_boundary N))%nat
        with (2 * i + 1)%nat by lia.
      exact P2.
    + split; [reflexivity|]. split; [reflexivity|].
      intros r. unfold trapz_x_constr. rewrite !sat_eq1. cbn [eval].
      assert (NZ : ~ (float_of_nat N == 0)%Q) by (apply float_of_nat_nz; lia).
      rewrite (half_step tf NZ). split; reflexivity.
Qed.

(* ------------------------------------------------------------------ *)
(** ** The time grid in binary64 *)















(** The samples of [np.linspace(0, tf, n+1)] under a rounding [rnd] that
    keeps zero and changes a number of at least [lo] by at most the
    fraction [u] of itself. *)
Section RoundedGrid.
Variable rnd : Q -> Q.
Variables u lo : Q.
Hypothesis rnd_zero : forall x, (x == 0)%Q -> (rnd x == 0)%Q.
Hypothesis rnd_relative :
  forall x, (lo <= x)%Q -> (x * (1 - u) <= rnd x)%Q /\ (rnd x <= x * (1 + u))%Q.
Hypothesis u_nonneg : (0 <= u)%Q.
Hypothesis u_small : (u <= 1 # 16)%Q.
Hypothesis lo_pos : (0 < lo)%Q.

Variable tf : Q.
Variable n : nat.
Hypothesis n_pos : (1 <= n)%nat.
Hypothesis in_range : (2 * lo <= tf / float_of_nat n)%Q.

Let h : Q := (tf / float_of_nat n)%Q.
Let step : Q := rnd (rnd (tf - 0) / float_of_nat n)%Q.
Let A : Q := ((1 - u) * (1 - u) * (1 - u) * (1 - u))%Q.
Let B : Q := ((1 + u) * (1 + u) * (1 + u) * (1 + u))%Q.














Hypothesis not_too_many : (float_of_nat n * (B - A) < A)%Q.


End RoundedGrid.


(* ------------------------------------------------------------------ *)
(** ** Grids and decision variables *)

Lemma map_seq_shift {A} (f : nat -> A) c n :
  map (fun i => f (c + i)%nat) (seq 0 n) = map f (seq c n).
Proof.
  rewrite <- (map_map (fun i => (c + i)%nat) f). f_equal.
  revert c. induction n as [|n IH]; intros c; [reflexivity|].
  cbn [seq map]. rewrite Nat.add_0_r. f_equal.
  rewrite <- seq_shift, map_map.
  rewrite <- (IH (S c)). apply map_ext. intros i. lia.
Qed.

(** The entries of a matrix of decision variables are the variables
    [base, base+1, ...] in order. *)
Lemma entries_vmat base n m :
  entries (vmat base n m) = map (fun p => Var (base + p)) (seq 0 (m * n)).
Proof.
  unfold entries. cbn [vmat cols]. induction m as [|m IH]; [reflexivity|].
  rewrite seq_S, map_app, concat_app, IH. cbn [map concat Nat.add].
  rewrite app_nil_r.
  replace (S m * n)%nat with (m * n + n)%nat by lia.
  rewrite seq_app, map_app. f_equal. cbn [Nat.add].
  rewrite <- (map_seq_shift (fun p => Var (base + p)) (m * n) n).
  apply map_ext. intros i. f_equal. lia.
Qed.

Lemma entries_vcol_list base n :
  entries (vcol base n) = map (fun p => Var (base + p)) (seq 0 n).
Proof.
  unfold entries. cbn [vcol cols concat]. rewrite app_nil_r.
  apply map_ext. intros i. f_equal. lia.
Qed.

Lemma trapz_variables_full tf N :
  Trapz.decision_variables tf N Opti_new
  = Ok (trapz_globals tf N,
        {| nvars := (2 * (N + 1) + (N + 1) * 1)%nat; constraints := [];
           objective := None; initial := [] |}).
Proof.
  unfold Trapz.decision_variables.
  rewrite !bind_variable_col. cbn [nvars constraints objective initial Opti_new].
  replace (0 + (N + 1) * 1)%nat with (N + 1)%nat by lia.
  replace (N + 1 + (N + 1) * 1)%nat with (2 * (N + 1))%nat by lia.
  reflexivity.
Qed.

Lemma hs_decision_variables_full tf N nx nu :
  HermiteSimpson.decision_variables tf N nx nu Opti_new
  = Ok (hs_grid tf N nx nu,
        {| nvars := (nx * (2 * N + 1) + nu * (2 * N + 1))%nat; constraints := [];
           objective := None; initial := [] |}).
Proof.
  unfold HermiteSimpson.decision_variables. rewrite !bind_variable.
  cbn [nvars Opti_new]. rewrite Nat.add_0_l. reflexivity.
Qed.








Lemma trapz_boundary_adds tf N :
  adds (Trapz.boundary_constraints N (trapz_globals tf N)) (trapz_boundary N).
Proof.
  intros o.
  destruct (boundary_run N 0 (N + 1) (2 * (N + 1)) (linspace 0 tf (N + 1)) o)
    as (o' & E & C).
  exists o'. split; [exact E|]. rewrite C. unfold trapz_boundary.
  now rewrite !Nat.add_0_r.
Qed.

Lemma trapz_boundary_pins tf N :
  pins_ends (trapz_boundary N)
    (fun j => [nth j (entries (Trapz.X (trapz_globals tf N))) (Const 0);
               nth j (entries (Trapz.V (trapz_globals tf N))) (Const 0)])
    N [0; 0]%Q [1; 0]%Q.
Proof.
  cbn [trapz_globals Trapz.X Trapz.V].
  split; [repeat constructor|]. split.
  - intros r. rewrite !nth_entries_vcol by lia. cbn [Nat.add].
    unfold trapz_boundary. split.
    + intros H. inversion_clear H as [|? ? H1 H']. inversion_clear H' as [|? ? H2 H''].
      inversion_clear H'' as [|? ? H3 H''']. inversion_clear H''' as [|? ? H4 _].
      apply sat_eq1 in H1, H2, H3, H4. cbn [eval] in *.
      rewrite Nat.add_0_r.
      split; repeat constructor; assumption.
    + intros [Hi Hf].
      inversion_clear Hi as [|? ? ? ? H1 Hi']. inversion_clear Hi' as [|? ? ? ? H3 _].
      inversion_clear Hf as [|? ? ? ? H2 Hf']. inversion_clear Hf' as [|? ? ? ? H4 _].
      cbn [eval] in *. rewrite Nat.add_0_r in H3.
      repeat constructor; assumption.
  - intros j k Hj H0 HN Hin.
    rewrite !nth_entries_vcol in Hin by lia.
    cbn [Nat.add] in Hin. cbn. intros Hk.
    destruct Hin as [Hin|[Hin|[]]]; injection Hin as <-; lia.
Qed.

(* ------------------------------------------------------------------ *)
(** ** The Hermite-Simpson cells *)

Lemma hs_decision_variables_run tf N nx nu :
  exists o, HermiteSimpson.decision_variables tf N nx nu Opti_new
            = Ok (hs_grid tf N nx nu, o)
    /\ constraints o = [] /\ objective o = None.
Proof.
  unfold HermiteSimpson.decision_variables. rewrite !bind_variable.
  cbn [nvars Opti_new]. rewrite Nat.add_0_l.
  eexists. split; [reflexivity|]. split; reflexivity.
Qed.

Lemma simpson_coefficients_run N :
  HermiteSimpson.simpson_coefficients N = Ok [simpson_row N].
Proof.
  unfold HermiteSimpson.simpson_coefficients, simpson_row.
  set (raw := map _ (range (2 * N + 1))).
  assert (L : length raw = (2 * N + 1)%nat)
    by (unfold raw, range; rewrite !length_map, length_seq; reflexivity).
  cbn [bind ret Monad_result].
  change (getitem [raw] 0) with (Ok raw : result (list Z)). cbv beta iota.
  unfold setitem at 1. change 0%Z with (Z.of_nat 0). rewrite py_index_nat by lia.
  cbv beta iota.
  change (setitem [raw] (Z.of_nat 0) (update raw 0 1%Z)) with (Ok [update raw 0 1%Z]).
  cbv beta iota.
  change (getitem [update raw 0 1%Z] (Z.of_nat 0)) with (Ok (update raw 0 1%Z)).
  cbv beta iota.
  unfold setitem at 1. rewrite py_index_last by (rewrite length_update; lia).
  rewrite length_update, L. reflexivity.
Qed.

Lemma length_simpson_row N : length (simpson_row N) = (2 * N + 1)%nat.
Proof.
  unfold simpson_row, range. rewrite !length_update, !length_map, length_seq.
  reflexivity.
Qed.

Lemma times_row bu m :
  times (vmat bu 1 m) (vmat bu 1 m)
  = Ok {| nrow := 1; ncol := m;
          cols := map (fun j => [Mul (Var (bu + j * 1 + 0)) (Var (bu + j * 1 + 0))])
                      (seq 0 m) |}.
Proof.
  unfold times, shape, shape_eqb. cbn [vmat nrow ncol cols fst snd].
  rewrite !Nat.eqb_refl. cbn [andb]. rewrite combine_map_same, map_map.
  reflexivity.
Qed.

Lemma as_MX_row (w : list Z) :
  HermiteSimpson.as_MX [w]
  = {| nrow := 1; ncol := length w;
       cols := map (fun j => [Const (inject_Z (nth j w 0%Z))]) (seq 0 (length w)) |}.
Proof.
  unfold HermiteSimpson.as_MX, mmap, of_rows. cbn [nrow ncol cols length hd].
  rewrite map_map. reflexivity.
Qed.

Lemma objective_run N X0 t0 bu o :
  HermiteSimpson.objective N
    {| HermiteSimpson.X := X0; HermiteSimpson.U := vmat bu 1 (2 * N + 1);
       HermiteSimpson.t := t0 |} o
  = Ok (([simpson_row N], simpson_J N bu),
        {| nvars := nvars o; constraints := constraints o;
           objective := Some (simpson_J N bu); initial := initial o |}).
Proof.
  unfold HermiteSimpson.objective. cbn [HermiteSimpson.U].
  rewrite (bind_lift _ _ (simpson_coefficients_run N)).
  rewrite (bind_lift _ _ (times_row bu (2 * N + 1))).
  erewrite bind_lift; [rewrite bind_minimize; reflexivity|].
  rewrite as_MX_row, length_simpson_row.
  unfold dot, shape, shape_eqb, entries. cbn [nrow ncol cols fst snd].
  rewrite !Nat.eqb_refl. cbn [andb].
  rewrite !concat_map_singleton, combine_map_same, map_map. reflexivity.
Qed.

Section MidpointLoop.
Variables (N nx nu bx bu : nat) (t0 : list Q) (f : Function).
Hypothesis f_dims : dims (f_in f) = [nx; nu].

Let g : HermiteSimpson.grid :=
  {| HermiteSimpson.X := vmat bx nx (2 * N + 1);
     HermiteSimpson.U := vmat bu nu (2 * N + 1);
     HermiteSimpson.t := t0 |}.

(** At the midpoint of segment [k] the three columns read are
    [2k], [2k+1] and [2k+2]. *)
Lemma midpoint_reads_run k o :
  (k < N)%nat ->
  exists l,
    HermiteSimpson.midpoint_reads g f (Z.of_nat (2 * k + 1)) o = Ok (l, o)
    /\ HermiteSimpson.x_left l = vmat_col bx nx (2 * k)
    /\ HermiteSimpson.x_mid l = vmat_col bx nx (2 * k + 1)
    /\ HermiteSimpson.x_right l = vmat_col bx nx (2 * k + 2)
    /\ HermiteSimpson.u_left l = vmat_col bu nu (2 * k)
    /\ HermiteSimpson.u_mid l = vmat_col bu nu (2 * k + 1)
    /\ HermiteSimpson.u_right l = vmat_col bu nu (2 * k + 2)
    /\ call f [HermiteSimpson.x_left l; HermiteSimpson.u_left l]
       = Ok (HermiteSimpson.f_left l)
    /\ call f [HermiteSimpson.x_mid l; HermiteSimpson.u_mid l]
       = Ok (HermiteSimpson.f_mid l)
    /\ call f [HermiteSimpson.x_right l; HermiteSimpson.u_right l]
       = Ok (HermiteSimpson.f_right l).
Proof.
  intros H. unfold HermiteSimpson.midpoint_reads, g.
  cbn [HermiteSimpson.X HermiteSimpson.U].
  replace (Z.of_nat (2 * k + 1) - 1)%Z with (Z.of_nat (2 * k)) by lia.
  replace (Z.of_nat (2 * k + 1) + 1)%Z with (Z.of_nat (2 * k + 2)) by lia.
  assert (H0 : (2 * k < 2 * N + 1)%nat) by lia.
  assert (H1 : (2 * k + 1 < 2 * N + 1)%nat) by lia.
  assert (H2 : (2 * k + 2 < 2 * N + 1)%nat) by lia.
  rewrite (bind_lift _ _ (col_vmat bx nx H0)), (bind_lift _ _ (col_vmat bx nx H1)),
          (bind_lift _ _ (col_vmat bx nx H2)), (bind_lift _ _ (col_vmat bu nu H0)),
          (bind_lift _ _ (col_vmat bu nu H1)), (bind_lift _ _ (col_vmat bu nu H2)).
  destruct (@call_ok f (vmat_col bx nx (2 * k)) (vmat_col bu nu (2 * k)) nx nu f_dims
              (length_vmat_col _ _ _) (length_vmat_col _ _ _)) as (y1 & E1).
  destruct (@call_ok f (vmat_col bx nx (2 * k + 1)) (vmat_col bu nu (2 * k + 1)) nx nu f_dims
              (length_vmat_col _ _ _) (length_vmat_col _ _ _)) as (y2 & E2).
  destruct (@call_ok f (vmat_col bx nx (2 * k + 2)) (vmat_col bu nu (2 * k + 2)) nx nu f_dims
              (length_vmat_col _ _ _) (length_vmat_col _ _ _)) as (y3 & E3).
  rewrite (bind_lift _ _ E1), (bind_lift _ _ E2), (bind_lift _ _ E3).
  eexists. split; [reflexivity|].
  cbn [HermiteSimpson.x_left HermiteSimpson.x_mid HermiteSimpson.x_right
       HermiteSimpson.u_left HermiteSimpson.u_mid HermiteSimpson.u_right
       HermiteSimpson.f_left HermiteSimpson.f_mid HermiteSimpson.f_right].
  repeat split; assumption.
Qed.

Lemma midpoint_run k o :
  (k < N)%nat ->
  HermiteSimpson.midpoint g f (Z.of_nat (2 * k + 1)) o = Ok (tt, o).
Proof.
  intros H. destruct (midpoint_reads_run k o H) as (l & E & _).
  unfold HermiteSimpson.midpoint. now rewrite (bind_ok _ _ _ E).
Qed.



End MidpointLoop.

(** The guarded loop over [range(2N+1)] runs its body at the midpoint
    indices, once each and in order, and nowhere else. *)
Lemma odd_loop (b : Z -> M unit) N : forall o,
  for_ (range (2 * N + 1))
       (fun i _ => if negb (i mod 2 =? 0)%Z then b i else ret tt) tt o
  = for_ (midpoints N) (fun i _ => b i) tt o.
Proof.
  induction N as [|N IH]; intros o; [reflexivity|].
  unfold range, midpoints in *.
  replace (2 * S N + 1)%nat with ((2 * N + 1) + 2)%nat by lia.
  replace (S N) with (N + 1)%nat by lia.
  rewrite (seq_app (2 * N + 1) 2), (seq_app N 1), !map_app, !for_app, IH.
  destruct (for_ _ _ tt o) as [[[] o1]|e]; [|reflexivity].
  cbn [seq map for_ bind ret Monad_M Nat.add].
  replace (Z.of_nat (2 * N + 1) mod 2 =? 0)%Z with false.
  2:{ symmetry. apply Z.eqb_neq. rewrite Nat2Z.inj_add, Nat2Z.inj_mul.
      change (Z.of_nat 2) with 2%Z. change (Z.of_nat 1) with 1%Z.
      rewrite Z.add_comm, Z.mul_comm, Z.mod_add by lia. discriminate. }
  cbn [negb].
  replace (Z.of_nat (S (2 * N + 1)) mod 2 =? 0)%Z with true.
  2:{ symmetry. apply Z.eqb_eq.
      replace (Z.of_nat (S (2 * N + 1))) with (0 + (Z.of_nat N + 1) * 2)%Z by lia.
      now rewrite Z.mod_add by lia. }
  cbn [negb].
  destruct (b (Z.of_nat (2 * N + 1)) o1) as [[[] o2]|e]; reflexivity.
Qed.

Lemma odd_indices N :
  filter (fun i => negb (i mod 2 =? 0)%Z) (range (2 * N + 1)) = midpoints N.
Proof.
  induction N as [|N IH]; [reflexivity|].
  unfold range, midpoints in *.
  replace (2 * S N + 1)%nat with ((2 * N + 1) + 2)%nat by lia.
  replace (S N) with (N + 1)%nat by lia.
  rewrite (seq_app (2 * N + 1) 2), (seq_app N 1), !map_app, filter_app, IH.
  f_equal. cbn [seq map filter Nat.add].
  replace (Z.of_nat (2 * N + 1) mod 2 =? 0)%Z with false
    by (symmetry; apply Z.eqb_neq; Z.div_mod_to_equations; lia).
  replace (Z.of_nat (S (2 * N + 1)) mod 2 =? 0)%Z with true
    by (symmetry; apply Z.eqb_eq; Z.div_mod_to_equations; lia).
  reflexivity.
Qed.

Lemma dynamics_constraints_run N nx nu bx bu t0 f o :
  dims (f_in f) = [nx; nu] ->
  HermiteSimpson.dynamics_constraints N
    {| HermiteSimpson.X := vmat bx nx (2 * N + 1);
       HermiteSimpson.U := vmat bu nu (2 * N + 1);
       HermiteSimpson.t := t0 |} f o
  = Ok (tt, o).
Proof.
  intros Hf. unfold HermiteSimpson.dynamics_constraints, HermiteSimpson.midpoint_loop.
  rewrite odd_loop. apply for_unit_ok.
  intros i Hi. unfold midpoints in Hi. apply in_map_iff in Hi.
  destruct Hi as (k & <- & Hk). apply in_seq in Hk.
  apply midpoint_run; [assumption|lia].
Qed.

Section EndColumns.
Variables (tf : Q) (N nx nu : nat) (x0 xf : list Q).
Hypothesis len_x0 : length x0 = nx.
Hypothesis len_xf : length xf = nx.

(** Pinning the first and the last column of [X]. *)
Lemma pin_ends_run o :
  (x_first <- lift (col (HermiteSimpson.X (hs_grid tf N nx nu)) 0);;
   c <- lift (equals x_first (map Const x0));; subject_to c;;
   x_last <- lift (col (HermiteSimpson.X (hs_grid tf N nx nu)) (-1));;
   c <- lift (equals x_last (map Const xf));; subject_to c) o
  = Ok (tt, {| nvars := nvars o;
               constraints := constraints o ++ hs_boundary N nx x0 xf;
               objective := objective o; initial := initial o |}).
Proof.
  cbn [hs_grid HermiteSimpson.X].
  assert (H0 : (0 < 2 * N + 1)%nat) by lia.
  change 0%Z with (Z.of_nat 0).
  rewrite (bind_lift _ _ (col_vmat 0 nx H0)).
  assert (E0 : equals (vmat_col 0 nx 0) (map Const x0)
               = Ok (EqC (vmat_col 0 nx 0) (map Const x0))).
  { unfold equals. now rewrite length_vmat_col, length_map, len_x0, Nat.eqb_refl. }
  rewrite (bind_lift _ _ E0), bind_subject_to.
  rewrite (bind_lift _ _ (col_vmat_last 0 nx H0)).
  assert (E1 : equals (vmat_col 0 nx (2 * N + 1 - 1)) (map Const xf)
               = Ok (EqC (vmat_col 0 nx (2 * N + 1 - 1)) (map Const xf))).
  { unfold equals. now rewrite length_vmat_col, length_map, len_xf, Nat.eqb_refl. }
  rewrite (bind_lift _ _ E1).
  unfold subject_to, hs_boundary. cbn [nvars constraints objective initial].
  now rewrite <- app_assoc.
Qed.
End EndColumns.

Lemma blockmove_dynamics :
  exists f, BlockMove.derive_dynamics = Ok f
    /\ dims (f_in f) = [BlockMove.nx; BlockMove.nu].
Proof. eexists. split; reflexivity. Qed.

Lemma cartpole_dynamics :
  exists f, CartPole.derive_dynamics = Ok f
    /\ dims (f_in f) = [CartPole.nx; CartPole.nu].
Proof. eexists. split; reflexivity. Qed.

Lemma blockmove_build_run tf N :
  exists f o,
    BlockMove.derive_dynamics = Ok f
    /\ BlockMove.build tf N
       = Ok ({| BlockMove.g_grid := hs_grid tf N 2 1; BlockMove.g_f := f;
                BlockMove.g_simp := [simpson_row N];
                BlockMove.g_J := simpson_J N (2 * (2 * N + 1)) |}, o)
    /\ constraints o = hs_boundary N 2 [0; 0] [1; 0]
    /\ objective o = Some (simpson_J N (2 * (2 * N + 1))).
Proof.
  destruct blockmove_dynamics as (f & Ef & Df). exists f.
  destruct (hs_decision_variables_run tf N 2 1) as (o1 & E1 & C1 & J1).
  pose proof (objective_run N (vmat 0 2 (2 * N + 1)) (linspace 0 tf (2 * N + 1))
                (2 * (2 * N + 1)) o1) as E2.
  fold (hs_grid tf N 2 1) in E2.
  set (o2 := {| nvars := nvars o1; constraints := constraints o1;
                objective := Some (simpson_J N (2 * (2 * N + 1)));
                initial := initial o1 |}) in E2.
  pose proof (@pin_ends_run tf N 2 1 [0; 0]%Q [1; 0]%Q eq_refl eq_refl o2) as E3.
  set (o3 := {| nvars := nvars o2;
                constraints := constraints o2 ++ hs_boundary N 2 [0; 0] [1; 0];
                objective := objective o2; initial := initial o2 |}) in E3.
  pose proof (@dynamics_constraints_run N 2 1 0 (2 * (2 * N + 1))
                (linspace 0 tf (2 * N + 1)) f o3 Df) as E4.
  fold (hs_grid tf N 2 1) in E4.
  destruct (@set_initial_ok (HermiteSimpson.X (hs_grid tf N 2 1))
              (of_rows 0%Q [HermiteSimpson.t (hs_grid tf N 2 1);
                            np_full (length (HermiteSimpson.t (hs_grid tf N 2 1))) 1%Q]) o3)
    as (o4 & E5 & C5 & J5).
  { unfold shape, of_rows. cbn [hs_grid HermiteSimpson.X HermiteSimpson.t vmat nrow ncol hd length].
    now rewrite linspace_length. }
  destruct (set_initial_zeros (HermiteSimpson.U (hs_grid tf N 2 1)) o4)
    as (o5 & E6 & C6 & J6).
  exists o5. split; [exact Ef|]. split; [|split].
  - unfold BlockMove.build, BlockMove.cell.
    rewrite (bind_ok _ _ _ E1), (bind_lift _ _ Ef), (bind_ok _ _ _ E2).
    unfold BlockMove.boundary_constraints.
    cbn [map] in E3.
    assert (E7 : BlockMove.initial_guess (hs_grid tf N 2 1) o3 = Ok (tt, o5)).
    { unfold BlockMove.initial_guess. rewrite (bind_ok _ _ _ E5). exact E6. }
    rewrite (bind_ok _ _ _ E3), (bind_ok _ _ _ E4), (bind_ok _ _ _ E7).
    reflexivity.
  - rewrite C6, C5. cbn [o3 o2 constraints]. now rewrite C1.
  - rewrite J6, J5. reflexivity.
Qed.

Lemma cartpole_build_run tf N :
  exists f o,
    CartPole.derive_dynamics = Ok f
    /\ CartPole.build tf N
       = Ok ({| CartPole.g_grid := hs_grid tf N 4 1; CartPole.g_f := f;
                CartPole.g_simp := [simpson_row N];
                CartPole.g_J := simpson_J N (4 * (2 * N + 1)) |}, o)
    /\ constraints o = hs_boundary N 4 CartPole.x_init CartPole.x_final
    /\ objective o = Some (simpson_J N (4 * (2 * N + 1))).
Proof.
  destruct cartpole_dynamics as (f & Ef & Df). exists f.
  change CartPole.nx with 4%nat in Df. change CartPole.nu with 1%nat in Df.
  destruct (hs_decision_variables_run tf N 4 1) as (o1 & E1 & C1 & J1).
  pose proof (objective_run N (vmat 0 4 (2 * N + 1)) (linspace 0 tf (2 * N + 1))
                (4 * (2 * N + 1)) o1) as E2.
  fold (hs_grid tf N 4 1) in E2.
  set (o2 := {| nvars := nvars o1; constraints := constraints o1;
                objective := Some (simpson_J N (4 * (2 * N + 1)));
                initial := initial o1 |}) in E2.
  pose proof (@pin_ends_run tf N 4 1 CartPole.x_init CartPole.x_final
                eq_refl eq_refl o2) as E3.
  set (o3 := {| nvars := nvars o2;
                constraints := constraints o2
                               ++ hs_boundary N 4 CartPole.x_init CartPole.x_final;
                objective := objective o2; initial := initial o2 |}) in E3.
  pose proof (@dynamics_constraints_run N 4 1 0 (4 * (2 * N + 1))
                (linspace 0 tf (2 * N + 1)) f o3 Df) as E4.
  fold (hs_grid tf N 4 1) in E4.
  destruct (@set_initial_ok (HermiteSimpson.X (hs_grid tf N 4 1))
              (of_rows 0%Q (linspace_T CartPole.x_init CartPole.x_final (2 * N + 1))) o3)
    as (o4 & E5 & C5 & J5).
  { unfold shape, of_rows. cbn [hs_grid HermiteSimpson.X vmat nrow ncol].
    cbn [linspace_T CartPole.x_init CartPole.x_final combine map hd length fst snd].
    now rewrite linspace_length. }
  destruct (set_initial_zeros (HermiteSimpson.U (hs_grid tf N 4 1)) o4)
    as (o5 & E6 & C6 & J6).
  assert (E7 : CartPole.initial_guess N (hs_grid tf N 4 1) o3 = Ok (tt, o5)).
  { unfold CartPole.initial_guess. rewrite (bind_ok _ _ _ E5). exact E6. }
  exists o5. split; [exact Ef|]. split; [|split].
  - unfold CartPole.build, CartPole.cell.
    change CartPole.nx with 4%nat. change CartPole.nu with 1%nat.
    rewrite (bind_ok _ _ _ E1), (bind_lift _ _ Ef), (bind_ok _ _ _ E2).
    unfold CartPole.boundary_constraints.
    rewrite (bind_ok _ _ _ E3), (bind_ok _ _ _ E4), (bind_ok _ _ _ E7).
    reflexivity.
  - rewrite C6, C5. cbn [o3 o2 constraints]. now rewrite C1.
  - rewrite J6, J5. reflexivity.
Qed.



(* ------------------------------------------------------------------ *)
(** ** The Simpson coefficient vector *)

Lemma raw_weight_nth n i :
  (i < n)%nat ->
  nth i (map (fun i => 4 * (i mod 2) + 2 * ((i + 1) mod 2))%Z (range n)) 0%Z
  = (4 * (Z.of_nat i mod 2) + 2 * ((Z.of_nat i + 1) mod 2))%Z.
Proof.
  intros H. unfold range. rewrite map_map.
  rewrite (nth_indep _ 0%Z
             ((fun k => 4 * (Z.of_nat k mod 2) + 2 * ((Z.of_nat k + 1) mod 2))%Z 0%nat))
    by (rewrite length_map, length_seq; exact H).
  rewrite (map_nth (fun k => 4 * (Z.of_nat k mod 2) + 2 * ((Z.of_nat k + 1) mod 2))%Z).
  now rewrite seq_nth by exact H.
Qed.

Lemma simpson_row_first N : nth 0 (simpson_row N) 0%Z = 1%Z.
Proof.
  unfold simpson_row. destruct N as [|N].
  - reflexivity.
  - rewrite nth_update_other by lia. apply nth_update_same.
    unfold range. rewrite !length_map, length_seq. lia.
Qed.

Lemma simpson_row_last N : nth (2 * N) (simpson_row N) 0%Z = 1%Z.
Proof.
  unfold simpson_row. replace (2 * N + 1 - 1)%nat with (2 * N)%nat by lia.
  apply nth_update_same. unfold range.
  rewrite length_update, !length_map, length_seq. lia.
Qed.

Lemma simpson_row_inner N i :
  (0 < i < 2 * N)%nat ->
  nth i (simpson_row N) 0%Z
  = (4 * (Z.of_nat i mod 2) + 2 * ((Z.of_nat i + 1) mod 2))%Z.
Proof.
  intros H. unfold simpson_row.
  rewrite !nth_update_other by lia. apply raw_weight_nth. lia.
Qed.

Lemma odd_weight i :
  Nat.odd i = true -> (4 * (Z.of_nat i mod 2) + 2 * ((Z.of_nat i + 1) mod 2))%Z = 4%Z.
Proof.
  intros H. apply Nat.odd_spec in H. destruct H as (k & ->).
  Z.div_mod_to_equations. lia.
Qed.

Lemma even_weight i :
  Nat.even i = true -> (4 * (Z.of_nat i mod 2) + 2 * ((Z.of_nat i + 1) mod 2))%Z = 2%Z.
Proof.
  intros H. apply Nat.even_spec in H. destruct H as (k & ->).
  Z.div_mod_to_equations. lia.
Qed.

(** C6.  The Simpson quadrature weight vector built over [2N+1] points has
    first and last entry 1, every other odd-indexed entry 4 and every other
    even-indexed entry 2; both Hermite-Simpson cells bind it to [simp].
    (It holds for every [N], so in particular for every [N >= 1].) *)
Theorem simpson_weights (N : nat) :
  exists w,
    HermiteSimpson.simpson_coefficients N = Ok [w]
    /\ length w = (2 * N + 1)%nat
    /\ nth 0 w 0%Z = 1%Z
    /\ nth (2 * N) w 0%Z = 1%Z
    /\ (forall i, (0 < i < 2 * N)%nat -> Nat.odd i = true -> nth i w 0%Z = 4%Z)
    /\ (forall i, (0 < i < 2 * N)%nat -> Nat.even i = true -> nth i w 0%Z = 2%Z)
    /\ (forall tf, exists G o,
          BlockMove.build tf N = Ok (G, o) /\ BlockMove.g_simp G = [w])
    /\ (forall tf, exists G o,
          CartPole.build tf N = Ok (G, o) /\ CartPole.g_simp G = [w]).
Proof.
  exists (simpson_row N).
  split; [apply simpson_coefficients_run|].
  split; [apply length_simpson_row|].
  split; [apply simpson_row_first|].
  split; [apply simpson_row_last|].
  split; [|split; [|split]].
  - intros i Hi Ho. rewrite simpson_row_inner by exact Hi. now apply odd_weight.
  - intros i Hi He. rewrite simpson_row_inner by exact Hi. now apply even_weight.
  - intros tf. destruct (blockmove_build_run tf N) as (f & o & _ & E & _).
    do 2 eexists. split; [exact E|reflexivity].
  - intros tf. destruct (cartpole_build_run tf N) as (f & o & _ & E & _).
    do 2 eexists. split; [exact E|reflexivity].
Qed.

(* ------------------------------------------------------------------ *)
(** ** The dynamics-constraints loop *)



(* ------------------------------------------------------------------ *)
(** ** Boundary constraints *)

Lemma hs_boundary_pins N nx x0 xf :
  pins_ends (hs_boundary N nx x0 xf)
    (fun j => nth j (cols (vmat 0 nx (2 * N + 1))) [])
    (2 * N) x0 xf.
Proof.
  split; [repeat constructor|]. split.
  - intros r. rewrite !nth_cols_vmat by lia.
    replace (2 * N + 1 - 1)%nat with (2 * N)%nat by lia.
    unfold hs_boundary. replace (2 * N + 1 - 1)%nat with (2 * N)%nat by lia.
    rewrite <- !Forall2_map_Const. split.
    + intros H. inversion_clear H as [|? ? H1 H']. inversion_clear H' as [|? ? H2 _].
      split; assumption.
    + intros [H1 H2]. repeat constructor; assumption.
  - intros j k Hj H0 HN Hin. rewrite nth_cols_vmat in Hin by lia.
    unfold vmat_col in Hin. apply in_map_iff in Hin.
    destruct Hin as (i & Hi & Hr). injection Hi as <-. apply in_seq in Hr.
    unfold hs_boundary. cbn [flat_map constr_vars]. rewrite !vars_map_Const, !app_nil_r.
    intros Hk. apply in_app_or in Hk.
    destruct Hk as [Hk|Hk]; apply in_vars_vmat_col in Hk; destruct Hk as (i' & Hi' & Hk); nia.
Qed.

Lemma blockmove_boundary_adds tf N :
  adds (BlockMove.boundary_constraints (hs_grid tf N 2 1))
       (hs_boundary N 2 [0; 0]%Q [1; 0]%Q).
Proof.
  intros o. eexists. split.
  - exact (pin_ends_run tf N 2 1 [0; 0]%Q [1; 0]%Q eq_refl eq_refl o).
  - reflexivity.
Qed.

Lemma cartpole_boundary_adds tf N :
  adds (CartPole.boundary_constraints (hs_grid tf N 4 1))
       (hs_boundary N 4 CartPole.x_init CartPole.x_final).
Proof.
  intros o. eexists. split.
  - exact (pin_ends_run tf N 4 1 CartPole.x_init CartPole.x_final eq_refl eq_refl o).
  - reflexivity.
Qed.

(** C7.  In each of the three problems the notebook assembles, the
    boundary-constraints part adds equalities that pin the state at grid
    index 0 to the initial state and at the last grid index to the final
    state, and that mention no other grid point; these constraints are part
    of the assembled problem. *)
Theorem boundary_constraints_pin_ends (tf : Q) (N : nat) :
  (exists g J o bcs rest,
     Trapz.build tf N = Ok (g, J, o)
     /\ adds (Trapz.boundary_constraints N g) bcs
     /\ constraints o = bcs ++ rest
     /\ pins_ends bcs
          (fun j => [nth j (entries (Trapz.X g)) (Const 0);
                     nth j (entries (Trapz.V g)) (Const 0)])
          N [0; 0]%Q [1; 0]%Q)
  /\
  (exists G o bcs rest,
     BlockMove.build tf N = Ok (G, o)
     /\ adds (BlockMove.boundary_constraints (BlockMove.g_grid G)) bcs
     /\ constraints o = bcs ++ rest
     /\ pins_ends bcs
          (fun j => nth j (cols (HermiteSimpson.X (BlockMove.g_grid G))) [])
          (2 * N) [0; 0]%Q [1; 0]%Q)
  /\
  (exists G o bcs rest,
     CartPole.build tf N = Ok (G, o)
     /\ adds (CartPole.boundary_constraints (CartPole.g_grid G)) bcs
     /\ constraints o = bcs ++ rest
     /\ pins_ends bcs
          (fun j => nth j (cols (HermiteSimpson.X (CartPole.g_grid G))) [])
          (2 * N) CartPole.x_init CartPole.x_final).
Proof.
  split; [|split].
  - destruct (trapz_build_run tf N) as (J & o & E & C).
    exists (trapz_globals tf N), J, o, (trapz_boundary N). eexists.
    split; [exact E|]. split; [apply trapz_boundary_adds|].
    split; [exact C|]. apply trapz_boundary_pins.
  - destruct (blockmove_build_run tf N) as (f & o & _ & E & C & _).
    do 2 eexists. exists (hs_boundary N 2 [0; 0]%Q [1; 0]%Q), [].
    split; [exact E|]. cbn [BlockMove.g_grid hs_grid HermiteSimpson.X].
    split; [apply blockmove_boundary_adds|].
    split; [now rewrite app_nil_r|]. apply hs_boundary_pins.
  - destruct (cartpole_build_run tf N) as (f & o & _ & E & C & _).
    do 2 eexists. exists (hs_boundary N 4 CartPole.x_init CartPole.x_final), [].
    split; [exact E|]. cbn [CartPole.g_grid hs_grid HermiteSimpson.X].
    split; [apply cartpole_boundary_adds|].
    split; [now rewrite app_nil_r|]. apply hs_boundary_pins.
Qed.

(* ------------------------------------------------------------------ *)
(** ** What the Hermite-Simpson cells leave out *)

Lemma dynamics_constraints_adds_nothing N nx nu bx bu t0 f :
  dims (f_in f) = [nx; nu] ->
  adds (HermiteSimpson.dynamics_constraints N
          {| HermiteSimpson.X := vmat bx nx (2 * N + 1);
             HermiteSimpson.U := vmat bu nu (2 * N + 1);
             HermiteSimpson.t := t0 |} f) [].
Proof.
  intros Hf o. exists o. split; [now apply dynamics_constraints_run|].
  now rewrite app_nil_r.
Qed.

Lemma hs_midpoints_unconstrained N nx x0 xf :
  midpoints_unconstrained N (vmat 0 nx (2 * N + 1)) (hs_boundary N nx x0 xf).
Proof.
  intros j k Hj Hin.
  destruct (hs_boundary_pins N nx x0 xf) as (_ & _ & H).
  apply (H (2 * j + 1)%nat k); [lia|lia|lia|exact Hin].
Qed.

(** The midpoint identities can hold: they do for the block at rest. *)
Example at_rest_midpoint_identities :
  exists G o,
    BlockMove.build 1 10 = Ok (G, o)
    /\ midpoint_identities at_rest (1 / 10) (BlockMove.g_grid G) (BlockMove.g_f G) 1.
Proof.
  do 2 eexists. split; [vm_compute; reflexivity|].
  do 9 eexists. repeat (split; [vm_compute; reflexivity|]).
  split; vm_compute; repeat constructor.
Qed.

Lemma blockmove_off_curve :
  exists G o,
    BlockMove.build 1 10 = Ok (G, o)
    /\ feasible off_curve o
    /\ ~ midpoint_identities off_curve (1 / 10) (BlockMove.g_grid G) (BlockMove.g_f G) 1.
Proof.
  do 2 eexists. split; [vm_compute; reflexivity|]. split.
  - repeat constructor; reflexivity.
  - intros (xl & xm & xr & ul & um & ur & fl & fm & fr
            & E1 & E2 & E3 & E4 & E5 & E6 & E7 & E8 & E9 & HI & _).
    vm_compute in E1, E2, E3, E4, E5, E6.
    injection E1 as <-. injection E2 as <-. injection E3 as <-.
    injection E4 as <-. injection E5 as <-. injection E6 as <-.
    vm_compute in E7, E9.
    injection E7 as <-. injection E9 as <-.
    vm_compute in HI.
    inversion_clear HI as [|? ? ? ? H _]. discriminate H.
Qed.

(** C1 (the code does not do this).  In both Hermite-Simpson cells the
    dynamics-constraints loop reads its operands and adds no constraint:
    the assembled problem has the two boundary equalities and nothing
    else, and no midpoint state occurs in any constraint.  So at the
    notebook's own parameters ([tf = 1], [N = 10]) the block-move problem
    admits a point that breaks the interpolation identity at the first
    midpoint.  The interpolation and the collocation constraint are the
    two parts of the loop body that the notebook marks as to be
    implemented. *)
Theorem hs_dynamics_constraints_missing (tf : Q) (N : nat) :
  (exists G o,
     BlockMove.build tf N = Ok (G, o)
     /\ adds (HermiteSimpson.dynamics_constraints N (BlockMove.g_grid G) (BlockMove.g_f G)) []
     /\ length (constraints o) = 2%nat
     /\ Forall (fun c => exists bcs, adds (BlockMove.boundary_constraints (BlockMove.g_grid G)) bcs
                                     /\ In c bcs) (constraints o)
     /\ midpoints_unconstrained N (HermiteSimpson.X (BlockMove.g_grid G)) (constraints o))
  /\
  (exists G o,
     CartPole.build tf N = Ok (G, o)
     /\ adds (HermiteSimpson.dynamics_constraints N (CartPole.g_grid G) (CartPole.g_f G)) []
     /\ length (constraints o) = 2%nat
     /\ Forall (fun c => exists bcs, adds (CartPole.boundary_constraints (CartPole.g_grid G)) bcs
                                     /\ In c bcs) (constraints o)
     /\ midpoints_unconstrained N (HermiteSimpson.X (CartPole.g_grid G)) (constraints o))
  /\
  (exists G o,
     BlockMove.build 1 10 = Ok (G, o)
     /\ feasible off_curve o
     /\ ~ midpoint_identities off_curve (1 / 10) (BlockMove.g_grid G) (BlockMove.g_f G) 1).
Proof.
  split; [|split; [|exact blockmove_off_curve]].
  - destruct (blockmove_build_run tf N) as (f & o & Ef & E & C & _).
    destruct blockmove_dynamics as (f' & Ef' & Df).
    rewrite Ef in Ef'. injection Ef' as <-.
    do 2 eexists. split; [exact E|].
    cbn [BlockMove.g_grid BlockMove.g_f hs_grid HermiteSimpson.X].
    split; [now apply dynamics_constraints_adds_nothing
                  with (nx := BlockMove.nx) (nu := BlockMove.nu)|].
    rewrite C. split; [reflexivity|]. split.
    + apply Forall_forall. intros c Hc. eexists.
      split; [apply blockmove_boundary_adds|exact Hc].
    + apply hs_midpoints_unconstrained.
  - destruct (cartpole_build_run tf N) as (f & o & Ef & E & C & _).
    destruct cartpole_dynamics as (f' & Ef' & Df).
    rewrite Ef in Ef'. injection Ef' as <-.
    do 2 eexists. split; [exact E|].
    cbn [CartPole.g_grid CartPole.g_f hs_grid HermiteSimpson.X].
    split; [now apply dynamics_constraints_adds_nothing
                  with (nx := CartPole.nx) (nu := CartPole.nu)|].
    rewrite C. split; [reflexivity|]. split.
    + apply Forall_forall. intros c Hc. eexists.
      split; [apply cartpole_boundary_adds|exact Hc].
    + apply hs_midpoints_unconstrained.
Qed.

(** C9 (the code does not do this).  The cart-pole cell at the scenario's
    parameters ([tf = 2], [N = 25]) imposes no path constraint: its two
    constraints are the boundary equalities, no constraint is a bound, no
    control variable occurs in any constraint, and the feasible set
    contains a point with the force above [u_max] at a grid point and the
    cart beyond [d_max] at another.  The two path constraints are parts the
    notebook marks as to be implemented. *)
Theorem cartpole_path_constraints_missing :
  exists G o,
    CartPole.build 2 25 = Ok (G, o)
    /\ length (constraints o) = 2%nat
    /\ Forall (fun c => is_bound c = false) (constraints o)
    /\ (forall k, In (Var k) (entries (HermiteSimpson.U (CartPole.g_grid G))) ->
                  ~ In k (flat_map constr_vars (constraints o)))
    /\ feasible off_rail o
    /\ (CartPole.u_max
        < eval off_rail (entry (HermiteSimpson.U (CartPole.g_grid G)) 0 0))%Q
    /\ (CartPole.d_max
        < eval off_rail (entry (HermiteSimpson.X (CartPole.g_grid G)) 0 1))%Q.
Proof.
  destruct (cartpole_build_run 2 25) as (f & o & _ & E & C & _).
  do 2 eexists. split; [exact E|].
  cbn [CartPole.g_grid hs_grid HermiteSimpson.X HermiteSimpson.U].
  unfold feasible. rewrite C.
  split; [reflexivity|]. split; [repeat constructor|]. split; [|split; [|split]].
  - intros k Hk Hc. apply in_entries_vmat in Hk.
    destruct Hk as (j & i & Hj & Hi & Hk). injection Hk as ->.
    unfold hs_boundary in Hc. cbn [flat_map constr_vars] in Hc.
    rewrite !vars_map_Const, !app_nil_r in Hc. apply in_app_or in Hc.
    destruct Hc as [Hc|Hc]; apply in_vars_vmat_col in Hc;
      destruct Hc as (i' & Hi' & Hc); lia.
  - unfold hs_boundary. repeat constructor; reflexivity.
  - reflexivity.
  - reflexivity.
Qed.

(* ------------------------------------------------------------------ *)
(** ** The Hermite-Simpson objective *)

Lemma simpson_row_weight N i :
  (i < 2 * N + 1)%nat -> inject_Z (nth i (simpson_row N) 0%Z) = simpson_weight_spec N i.
Proof.
  intros H. unfold simpson_weight_spec.
  destruct (Nat.eqb_spec i 0) as [->|H0].
  - now rewrite simpson_row_first.
  - destruct (Nat.eqb_spec i (2 * N)) as [->|HN].
    + now rewrite simpson_row_last.
    + cbn [orb]. rewrite simpson_row_inner by lia.
      destruct (Nat.odd i) eqn:Ho.
      * now rewrite odd_weight.
      * rewrite even_weight; [reflexivity|].
        rewrite <- Nat.negb_odd, Ho. reflexivity.
Qed.

Lemma eval_simpson_J r N bu :
  (eval r (simpson_J N bu)
   == simpson_sum N (control_at r (vmat bu 1 (2 * N + 1))))%Q.
Proof.
  unfold simpson_J, simpson_sum, Qsum. rewrite eval_sum_expr.
  apply fold_Qplus_ext. intros i Hi. apply in_seq in Hi.
  unfold control_at. rewrite entry_vmat_row by lia.
  cbn [eval]. rewrite simpson_row_weight by lia. reflexivity.
Qed.

(** C2, as stated, fails: the block-move cell with [tf = 1], [N = 1] and
    all three controls equal to one has objective [1 + 4 + 1 = 6], while
    the Simpson quadrature with [h = 1/2] is [(h/3) * 6 = 1]. *)
Lemma hs_cost_unscaled_counterexample :
  exists G o J,
    BlockMove.build 1 1 = Ok (G, o)
    /\ objective o = Some J
    /\ (eval unit_controls J == 6)%Q
    /\ (simpson_cost_spec 1 1
          (control_at unit_controls (HermiteSimpson.U (BlockMove.g_grid G))) == 1)%Q
    /\ ~ (eval unit_controls J
          == simpson_cost_spec 1 1
               (control_at unit_controls (HermiteSimpson.U (BlockMove.g_grid G))))%Q.
Proof.
  do 3 eexists. split; [vm_compute; reflexivity|]. split; [reflexivity|].
  split; [reflexivity|]. split; [reflexivity|]. discriminate.
Qed.

(** C2, amended.  In both Hermite-Simpson cells the objective handed to
    [opti.minimize] is the dot product of the Simpson weight vector with
    the pointwise squared controls over the [2N+1] grid points, with no
    [h/3] factor; the Simpson quadrature of the running cost is that
    objective times [h/3], [h = tf/(2N)]. *)
Theorem hs_cost_unscaled (tf : Q) (N : nat) (r : env) :
  (exists G o J,
     BlockMove.build tf N = Ok (G, o)
     /\ objective o = Some J /\ BlockMove.g_J G = J
     /\ (eval r J
         == simpson_sum N (control_at r (HermiteSimpson.U (BlockMove.g_grid G))))%Q
     /\ (tf / float_of_nat (2 * N) / 3 * eval r J
         == simpson_cost_spec tf N
              (control_at r (HermiteSimpson.U (BlockMove.g_grid G))))%Q)
  /\
  (exists G o J,
     CartPole.build tf N = Ok (G, o)
     /\ objective o = Some J /\ CartPole.g_J G = J
     /\ (eval r J
         == simpson_sum N (control_at r (HermiteSimpson.U (CartPole.g_grid G))))%Q
     /\ (tf / float_of_nat (2 * N) / 3 * eval r J
         == simpson_cost_spec tf N
              (control_at r (HermiteSimpson.U (CartPole.g_grid G))))%Q).
Proof.
  split.
  - destruct (blockmove_build_run tf N) as (f & o & _ & E & _ & HJ).
    do 3 eexists. split; [exact E|]. split; [exact HJ|]. split; [reflexivity|].
    cbn [BlockMove.g_grid hs_grid HermiteSimpson.U]. split.
    + apply eval_simpson_J.
    + unfold simpson_cost_spec. now rewrite eval_simpson_J.
  - destruct (cartpole_build_run tf N) as (f & o & _ & E & _ & HJ).
    do 3 eexists. split; [exact E|]. split; [exact HJ|]. split; [reflexivity|].
    cbn [CartPole.g_grid hs_grid HermiteSimpson.U]. split.
    + apply eval_simpson_J.
    + unfold simpson_cost_spec. now rewrite eval_simpson_J.
Qed.

(* ------------------------------------------------------------------ *)
(** ** Construction and its inputs *)

(** C8, as stated, fails: with the non-positive segment count [N = 0]
    every cell assembles a problem instead of failing; the trapezoidal
    one has a single grid point carrying both boundary conditions and no
    collocation constraint.  And a failure does not leave the [Opti]
    object untouched: with [nu] declared 2 in the block-move cell, the
    objective raises on an object that already holds the 12 decision
    variables of [N = 1] (Python keeps what the earlier statements did). *)
Lemma zero_segments_accepted_counterexample :
  (exists g J o,
     Trapz.build 1 0 = Ok (g, J, o)
     /\ Trapz.t g = [0]%Q
     /\ constraints o = [EqC [Var 0] [Const 0]; EqC [Var 0] [Const 1];
                         EqC [Var 1] [Const 0]; EqC [Var 1] [Const 0]])
  /\ (exists G o, BlockMove.build 1 0 = Ok (G, o))
  /\ (exists G o, CartPole.build 2 0 = Ok (G, o))
  /\ ~ (forall tf N, (N <= 0)%nat -> exists e, Trapz.build tf N = Raise e)
  /\ (exists g o,
        HermiteSimpsonInt.decision_variables 1 1 2 2 Opti_new = Ok (g, o)
        /\ nvars o = 12%nat
        /\ HermiteSimpson.objective 1 g o = Raise RuntimeError
        /\ BlockMoveInt.build 2 2 1 1 = Raise RuntimeError).
Proof.
  split; [|split; [|split; [|split]]].
  - do 3 eexists. split; [vm_compute; reflexivity|]. split; reflexivity.
  - do 2 eexists. vm_compute. reflexivity.
  - do 2 eexists. vm_compute. reflexivity.
  - intros H. destruct (H 1%Q 0%nat (le_n 0)) as (e & He). discriminate He.
  - do 2 eexists. split; [vm_compute; reflexivity|].
    split; [reflexivity|]. split; vm_compute; reflexivity.
Qed.

(** *** Integer parameters *)

Lemma variable_int_nat n m : variable_int (Z.of_nat n) (Z.of_nat m) = variable n m.
Proof.
  unfold variable_int.
  replace (Z.of_nat n <? 0)%Z with false by (symmetry; apply Z.ltb_ge; lia).
  replace (Z.of_nat m <? 0)%Z with false by (symmetry; apply Z.ltb_ge; lia).
  cbn [orb]. now rewrite !Nat2Z.id.
Qed.

Lemma variable_int_negative n m :
  (n < 0 \/ m < 0)%Z -> variable_int n m = fun _ => Raise RuntimeError.
Proof.
  intros H. unfold variable_int.
  replace ((n <? 0) || (m <? 0))%Z with true; [reflexivity|].
  symmetry. apply orb_true_iff. rewrite !Z.ltb_lt. exact H.
Qed.

Lemma linspace_int_nat a b n : linspace_int a b (Z.of_nat n) = Ok (linspace a b n).
Proof.
  unfold linspace_int.
  replace (Z.of_nat n <? 0)%Z with false by (symmetry; apply Z.ltb_ge; lia).
  now rewrite Nat2Z.id.
Qed.

Lemma bind_raise {A B} (c : M A) (k : A -> M B) o {e} :
  c o = Raise e -> bind c k o = Raise e.
Proof. intros H. simpl. now rewrite H. Qed.

(** On a natural segment count the cells over a Python int are the cells
    above. *)
Lemma trapz_int_agrees tf (N : nat) : TrapzInt.build tf (Z.of_nat N) = Trapz.build tf N.
Proof.
  unfold TrapzInt.build, TrapzInt.cells, TrapzInt.decision_variables.
  replace (Z.of_nat N + 1)%Z with (Z.of_nat (N + 1)) by lia.
  change 1%Z with (Z.of_nat 1).
  rewrite !variable_int_nat, linspace_int_nat, Nat2Z.id. reflexivity.
Qed.

Lemma hs_int_variables_agree tf (N : nat) nx nu :
  HermiteSimpsonInt.decision_variables tf (Z.of_nat N) nx nu
  = (X <- variable nx (2 * N + 1);;
     U <- variable nu (2 * N + 1);;
     t <- lift (Ok (linspace 0 tf (2 * N + 1)));;
     ret {| HermiteSimpson.X := X; HermiteSimpson.U := U; HermiteSimpson.t := t |})%monad.
Proof.
  unfold HermiteSimpsonInt.decision_variables.
  replace (2 * Z.of_nat N + 1)%Z with (Z.of_nat (2 * N + 1)) by lia.
  now rewrite !variable_int_nat, linspace_int_nat.
Qed.

Lemma blockmove_int_agrees tf (N : nat) :
  BlockMoveInt.build 2 1 tf (Z.of_nat N) = BlockMove.build tf N.
Proof.
  unfold BlockMoveInt.build, BlockMoveInt.cell.
  rewrite hs_int_variables_agree, Nat2Z.id. reflexivity.
Qed.

Lemma cartpole_int_agrees tf (N : nat) :
  CartPoleInt.build tf (Z.of_nat N) = CartPole.build tf N.
Proof.
  unfold CartPoleInt.build, CartPoleInt.cell.
  rewrite hs_int_variables_agree, Nat2Z.id. reflexivity.
Qed.

(** A negative segment count: [opti.variable] refuses the negative
    dimension; with [N = -1] the trapezoidal cell declares empty vectors
    and the read [X[0]] is out of bounds. *)
Lemma trapz_int_negative tf N : (N < 0)%Z -> TrapzInt.build tf N = Raise RuntimeError.
Proof.
  intros H. destruct (Z.eq_dec N (-1)) as [->|Hn]; [reflexivity|].
  unfold TrapzInt.build, TrapzInt.cells, TrapzInt.decision_variables.
  rewrite variable_int_negative by lia. reflexivity.
Qed.

Lemma hs_int_negative tf N nx nu o :
  (N < 0)%Z -> HermiteSimpsonInt.decision_variables tf N nx nu o = Raise RuntimeError.
Proof.
  intros H. unfold HermiteSimpsonInt.decision_variables.
  rewrite variable_int_negative by lia. reflexivity.
Qed.

(** *** Declared dimensions of the block-move cell *)

Lemma blockmove_dynamics_at nx nu :
  BlockMoveInt.derive_dynamics (S (S nx)) nu
  = Ok {| f_in := [SX_sym "x" (S (S nx)); SX_sym "u" nu];
          f_out := vertcat [[Sym "x" 1]; SX_sym "u" nu] |}.
Proof.
  unfold BlockMoveInt.derive_dynamics, item.
  unfold SX_sym at 1 2. rewrite length_map, length_seq.
  change 1%Z with (Z.of_nat 1). rewrite py_index_nat by lia. reflexivity.
Qed.

Lemma blockmove_dynamics_short nx nu :
  (nx < 2)%nat -> BlockMoveInt.derive_dynamics nx nu = Raise RuntimeError.
Proof. intros H. destruct nx as [|[|nx]]; [reflexivity|reflexivity|lia]. Qed.

Lemma blockmove_dynamics_dims nx nu f :
  BlockMoveInt.derive_dynamics nx nu = Ok f -> dims (f_in f) = [nx; nu].
Proof.
  destruct nx as [|[|nx]]; try discriminate.
  rewrite blockmove_dynamics_at. intros E. injection E as <-.
  unfold dims, SX_sym. cbn [f_in map]. now rewrite !length_map, !length_seq.
Qed.

Lemma times_vmat bu n m :
  exists UU, times (vmat bu n m) (vmat bu n m) = Ok UU /\ shape UU = (n, m).
Proof.
  unfold times, shape, shape_eqb. cbn [vmat nrow ncol fst snd].
  rewrite !Nat.eqb_refl. cbn [andb]. eexists. split; reflexivity.
Qed.

(** The objective needs one control row: the coefficient array has one. *)
Lemma objective_control_rows N X0 t0 bu nu o :
  nu <> 1%nat ->
  HermiteSimpson.objective N
    {| HermiteSimpson.X := X0; HermiteSimpson.U := vmat bu nu (2 * N + 1);
       HermiteSimpson.t := t0 |} o
  = Raise RuntimeError.
Proof.
  intros Hnu. unfold HermiteSimpson.objective. cbn [HermiteSimpson.U].
  rewrite (bind_lift _ _ (simpson_coefficients_run N)).
  destruct (times_vmat bu nu (2 * N + 1)) as (UU & E & S).
  rewrite (bind_lift _ _ E). apply bind_raise.
  unfold lift, dot. rewrite S, as_MX_row. unfold shape, shape_eqb.
  cbn [nrow ncol fst snd].
  replace (1 =? nu)%nat with false by (symmetry; apply Nat.eqb_neq; lia).
  reflexivity.
Qed.

(** The boundary data have two components: the state must have two. *)
Lemma boundary_state_rows N nx bu t0 U0 o :
  (2 < nx)%nat ->
  BlockMove.boundary_constraints
    {| HermiteSimpson.X := vmat bu nx (2 * N + 1); HermiteSimpson.U := U0;
       HermiteSimpson.t := t0 |} o
  = Raise RuntimeError.
Proof.
  intros Hnx. unfold BlockMove.boundary_constraints. cbn [HermiteSimpson.X].
  assert (H0 : (0 < 2 * N + 1)%nat) by lia.
  change 0%Z with (Z.of_nat 0). rewrite (bind_lift _ _ (col_vmat bu nx H0)).
  apply bind_raise. unfold lift, equals. rewrite length_vmat_col. cbn [length].
  replace (nx =? 2)%nat with false by (symmetry; apply Nat.eqb_neq; lia).
  replace (nx =? 1)%nat with false by (symmetry; apply Nat.eqb_neq; lia).
  reflexivity.
Qed.

Lemma hs_int_variables_run tf (N : nat) nx nu :
  HermiteSimpsonInt.decision_variables tf (Z.of_nat N) nx nu Opti_new
  = Ok (hs_grid tf N nx nu,
        {| nvars := (nx * (2 * N + 1) + nu * (2 * N + 1))%nat; constraints := [];
           objective := None; initial := [] |}).
Proof.
  rewrite hs_int_variables_agree, !bind_variable.
  cbn [nvars Opti_new]. rewrite Nat.add_0_l. reflexivity.
Qed.

Lemma blockmove_int_dimensions nx nu tf (N : nat) :
  (nx <> 2 \/ nu <> 1)%nat ->
  BlockMoveInt.build nx nu tf (Z.of_nat N) = Raise RuntimeError.
Proof.
  intros H. unfold BlockMoveInt.build, BlockMoveInt.cell.
  rewrite (bind_ok _ _ _ (hs_int_variables_run tf N nx nu)), Nat2Z.id.
  destruct (Nat.lt_ge_cases nx 2) as [Hs|Hs].
  - now rewrite (blockmove_dynamics_short nx nu Hs).
  - destruct nx as [|[|nx]]; try lia.
    rewrite (bind_lift _ _ (blockmove_dynamics_at nx nu)).
    unfold hs_grid.
    destruct (Nat.eq_dec nu 1) as [->|Hnu].
    + rewrite (bind_ok _ _ _ (objective_run N _ _ _ _)).
      apply bind_raise. apply boundary_state_rows. lia.
    + apply bind_raise. now apply objective_control_rows.
Qed.

(** C8, amended.  Construction has no validation of its own; what fails
    is what CasADi refuses, with its [RuntimeError].  A negative segment
    count fails in each of the three cells, a count [N >= 0], zero
    included, assembles the problem.  In the block-move cell a declared
    [nx] or [nu] other than the 2 and the 1 that its dynamics, objective
    and boundary data are written for fails, whatever [N]; the dynamics
    function itself always takes inputs of the declared dimensions. *)
Theorem construction_failures (tf : Q) :
  (forall N : Z,
     ((0 <= N)%Z -> exists g J o, TrapzInt.build tf N = Ok (g, J, o))
     /\ ((N < 0)%Z -> TrapzInt.build tf N = Raise RuntimeError))
  /\ (forall (nx nu : nat) (N : Z),
        ((0 <= N)%Z /\ nx = 2%nat /\ nu = 1%nat ->
         exists G o, BlockMoveInt.build nx nu tf N = Ok (G, o))
        /\ ((N < 0)%Z \/ nx <> 2%nat \/ nu <> 1%nat ->
            BlockMoveInt.build nx nu tf N = Raise RuntimeError))
  /\ (forall (nx nu : nat) f,
        BlockMoveInt.derive_dynamics nx nu = Ok f -> dims (f_in f) = [nx; nu])
  /\ (forall N : Z,
        ((0 <= N)%Z -> exists G o, CartPoleInt.build tf N = Ok (G, o))
        /\ ((N < 0)%Z -> CartPoleInt.build tf N = Raise RuntimeError))
  /\ (forall N : nat,
        TrapzInt.build tf (Z.of_nat N) = Trapz.build tf N
        /\ BlockMoveInt.build BlockMove.nx BlockMove.nu tf (Z.of_nat N) = BlockMove.build tf N
        /\ CartPoleInt.build tf (Z.of_nat N) = CartPole.build tf N).
Proof.
  split; [|split; [|split; [|split]]].
  - intros N. split.
    + intros H. rewrite <- (Z2Nat.id N H), trapz_int_agrees.
      destruct (trapz_build_run tf (Z.to_nat N)) as (J & o & E & _).
      do 3 eexists. exact E.
    + apply trapz_int_negative.
  - intros nx nu N. split.
    + intros (H & -> & ->). rewrite <- (Z2Nat.id N H), blockmove_int_agrees.
      destruct (blockmove_build_run tf (Z.to_nat N)) as (f & o & _ & E & _).
      do 2 eexists. exact E.
    + intros H. destruct (Z.lt_ge_cases N 0) as [Hn|Hn].
      * unfold BlockMoveInt.build, BlockMoveInt.cell.
        apply bind_raise. now apply hs_int_negative.
      * rewrite <- (Z2Nat.id N Hn). apply blockmove_int_dimensions.
        destruct H as [H|H]; [lia|exact H].
  - apply blockmove_dynamics_dims.
  - intros N. split.
    + intros H. rewrite <- (Z2Nat.id N H), cartpole_int_agrees.
      destruct (cartpole_build_run tf (Z.to_nat N)) as (f & o & _ & E & _).
      do 2 eexists. exact E.
    + intros H. unfold CartPoleInt.build, CartPoleInt.cell.
      apply bind_raise. now apply hs_int_negative.
  - intros N. split; [apply trapz_int_agrees|].
    split; [apply blockmove_int_agrees|apply cartpole_int_agrees].
Qed.

(* ------------------------------------------------------------------ *)
(** ** The trapezoidal cells: cost, variables and initial guess *)

Section TrapzRun.
Variable tf : Q.
Variable N : nat.
Variables bx bv bu : nat.
Variable tg : list Q.

Let g : Trapz.globals :=
  {| Trapz.X := vcol bx (N + 1); Trapz.V := vcol bv (N + 1);
     Trapz.U := vcol bu (N + 1); Trapz.t := tg |}.

Lemma segment_full i J o :
  (i < N)%nat ->
  Trapz.segment tf N g (Z.of_nat i) J o
  = Ok (trapz_cost_step tf N bu J i,
        {| nvars := nvars o;
           constraints := constraints o ++ trapz_pair tf N bx bv bu i;
           objective := objective o; initial := initial o |}).
Proof.
  intros H. unfold Trapz.segment, g. cbn [Trapz.X Trapz.V Trapz.U].
  replace (Z.of_nat i + 1)%Z with (Z.of_nat (i + 1)) by lia.
  repeat mstep. cbn [ret Monad_M nvars constraints objective initial].
  unfold trapz_pair, trapz_x_constr, trapz_cost_step.
  now rewrite <- app_assoc.
Qed.

Lemma segments_full len : forall start J o,
  (start + len <= N)%nat ->
  exists o',
    for_ (map Z.of_nat (seq start len)) (Trapz.segment tf N g) J o
    = Ok (fold_left (trapz_cost_step tf N bu) (seq start len) J, o')
    /\ nvars o' = nvars o
    /\ constraints o'
       = constraints o ++ flat_map (trapz_pair tf N bx bv bu) (seq start len)
    /\ objective o' = objective o
    /\ initial o' = initial o.
Proof.
  induction len as [|len IH]; intros start J o H.
  - exists o. cbn [seq map for_ flat_map fold_left]. rewrite app_nil_r.
    repeat split; reflexivity.
  - pose proof (segment_full start J o ltac:(lia)) as E1.
    destruct (IH (S start) (trapz_cost_step tf N bu J start)
                 {| nvars := nvars o;
                    constraints := constraints o ++ trapz_pair tf N bx bv bu start;
                    objective := objective o; initial := initial o |}
                 ltac:(lia))
      as (o2 & E2 & Hn & Hc & Ho & Hi).
    exists o2. cbn [seq map for_ flat_map fold_left].
    rewrite (bind_ok _ _ _ E1). split; [exact E2|].
    cbn [nvars constraints objective initial] in *.
    rewrite Hn, Hc, Ho, Hi, <- app_assoc. repeat split; reflexivity.
Qed.

End TrapzRun.

Lemma set_initial_full X0 v o :
  shape X0 = shape v ->
  set_initial X0 v o
  = Ok (tt, {| nvars := nvars o; constraints := constraints o;
               objective := objective o;
               initial := initial o ++ guess_pairs (entries X0) (entries v) |}).
Proof.
  intros H. unfold set_initial, shape_eqb. now rewrite H, !Nat.eqb_refl.
Qed.

Lemma shape_np_full (X0 : MX) v : shape X0 = shape (np_full_2d (shape X0) v).
Proof. reflexivity. Qed.

Lemma trapz_boundary_full tf N o :
  exists o',
    Trapz.boundary_constraints N (trapz_globals tf N) o = Ok (tt, o')
    /\ extends_by o o' (trapz_boundary N).
Proof.
  unfold Trapz.boundary_constraints, trapz_globals. cbn [Trapz.X Trapz.V].
  change 0%Z with (Z.of_nat 0).
  repeat mstep. unfold lift, equals, subject_to. cbn [length Nat.eqb].
  eexists. split; [reflexivity|].
  unfold extends_by, trapz_boundary. cbn [nvars constraints objective initial].
  rewrite <- !app_assoc, !Nat.add_0_r. cbn [app Nat.add].
  repeat split; reflexivity.
Qed.

Lemma trapz_build_full tf N :
  exists o,
    Trapz.build tf N
    = Ok (trapz_globals tf N, trapz_J tf N (2 * (N + 1)), o)
    /\ nvars o = (3 * (N + 1))%nat
    /\ constraints o
       = trapz_boundary N
         ++ flat_map (trapz_pair tf N 0 (N + 1) (2 * (N + 1))) (seq 0 N)
    /\ objective o = Some (trapz_J tf N (2 * (N + 1)))
    /\ initial o = trapz_initial tf N.
Proof.
  unfold Trapz.build, Trapz.cells.
  rewrite (bind_ok _ _ _ (trapz_variables_full tf N)).
  set (o0 := {| nvars := (2 * (N + 1) + (N + 1) * 1)%nat; constraints := [];
                objective := None; initial := [] |}).
  destruct (trapz_boundary_full tf N o0) as (o1 & E1 & Hn1 & Hc1 & Ho1 & Hi1).
  rewrite (bind_ok _ _ _ E1).
  destruct (segments_full tf N 0 (N + 1) (2 * (N + 1)) (linspace 0 tf (N + 1))
              N 0 (Const 0) o1 ltac:(lia))
    as (o2 & E2 & Hn2 & Hc2 & Ho2 & Hi2).
  fold (trapz_globals tf N) in E2. fold (trapz_J tf N (2 * (N + 1))) in E2.
  assert (E3 : Trapz.collocation tf N (trapz_globals tf N) o1
               = Ok (trapz_J tf N (2 * (N + 1)),
                     {| nvars := nvars o2; constraints := constraints o2;
                        objective := Some (trapz_J tf N (2 * (N + 1)));
                        initial := initial o2 |})).
  { unfold Trapz.collocation, range. rewrite (bind_ok _ _ _ E2), bind_minimize.
    reflexivity. }
  rewrite (bind_ok _ _ _ E3).
  assert (S1 : shape (Trapz.X (trapz_globals tf N))
               = shape (colvec (Trapz.t (trapz_globals tf N)))).
  { unfold shape, colvec. cbn [trapz_globals Trapz.X Trapz.t vcol nrow ncol].
    now rewrite linspace_length. }
  eexists. split.
  - erewrite bind_ok; [reflexivity|].
    unfold Trapz.initial_guess.
    rewrite (bind_ok _ _ _ (set_initial_full _ _ _ S1)).
    rewrite (bind_ok _ _ _ (set_initial_full _ _ _ (shape_np_full _ 1%Q))).
    apply set_initial_full. apply shape_np_full.
  - cbn [nvars constraints objective initial].
    rewrite Hn2, Hn1, Hc2, Hc1, Hi2, Hi1. cbn [o0 nvars constraints initial app].
    split; [lia|]. split; [reflexivity|]. split; [reflexivity|].
    unfold trapz_initial. cbn [trapz_globals Trapz.t]. now rewrite <- app_assoc.
Qed.

Lemma eval_cost_fold r tf N bu l : forall J0,
  (eval r (fold_left (trapz_cost_step tf N bu) l J0)
   == eval r J0
      + fold_right Qplus 0
          (map (fun i => (1 # 2) * tf / float_of_nat N
                         * (v_var r (bu + i) ^ 2 + v_var r (bu + (i + 1)) ^ 2)) l))%Q.
Proof.
  induction l as [|i l IH]; intros J0; cbn [fold_left map fold_right].
  - ring.
  - rewrite IH. unfold trapz_cost_step. cbn [eval Z.of_nat Pos.of_succ_nat Pos.succ].
    ring.
Qed.

Lemma value_at_vcol r base n i :
  (i < n)%nat -> value_at r (vcol base n) i = v_var r (base + i).
Proof. intros H. unfold value_at. now rewrite nth_entries_vcol by exact H. Qed.

Lemma eval_trapz_J r tf N bu :
  (eval r (trapz_J tf N bu)
   == trapezoid_sum (tf / float_of_nat N)
        (fun i => value_at r (vcol bu (N + 1)) i ^ 2) N)%Q.
Proof.
  unfold trapz_J, trapezoid_sum, Qsum. rewrite eval_cost_fold. cbn [eval].
  rewrite Qplus_0_l. apply fold_Qplus_ext. intros i Hi. apply in_seq in Hi.
  rewrite !value_at_vcol by lia.
  rewrite (half_step tf (float_of_nat_nz (n := N) ltac:(lia))). reflexivity.
Qed.

(** X1.  The cost the trapezoidal loop accumulates and hands to
    [opti.minimize] is the trapezoid quadrature of the squared control
    over the [N] segments, with step [h = tf/N]. *)
Theorem trapz_cost_quadrature (tf : Q) (N : nat) (r : env) :
  exists g J o,
    Trapz.build tf N = Ok (g, J, o)
    /\ objective o = Some J
    /\ (eval r J
        == trapezoid_sum (tf / float_of_nat N)
             (fun i => value_at r (Trapz.U g) i ^ 2) N)%Q.
Proof.
  destruct (trapz_build_full tf N) as (o & E & _ & _ & HJ & _).
  do 3 eexists. split; [exact E|]. split; [exact HJ|].
  cbn [trapz_globals Trapz.U]. apply eval_trapz_J.
Qed.

Lemma Qsum_const a n : (Qsum (fun _ => a) n == float_of_nat n * a)%Q.
Proof.
  unfold Qsum. generalize 0%nat. induction n as [|n IH]; intros s.
  - cbn [seq map fold_right]. unfold float_of_nat. cbn. ring.
  - cbn [seq map fold_right]. rewrite IH.
    replace (S n) with (n + 1)%nat by lia. rewrite float_of_nat_S. ring.
Qed.

Lemma trapezoid_sum_const h w c N :
  (forall i, (i <= N)%nat -> (w i == c)%Q) ->
  (trapezoid_sum h w N == float_of_nat N * h * c)%Q.
Proof.
  intros H. unfold trapezoid_sum.
  transitivity (Qsum (fun _ => h * c)%Q N).
  - unfold Qsum. apply fold_Qplus_ext. intros i Hi. apply in_seq in Hi.
    rewrite (H i), (H (i + 1)%nat) by lia. field.
  - rewrite Qsum_const. ring.
Qed.

(* ------------------------------------------------------------------ *)
(** ** The Simpson coefficients and the Hermite-Simpson objective *)

Lemma Zsum_update (l : list Z) : forall k v,
  (k < length l)%nat -> Zsum (update l k v) = (Zsum l - nth k l 0 + v)%Z.
Proof.
  induction l as [|x l IH]; intros [|k] v H; cbn [length] in H; try lia.
  - cbn [update Zsum fold_right nth]. lia.
  - cbn [update Zsum fold_right nth]. fold (Zsum (update l k v)). fold (Zsum l).
    rewrite IH by lia. lia.
Qed.

Lemma Zsum_app l1 l2 : Zsum (l1 ++ l2) = (Zsum l1 + Zsum l2)%Z.
Proof.
  induction l1 as [|x l1 IH]; cbn [app Zsum fold_right]; [reflexivity|].
  fold (Zsum (l1 ++ l2)). fold (Zsum l1). rewrite IH. lia.
Qed.

Lemma Zsum_raw_weights N :
  Zsum (map (fun i => 4 * (i mod 2) + 2 * ((i + 1) mod 2))%Z (range (2 * N + 1)))
  = (6 * Z.of_nat N + 2)%Z.
Proof.
  induction N as [|N IH]; [reflexivity|].
  unfold range in *.
  replace (2 * S N + 1)%nat with ((2 * N + 1) + 2)%nat by lia.
  rewrite (seq_app (2 * N + 1) 2), !map_app, Zsum_app, IH.
  cbn [seq map Zsum fold_right Nat.add].
  rewrite (odd_weight (2 * N + 1)), (even_weight (S (2 * N + 1))).
  - lia.
  - apply Nat.even_spec. exists (N + 1)%nat. lia.
  - apply Nat.odd_spec. exists N. lia.
Qed.

Lemma Forall_update {A} (P : A -> Prop) (l : list A) : forall k v,
  Forall P l -> P v -> Forall P (update l k v).
Proof.
  induction l as [|x l IH]; intros [|k] v Hl Hv; cbn [update];
    inversion_clear Hl; constructor; auto.
Qed.

Lemma raw_weights_positive n :
  Forall (fun x => (0 < x)%Z)
         (map (fun i => 4 * (i mod 2) + 2 * ((i + 1) mod 2))%Z (range n)).
Proof.
  apply Forall_forall. intros x Hx. apply in_map_iff in Hx.
  destruct Hx as (i & <- & _). Z.div_mod_to_equations. lia.
Qed.

Lemma simpson_row_positive N : Forall (fun x => (0 < x)%Z) (simpson_row N).
Proof.
  unfold simpson_row. repeat apply Forall_update; try lia.
  apply raw_weights_positive.
Qed.

Lemma simpson_row_sum N :
  (1 <= N)%nat -> Zsum (simpson_row N) = (6 * Z.of_nat N)%Z.
Proof.
  intros H. unfold simpson_row.
  set (raw := map _ (range (2 * N + 1))).
  assert (L : length raw = (2 * N + 1)%nat)
    by (unfold raw, range; now rewrite !length_map, length_seq).
  rewrite Zsum_update by (rewrite length_update; lia).
  rewrite nth_update_other by lia.
  rewrite Zsum_update by lia.
  unfold raw at 2 3. rewrite !raw_weight_nth by lia.
  fold raw. unfold raw at 1. rewrite Zsum_raw_weights.
  rewrite (even_weight 0) by reflexivity.
  rewrite (even_weight (2 * N + 1 - 1)).
  - lia.
  - apply Nat.even_spec. exists N. lia.
Qed.

(** X3.  With at least one segment the Simpson coefficients are positive
    and add up to [6N], so that scaled by [h/3], [h = tf/(2N)], they add
    up to the horizon [tf]. *)
Theorem simpson_weights_total (N : nat) :
  (1 <= N)%nat ->
  exists w,
    HermiteSimpson.simpson_coefficients N = Ok [w]
    /\ Forall (fun x => (0 < x)%Z) w
    /\ Zsum w = (6 * Z.of_nat N)%Z
    /\ forall tf : Q,
         (tf / float_of_nat (2 * N) / 3 * inject_Z (Zsum w) == tf)%Q.
Proof.
  intros H. exists (simpson_row N).
  split; [apply simpson_coefficients_run|].
  split; [apply simpson_row_positive|].
  split; [now apply simpson_row_sum|].
  intros tf. rewrite simpson_row_sum by exact H.
  assert (E : (inject_Z (6 * Z.of_nat N) == 3 * float_of_nat (2 * N))%Q).
  { unfold float_of_nat. rewrite Nat2Z.inj_mul, !inject_Z_mult.
    change (inject_Z (Z.of_nat 2)) with 2%Q. change (inject_Z 6) with 6%Q. ring. }
  rewrite E. field. apply float_of_nat_nz. lia.
Qed.

Lemma simpson_weights_total_witness :
  (1 <= 10)%nat
  /\ exists w,
       HermiteSimpson.simpson_coefficients 10 = Ok [w]
       /\ Forall (fun x => (0 < x)%Z) w
       /\ Zsum w = (6 * Z.of_nat 10)%Z
       /\ forall tf : Q,
            (tf / float_of_nat (2 * 10) / 3 * inject_Z (Zsum w) == tf)%Q.
Proof. split; [lia|]. apply (simpson_weights_total 10). lia. Defined.

Lemma Qsum_nonneg f n :
  (forall i, (i < n)%nat -> (0 <= f i)%Q) -> (0 <= Qsum f n)%Q.
Proof.
  unfold Qsum. intros H.
  assert (G : forall l, (forall i, In i l -> (0 <= f i)%Q) ->
                        (0 <= fold_right Qplus 0 (map f l))%Q).
  { induction l as [|i l IH]; intros Hl; cbn [map fold_right]; [apply Qle_refl|].
    assert (0 <= f i)%Q by (apply Hl; now left).
    assert (0 <= fold_right Qplus 0 (map f l))%Q
      by (apply IH; intros j Hj; apply Hl; now right).
    lra. }
  apply G. intros i Hi. apply in_seq in Hi. apply H. lia.
Qed.

Lemma simpson_weight_spec_nonneg N i : (0 <= simpson_weight_spec N i)%Q.
Proof.
  unfold simpson_weight_spec.
  destruct ((i =? 0)%nat || (i =? 2 * N)%nat); [discriminate|].
  destruct (Nat.odd i); discriminate.
Qed.

Lemma simpson_sum_nonneg N u : (0 <= simpson_sum N u)%Q.
Proof.
  unfold simpson_sum. apply Qsum_nonneg. intros i _.
  apply Qmult_le_0_compat; [apply simpson_weight_spec_nonneg|].
  rewrite <- (Qpower_plus' (u i) 1 1) by discriminate. apply Qsqr_nonneg.
Qed.

Lemma Qsum_nth_Zsum (l : list Z) :
  (fold_right Qplus 0 (map (fun i => inject_Z (nth i l 0%Z)) (seq 0 (length l)))
   == inject_Z (Zsum l))%Q.
Proof.
  induction l as [|x l IH]; [reflexivity|].
  cbn [length seq map fold_right nth Zsum].
  rewrite <- seq_shift, map_map. cbn [nth]. fold (Zsum l).
  rewrite IH, inject_Z_plus. reflexivity.
Qed.

Lemma simpson_weight_spec_sum N :
  (1 <= N)%nat ->
  (Qsum (simpson_weight_spec N) (2 * N + 1) == 6 * float_of_nat N)%Q.
Proof.
  intros H. unfold Qsum.
  transitivity (fold_right Qplus 0
                  (map (fun i => inject_Z (nth i (simpson_row N) 0%Z))
                       (seq 0 (length (simpson_row N))))).
  - rewrite length_simpson_row. apply fold_Qplus_ext.
    intros i Hi. apply in_seq in Hi.
    rewrite simpson_row_weight by lia. reflexivity.
  - rewrite Qsum_nth_Zsum, simpson_row_sum by exact H.
    unfold float_of_nat. rewrite inject_Z_mult. reflexivity.
Qed.

Lemma fold_Qplus_scale (f : nat -> Q) a l :
  (fold_right Qplus 0 (map (fun i => f i * a) l)
   == fold_right Qplus 0 (map f l) * a)%Q.
Proof.
  induction l as [|i l IH]; cbn [map fold_right]; [ring|]. rewrite IH. ring.
Qed.

Lemma simpson_sum_const N u c :
  (1 <= N)%nat ->
  (forall i, (i <= 2 * N)%nat -> (u i == c)%Q) ->
  (simpson_sum N u == 6 * float_of_nat N * c ^ 2)%Q.
Proof.
  intros HN Hu. unfold simpson_sum.
  transitivity (Qsum (fun i => simpson_weight_spec N i * c ^ 2)%Q (2 * N + 1)).
  - unfold Qsum. apply fold_Qplus_ext. intros i Hi. apply in_seq in Hi.
    rewrite (Hu i) by lia. ring.
  - unfold Qsum. rewrite fold_Qplus_scale.
    fold (Qsum (simpson_weight_spec N) (2 * N + 1)).
    now rewrite simpson_weight_spec_sum.
Qed.

Lemma simpson_J_const r N bu c tf :
  (1 <= N)%nat ->
  (forall i, (i <= 2 * N)%nat ->
             (control_at r (vmat bu 1 (2 * N + 1)) i == c)%Q) ->
  (eval r (simpson_J N bu) == 6 * float_of_nat N * c ^ 2)%Q
  /\ (tf / float_of_nat (2 * N) / 3 * eval r (simpson_J N bu) == tf * c ^ 2)%Q.
Proof.
  intros HN Hc.
  assert (E : (eval r (simpson_J N bu) == 6 * float_of_nat N * c ^ 2)%Q)
    by (rewrite eval_simpson_J; now apply simpson_sum_const).
  split; [exact E|]. rewrite E.
  assert (F : (float_of_nat (2 * N) == 2 * float_of_nat N)%Q).
  { unfold float_of_nat. rewrite Nat2Z.inj_mul, inject_Z_mult. reflexivity. }
  rewrite F. pose proof (float_of_nat_nz (n := N) ltac:(lia)). field. assumption.
Qed.

(** X4.  With at least one segment, a control held at [c] at every grid
    point gives the Hermite-Simpson objective the value [6 N c^2] in both
    cells; scaled by [h/3], [h = tf/(2N)], that is [tf * c^2], the exact
    integral of the running cost. *)
Theorem hs_cost_constant_control (tf : Q) (N : nat) (r : env) (c : Q) :
  (1 <= N)%nat ->
  (exists G o J,
     BlockMove.build tf N = Ok (G, o)
     /\ objective o = Some J
     /\ ((forall i, (i <= 2 * N)%nat ->
            (control_at r (HermiteSimpson.U (BlockMove.g_grid G)) i == c)%Q) ->
         (eval r J == 6 * float_of_nat N * c ^ 2)%Q
         /\ (tf / float_of_nat (2 * N) / 3 * eval r J == tf * c ^ 2)%Q))
  /\
  (exists G o J,
     CartPole.build tf N = Ok (G, o)
     /\ objective o = Some J
     /\ ((forall i, (i <= 2 * N)%nat ->
            (control_at r (HermiteSimpson.U (CartPole.g_grid G)) i == c)%Q) ->
         (eval r J == 6 * float_of_nat N * c ^ 2)%Q
         /\ (tf / float_of_nat (2 * N) / 3 * eval r J == tf * c ^ 2)%Q)).
Proof.
  intros HN. split.
  - destruct (blockmove_build_run tf N) as (f & o & _ & E & _ & HJ).
    do 3 eexists. split; [exact E|]. split; [exact HJ|].
    cbn [BlockMove.g_grid hs_grid HermiteSimpson.U]. now apply simpson_J_const.
  - destruct (cartpole_build_run tf N) as (f & o & _ & E & _ & HJ).
    do 3 eexists. split; [exact E|]. split; [exact HJ|].
    cbn [CartPole.g_grid hs_grid HermiteSimpson.U]. now apply simpson_J_const.
Qed.

Lemma hs_cost_constant_control_witness :
  (1 <= 1)%nat
  /\ (exists G o J,
        BlockMove.build 1 1 = Ok (G, o)
        /\ objective o = Some J
        /\ ((forall i, (i <= 2 * 1)%nat ->
               (control_at unit_controls (HermiteSimpson.U (BlockMove.g_grid G)) i == 1)%Q) ->
            (eval unit_controls J == 6 * float_of_nat 1 * 1 ^ 2)%Q
            /\ (1 / float_of_nat (2 * 1) / 3 * eval unit_controls J == 1 * 1 ^ 2)%Q)).
Proof.
  split; [lia|]. apply (hs_cost_constant_control 1 1 unit_controls 1). lia.
Defined.

(* ------------------------------------------------------------------ *)
(** ** Feasible points of the trapezoidal problem *)

Lemma fold_Qplus_app (l1 l2 : list Q) :
  (fold_right Qplus 0 (l1 ++ l2)
   == fold_right Qplus 0 l1 + fold_right Qplus 0 l2)%Q.
Proof.
  induction l1 as [|x l1 IH]; cbn [app fold_right]; [ring|]. rewrite IH. ring.
Qed.

Lemma Qsum_succ f n : (Qsum f (n + 1) == Qsum f n + f n)%Q.
Proof.
  unfold Qsum. rewrite seq_app, map_app, fold_Qplus_app.
  cbn [seq map fold_right Nat.add]. ring.
Qed.

(** A trajectory that obeys the trapezoid rule on every segment changes
    by the trapezoid quadrature of its derivative. *)
Lemma trapezoid_telescope h (a b : nat -> Q) N :
  (forall i, (i < N)%nat ->
             (a (i + 1)%nat - a i == h / 2 * (b (i + 1)%nat + b i))%Q) ->
  (a N - a 0%nat == trapezoid_sum h b N)%Q.
Proof.
  intros H. unfold trapezoid_sum.
  assert (G : forall n, (n <= N)%nat ->
            (a n - a 0%nat == Qsum (fun i => h / 2 * (b i + b (i + 1)%nat)) n)%Q).
  { induction n as [|n IH]; intros Hn.
    - unfold Qsum. cbn [seq map fold_right]. ring.
    - replace (S n) with (n + 1)%nat by lia.
      rewrite Qsum_succ, <- IH by lia.
      pose proof (H n ltac:(lia)) as E.
      assert (E' : (a (n + 1)%nat == a n + h / 2 * (b (n + 1)%nat + b n))%Q)
        by (rewrite <- E; ring).
      rewrite E'. ring. }
  apply G. lia.
Qed.

Lemma Forall_flat_map_seq {A} (P : A -> Prop) (F : nat -> list A) n :
  Forall P (flat_map F (seq 0 n)) <-> forall i, (i < n)%nat -> Forall P (F i).
Proof.
  rewrite Forall_forall. split.
  - intros H i Hi. apply Forall_forall. intros x Hx. apply H.
    apply in_flat_map. exists i. split; [apply in_seq; lia|exact Hx].
  - intros H x Hx. apply in_flat_map in Hx. destruct Hx as (i & Hi & Hx).
    apply in_seq in Hi. pose proof (H i ltac:(lia)) as Hf.
    rewrite Forall_forall in Hf. now apply Hf.
Qed.

Lemma sat_trapz_x_constr r tf N ba bb i :
  (i < N)%nat ->
  sat r (trapz_x_constr tf N ba bb i)
  <-> (v_var r (ba + (i + 1)) - v_var r (ba + i)
       == tf / float_of_nat N / 2 * (v_var r (bb + (i + 1)) + v_var r (bb + i)))%Q.
Proof.
  intros H. unfold trapz_x_constr. rewrite sat_eq1. cbn [eval].
  rewrite (half_step tf (float_of_nat_nz (n := N) ltac:(lia))). reflexivity.
Qed.

(** The constraints of the assembled trapezoidal problem, read as
    equations on the values of the decision variables. *)
Lemma trapz_feasible_equations r tf N o :
  constraints o
  = trapz_boundary N
    ++ flat_map (trapz_pair tf N 0 (N + 1) (2 * (N + 1))) (seq 0 N) ->
  feasible r o
  <-> trapz_equations tf N
        (value_at r (Trapz.X (trapz_globals tf N)))
        (value_at r (Trapz.V (trapz_globals tf N)))
        (value_at r (Trapz.U (trapz_globals tf N))).
Proof.
  intros C. unfold feasible. rewrite C, Forall_app, Forall_flat_map_seq.
  unfold trapz_equations. cbn [trapz_globals Trapz.X Trapz.V Trapz.U].
  rewrite !value_at_vcol by lia. cbn [Nat.add].
  replace (N + 1 + 0)%nat with (N + 1)%nat by lia.
  split.
  - intros [HB HC]. unfold trapz_boundary in HB.
    inversion_clear HB as [|? ? H1 HB']. inversion_clear HB' as [|? ? H2 HB''].
    inversion_clear HB'' as [|? ? H3 HB''']. inversion_clear HB''' as [|? ? H4 _].
    apply sat_eq1 in H1, H2, H3, H4. cbn [eval] in *.
    repeat (split; [assumption|]).
    intros i Hi. rewrite !value_at_vcol by lia. cbn [Nat.add].
    pose proof (HC i Hi) as Hp. unfold trapz_pair in Hp.
    inversion_clear Hp as [|? ? P1 Hp']. inversion_clear Hp' as [|? ? P2 _].
    apply sat_trapz_x_constr in P1, P2; try exact Hi.
    cbn [Nat.add] in P1. split; assumption.
  - intros (H1 & H2 & H3 & H4 & HC). split.
    + unfold trapz_boundary. repeat constructor; assumption.
    + intros i Hi. destruct (HC i Hi) as [P1 P2].
      rewrite !value_at_vcol in P1, P2 by lia. cbn [Nat.add] in P1.
      unfold trapz_pair.
      constructor; [|constructor; [|constructor]];
        apply sat_trapz_x_constr; assumption.
Qed.

Lemma trapz_build_inv tf N g J o :
  Trapz.build tf N = Ok (g, J, o) ->
  g = trapz_globals tf N
  /\ constraints o
     = trapz_boundary N
       ++ flat_map (trapz_pair tf N 0 (N + 1) (2 * (N + 1))) (seq 0 N).
Proof.
  intros E. destruct (trapz_build_full tf N) as (o' & E' & _ & C & _).
  rewrite E in E'. injection E' as -> _ ->. split; [reflexivity|exact C].
Qed.

Lemma trapz_equations_quadratures tf N x v u :
  trapz_equations tf N x v u ->
  (trapezoid_sum (tf / float_of_nat N) v N == 1)%Q
  /\ (trapezoid_sum (tf / float_of_nat N) u N == 0)%Q.
Proof.
  intros (H1 & H2 & H3 & H4 & HC). split.
  - rewrite <- (trapezoid_telescope (tf / float_of_nat N) x v N)
      by (intros i Hi; apply (HC i Hi)).
    rewrite H1, H2. ring.
  - rewrite <- (trapezoid_telescope (tf / float_of_nat N) v u N)
      by (intros i Hi; apply (HC i Hi)).
    rewrite H3, H4. ring.
Qed.

(** X5.  At every feasible point of the assembled trapezoidal problem the
    trapezoid quadrature of the velocity is the displacement, 1, and the
    trapezoid quadrature of the force is the change of velocity, 0. *)
Theorem trapz_feasible_quadratures (tf : Q) (N : nat) (r : env)
        (g : Trapz.globals) (J : expr) (o : Opti) :
  Trapz.build tf N = Ok (g, J, o) ->
  feasible r o ->
  (trapezoid_sum (tf / float_of_nat N) (value_at r (Trapz.V g)) N == 1)%Q
  /\ (trapezoid_sum (tf / float_of_nat N) (value_at r (Trapz.U g)) N == 0)%Q.
Proof.
  intros E F. destruct (trapz_build_inv tf N g J o E) as [-> C].
  apply (trapz_feasible_equations r tf N o C) in F.
  exact (trapz_equations_quadratures tf N _ _ _ F).
Qed.

Lemma trapz_feasible_quadratures_witness :
  exists g J o,
    Trapz.build 1 2 = Ok (g, J, o)
    /\ feasible two_segments o
    /\ (trapezoid_sum (1 / float_of_nat 2) (value_at two_segments (Trapz.V g)) 2 == 1)%Q
    /\ (trapezoid_sum (1 / float_of_nat 2) (value_at two_segments (Trapz.U g)) 2 == 0)%Q.
Proof.
  pose (b := Trapz.build 1 2).
  assert (E : Trapz.build 1 2 = b) by reflexivity.
  vm_compute in b. unfold b in E. clear b.
  match type of E with _ = Ok (?g, ?J, ?o) => exists g, J, o end.
  match type of E with
  | _ = Ok (_, _, ?o) =>
      assert (F : feasible two_segments o)
        by (unfold feasible; cbn [constraints]; repeat constructor; reflexivity)
  end.
  split; [exact E|]. split; [exact F|].
  exact (trapz_feasible_quadratures 1 2 two_segments _ _ _ E F).
Defined.

Lemma trapezoid_sum_zero_step h w N :
  (h == 0)%Q -> (trapezoid_sum h w N == 0)%Q.
Proof.
  intros H. unfold trapezoid_sum.
  transitivity (Qsum (fun _ => 0%Q) N).
  - unfold Qsum. apply fold_Qplus_ext. intros i _. rewrite H. field.
  - rewrite Qsum_const. ring.
Qed.

Lemma trapz_equations_need_two_segments tf N x v u :
  trapz_equations tf N x v u -> (2 <= N)%nat /\ ~ (tf == 0)%Q.
Proof.
  intros HE. pose proof HE as (H1 & H2 & H3 & H4 & HC).
  destruct (trapz_equations_quadratures tf N x v u HE) as [HV _].
  split.
  - destruct N as [|[|N]]; [| |lia].
    + rewrite H1 in H2. discriminate H2.
    + destruct (HC 0%nat ltac:(lia)) as [P _]. cbn [Nat.add] in P.
      rewrite H1, H2, H3, H4 in P. clear -P. exfalso.
      assert (Z : (1 - 0 == 0)%Q) by (rewrite P; ring). discriminate Z.
  - intros Htf.
    assert (Hh : (tf / float_of_nat N == 0)%Q)
      by (rewrite Htf; unfold Qdiv; ring).
    rewrite (trapezoid_sum_zero_step _ v N Hh) in HV. discriminate HV.
Qed.


Lemma ramp_v_last tf N i : (N <= i)%nat -> ramp_v tf N i = 0%Q.
Proof.
  intros H. unfold ramp_v.
  rewrite (proj2 (Nat.leb_le N i) H), orb_true_r. reflexivity.
Qed.

Lemma ramp_v_inner tf N i :
  (0 < i < N)%nat ->
  ramp_v tf N i = (1 / (tf / float_of_nat N * float_of_nat (N - 1)))%Q.
Proof.
  intros H. unfold ramp_v.
  destruct (Nat.eqb_spec i 0); [lia|].
  destruct (Nat.leb_spec N i); [lia|]. reflexivity.
Qed.

Lemma step_nonzero tf N :
  (1 <= N)%nat -> ~ (tf == 0)%Q -> ~ (tf / float_of_nat N == 0)%Q.
Proof.
  intros HN Htf E. apply Htf.
  pose proof (float_of_nat_nz (n := N) ltac:(lia)) as HZ.
  assert (E' : (tf == tf / float_of_nat N * float_of_nat N)%Q) by (field; exact HZ).
  rewrite E', E. ring.
Qed.

Lemma ramp_x_inner tf N i :
  (2 <= N)%nat -> (1 <= i <= N - 1)%nat ->
  (ramp_x tf N i
   == (float_of_nat i - (1 # 2)) * (tf / float_of_nat N)
      * (1 / (tf / float_of_nat N * float_of_nat (N - 1))))%Q.
Proof.
  intros HN. induction i as [|i IH]; intros Hi; [lia|].
  cbn [ramp_x]. destruct i as [|i].
  - cbn [ramp_x]. rewrite (ramp_v_inner tf N 1) by lia.
    change (ramp_v tf N 0) with 0%Q.
    change (float_of_nat 1) with 1%Q.
    set (h := (tf / float_of_nat N)%Q).
    set (c := (1 / (h * float_of_nat (N - 1)))%Q).
    field.
  - rewrite IH by lia. rewrite !ramp_v_inner by lia.
    replace (S (S i)) with (S i + 1)%nat by lia. rewrite (float_of_nat_S (S i)).
    set (h := (tf / float_of_nat N)%Q).
    set (c := (1 / (h * float_of_nat (N - 1)))%Q).
    field.
Qed.

Lemma ramp_x_last tf N :
  (2 <= N)%nat -> ~ (tf == 0)%Q -> (ramp_x tf N N == 1)%Q.
Proof.
  intros HN Htf. destruct N as [|n]; [lia|]. cbn [ramp_x].
  rewrite (ramp_x_inner tf (S n) n) by lia.
  rewrite (ramp_v_last tf (S n) (S n)) by lia.
  rewrite (ramp_v_inner tf (S n) n) by lia.
  replace (S n - 1)%nat with n by lia.
  pose proof (step_nonzero tf (S n) ltac:(lia) Htf) as Hh.
  pose proof (float_of_nat_nz (n := n) ltac:(lia)) as Hn.
  set (h := (tf / float_of_nat (S n))%Q) in *.
  field. split; assumption.
Qed.

Lemma ramp_equations tf N :
  (2 <= N)%nat -> ~ (tf == 0)%Q ->
  trapz_equations tf N (ramp_x tf N) (ramp_v tf N) (ramp_u tf N).
Proof.
  intros HN Htf. unfold trapz_equations.
  split; [reflexivity|]. split; [now apply ramp_x_last|].
  split; [reflexivity|]. split; [now rewrite ramp_v_last by lia|].
  intros i Hi. rewrite !Nat.add_1_r. cbn [ramp_x ramp_u].
  pose proof (step_nonzero tf N ltac:(lia) Htf) as Hh.
  set (h := (tf / float_of_nat N)%Q) in *.
  split; [ring|]. field. exact Hh.
Qed.

Lemma trapz_equations_ext tf N x v u x' v' u' :
  (forall i, (i <= N)%nat -> (x' i == x i)%Q /\ (v' i == v i)%Q /\ (u' i == u i)%Q) ->
  trapz_equations tf N x v u -> trapz_equations tf N x' v' u'.
Proof.
  intros HX (H1 & H2 & H3 & H4 & HC). unfold trapz_equations.
  destruct (HX 0%nat ltac:(lia)) as (X0 & V0 & _).
  destruct (HX N ltac:(lia)) as (XN & VN & _).
  rewrite X0, XN, V0, VN. repeat (split; [assumption|]).
  intros i Hi.
  destruct (HX i ltac:(lia)) as (Xi & Vi & Ui).
  destruct (HX (i + 1)%nat ltac:(lia)) as (Xj & Vj & Uj).
  rewrite Xi, Xj, Vi, Vj, Ui, Uj. apply (HC i Hi).
Qed.

Lemma ramp_values tf N i :
  (i <= N)%nat ->
  value_at (ramp tf N) (Trapz.X (trapz_globals tf N)) i = ramp_x tf N i
  /\ value_at (ramp tf N) (Trapz.V (trapz_globals tf N)) i = ramp_v tf N i
  /\ value_at (ramp tf N) (Trapz.U (trapz_globals tf N)) i = ramp_u tf N i.
Proof.
  intros H. cbn [trapz_globals Trapz.X Trapz.V Trapz.U].
  rewrite !value_at_vcol by lia. cbn [ramp v_var].
  split; [|split].
  - cbn [Nat.add]. now rewrite (proj2 (Nat.ltb_lt i (N + 1))) by lia.
  - destruct (Nat.ltb_spec (N + 1 + i) (N + 1)); [lia|].
    rewrite (proj2 (Nat.ltb_lt (N + 1 + i) (2 * (N + 1)))) by lia.
    f_equal. lia.
  - destruct (Nat.ltb_spec (2 * (N + 1) + i) (N + 1)); [lia|].
    destruct (Nat.ltb_spec (2 * (N + 1) + i) (2 * (N + 1))); [lia|].
    f_equal. lia.
Qed.

(** X6.  The assembled trapezoidal problem has a feasible point exactly
    when there are at least two segments and the horizon is not zero: with
    fewer segments the block cannot both start and end at rest and move. *)
Theorem trapz_feasible_iff (tf : Q) (N : nat) :
  exists g J o,
    Trapz.build tf N = Ok (g, J, o)
    /\ ((exists r, feasible r o) <-> (2 <= N)%nat /\ ~ (tf == 0)%Q).
Proof.
  destruct (trapz_build_full tf N) as (o & E & _ & C & _).
  do 3 eexists. split; [exact E|]. split.
  - intros (r & F). apply (trapz_feasible_equations r tf N o C) in F.
    exact (trapz_equations_need_two_segments tf N _ _ _ F).
  - intros (HN & Htf). exists (ramp tf N).
    apply (trapz_feasible_equations (ramp tf N) tf N o C).
    apply (trapz_equations_ext tf N (ramp_x tf N) (ramp_v tf N) (ramp_u tf N)).
    + intros i Hi. destruct (ramp_values tf N i Hi) as (-> & -> & ->).
      repeat split; reflexivity.
    + now apply ramp_equations.
Qed.

(* ------------------------------------------------------------------ *)
(** ** Initial guesses *)

Lemma last_guess_app a b k :
  last_guess (a ++ b) k
  = match last_guess b k with Some w => Some w | None => last_guess a k end.
Proof.
  induction a as [|[k' v] a IH]; cbn [app last_guess].
  - now destruct (last_guess b k).
  - rewrite IH. destruct (last_guess b k); reflexivity.
Qed.

Lemma last_guess_in l k v : last_guess l k = Some v -> In (k, v) l.
Proof.
  induction l as [|[k' w] l IH]; cbn [last_guess]; [discriminate|].
  destruct (last_guess l k) as [u|].
  - intros E. injection E as ->. right. now apply IH.
  - destruct (Nat.eqb_spec k k') as [->|]; [|discriminate].
    intros E. injection E as ->. now left.
Qed.

Lemma last_guess_none l k :
  (forall v, ~ In (k, v) l) -> last_guess l k = None.
Proof.
  intros H. destruct (last_guess l k) as [v|] eqn:E; [|reflexivity].
  apply last_guess_in in E. now apply H in E.
Qed.

Lemma guess_pairs_vars (f : nat -> nat) l vs :
  guess_pairs (map (fun p => Var (f p)) l) vs = combine (map f l) vs.
Proof.
  unfold guess_pairs. revert vs.
  induction l as [|p l IH]; intros [|v vs]; cbn [map combine flat_map app];
    try reflexivity.
  now rewrite IH.
Qed.

Lemma in_combine_shift b (vs : list Q) : forall s k v,
  In (k, v) (combine (map (fun p => b + p)%nat (seq s (length vs))) vs) ->
  (b + s <= k < b + s + length vs)%nat.
Proof.
  induction vs as [|w vs IH]; intros s k v H; cbn [length seq map combine] in H.
  - destruct H.
  - destruct H as [E|H].
    + injection E as <- _. cbn [length]. lia.
    + apply IH in H. cbn [length]. lia.
Qed.

Lemma last_guess_combine b (vs : list Q) : forall s i,
  (i < length vs)%nat ->
  last_guess (combine (map (fun p => b + p)%nat (seq s (length vs))) vs) (b + (s + i))
  = nth_error vs i.
Proof.
  induction vs as [|w vs IH]; intros s i H; cbn [length] in H; [lia|].
  cbn [length seq map combine last_guess]. destruct i as [|i].
  - rewrite last_guess_none.
    + rewrite Nat.add_0_r, Nat.eqb_refl. reflexivity.
    + intros v Hv. apply in_combine_shift in Hv. lia.
  - replace (s + S i)%nat with (S s + i)%nat by lia.
    rewrite IH by lia. cbn [nth_error].
    destruct (nth_error vs i) eqn:E; [reflexivity|].
    apply nth_error_None in E. lia.
Qed.

(** The guess recorded by [set_initial(A, vs)] for the [p]-th entry of a
    block of decision variables. *)
Lemma last_guess_block base (vs : list Q) p :
  (p < length vs)%nat ->
  last_guess (guess_pairs (map (fun q => Var (base + q)) (seq 0 (length vs))) vs)
             (base + p)
  = nth_error vs p.
Proof.
  intros H. rewrite guess_pairs_vars.
  exact (last_guess_combine base vs 0 p H).
Qed.

Lemma in_guess_block base (vs : list Q) k v :
  In (k, v) (guess_pairs (map (fun q => Var (base + q)) (seq 0 (length vs))) vs) ->
  (base <= k < base + length vs)%nat /\ In v vs.
Proof.
  rewrite guess_pairs_vars. intros H. split.
  - apply in_combine_shift in H. lia.
  - now apply in_combine_r in H.
Qed.

(** The block-move cell, with everything it leaves in the [Opti]
    object. *)
Lemma blockmove_build_full tf N :
  exists f,
    BlockMove.derive_dynamics = Ok f
    /\ BlockMove.build tf N
       = Ok ({| BlockMove.g_grid := hs_grid tf N 2 1; BlockMove.g_f := f;
                BlockMove.g_simp := [simpson_row N];
                BlockMove.g_J := simpson_J N (2 * (2 * N + 1)) |},
             {| nvars := (2 * (2 * N + 1) + 1 * (2 * N + 1))%nat;
                constraints := hs_boundary N 2 [0; 0] [1; 0];
                objective := Some (simpson_J N (2 * (2 * N + 1)));
                initial := hs_initial N 2 (blockmove_guess tf N) |}).
Proof.
  destruct blockmove_dynamics as (f & Ef & Df). exists f.
  pose proof (hs_decision_variables_full tf N 2 1) as E1.
  set (o1 := {| nvars := (2 * (2 * N + 1) + 1 * (2 * N + 1))%nat; constraints := [];
                objective := None; initial := [] |}) in E1.
  pose proof (objective_run N (vmat 0 2 (2 * N + 1)) (linspace 0 tf (2 * N + 1))
                (2 * (2 * N + 1)) o1) as E2.
  fold (hs_grid tf N 2 1) in E2.
  set (o2 := {| nvars := nvars o1; constraints := constraints o1;
                objective := Some (simpson_J N (2 * (2 * N + 1)));
                initial := initial o1 |}) in E2.
  pose proof (@pin_ends_run tf N 2 1 [0; 0]%Q [1; 0]%Q eq_refl eq_refl o2) as E3.
  set (o3 := {| nvars := nvars o2;
                constraints := constraints o2 ++ hs_boundary N 2 [0; 0] [1; 0];
                objective := objective o2; initial := initial o2 |}) in E3.
  pose proof (@dynamics_constraints_run N 2 1 0 (2 * (2 * N + 1))
                (linspace 0 tf (2 * N + 1)) f o3 Df) as E4.
  fold (hs_grid tf N 2 1) in E4.
  assert (E5 : BlockMove.initial_guess (hs_grid tf N 2 1) o3
               = Ok (tt, {| nvars := nvars o3; constraints := constraints o3;
                            objective := objective o3;
                            initial := hs_initial N 2 (blockmove_guess tf N) |})).
  { unfold BlockMove.initial_guess. cbn [hs_grid HermiteSimpson.X HermiteSimpson.U
                                          HermiteSimpson.t].
    rewrite linspace_length. fold (blockmove_guess tf N).
    erewrite bind_ok; [|apply set_initial_full].
    - rewrite set_initial_full by reflexivity. reflexivity.
    - unfold shape, blockmove_guess, of_rows. cbn [vmat nrow ncol hd length].
      now rewrite linspace_length. }
  split; [exact Ef|].
  unfold BlockMove.build, BlockMove.cell.
  rewrite (bind_ok _ _ _ E1), (bind_lift _ _ Ef), (bind_ok _ _ _ E2).
  unfold BlockMove.boundary_constraints. cbn [map] in E3.
  rewrite (bind_ok _ _ _ E3), (bind_ok _ _ _ E4), (bind_ok _ _ _ E5).
  reflexivity.
Qed.

(** The cart-pole cell, likewise. *)
Lemma cartpole_build_full tf N :
  exists f,
    CartPole.derive_dynamics = Ok f
    /\ CartPole.build tf N
       = Ok ({| CartPole.g_grid := hs_grid tf N 4 1; CartPole.g_f := f;
                CartPole.g_simp := [simpson_row N];
                CartPole.g_J := simpson_J N (4 * (2 * N + 1)) |},
             {| nvars := (4 * (2 * N + 1) + 1 * (2 * N + 1))%nat;
                constraints := hs_boundary N 4 CartPole.x_init CartPole.x_final;
                objective := Some (simpson_J N (4 * (2 * N + 1)));
                initial := hs_initial N 4 (cartpole_guess N) |}).
Proof.
  destruct cartpole_dynamics as (f & Ef & Df). exists f.
  change CartPole.nx with 4%nat in Df. change CartPole.nu with 1%nat in Df.
  pose proof (hs_decision_variables_full tf N 4 1) as E1.
  set (o1 := {| nvars := (4 * (2 * N + 1) + 1 * (2 * N + 1))%nat; constraints := [];
                objective := None; initial := [] |}) in E1.
  pose proof (objective_run N (vmat 0 4 (2 * N + 1)) (linspace 0 tf (2 * N + 1))
                (4 * (2 * N + 1)) o1) as E2.
  fold (hs_grid tf N 4 1) in E2.
  set (o2 := {| nvars := nvars o1; constraints := constraints o1;
                objective := Some (simpson_J N (4 * (2 * N + 1)));
                initial := initial o1 |}) in E2.
  pose proof (@pin_ends_run tf N 4 1 CartPole.x_init CartPole.x_final
                eq_refl eq_refl o2) as E3.
  set (o3 := {| nvars := nvars o2;
                constraints := constraints o2
                               ++ hs_boundary N 4 CartPole.x_init CartPole.x_final;
                objective := objective o2; initial := initial o2 |}) in E3.
  pose proof (@dynamics_constraints_run N 4 1 0 (4 * (2 * N + 1))
                (linspace 0 tf (2 * N + 1)) f o3 Df) as E4.
  fold (hs_grid tf N 4 1) in E4.
  assert (E5 : CartPole.initial_guess N (hs_grid tf N 4 1) o3
               = Ok (tt, {| nvars := nvars o3; constraints := constraints o3;
                            objective := objective o3;
                            initial := hs_initial N 4 (cartpole_guess N) |})).
  { unfold CartPole.initial_guess. cbn [hs_grid HermiteSimpson.X HermiteSimpson.U].
    fold (cartpole_guess N).
    erewrite bind_ok; [|apply set_initial_full].
    - rewrite set_initial_full by reflexivity. reflexivity.
    - unfold shape, cartpole_guess, of_rows. cbn [vmat nrow ncol].
      cbn [linspace_T CartPole.x_init CartPole.x_final combine map hd length fst snd].
      now rewrite linspace_length. }
  split; [exact Ef|].
  unfold CartPole.build, CartPole.cell.
  change CartPole.nx with 4%nat. change CartPole.nu with 1%nat.
  rewrite (bind_ok _ _ _ E1), (bind_lift _ _ Ef), (bind_ok _ _ _ E2).
  unfold CartPole.boundary_constraints.
  rewrite (bind_ok _ _ _ E3), (bind_ok _ _ _ E4), (bind_ok _ _ _ E5).
  reflexivity.
Qed.

Lemma concat_repeat {A} (v : A) n m :
  concat (repeat (repeat v n) m) = repeat v (m * n).
Proof.
  induction m as [|m IH]; [reflexivity|].
  cbn [repeat concat Nat.mul]. now rewrite IH, repeat_app.
Qed.

Lemma entries_np_full n m v : entries (np_full_2d (n, m) v) = repeat v (m * n).
Proof. unfold entries. cbn [np_full_2d cols fst snd]. apply concat_repeat. Qed.

Lemma nth_concat_blocks {A} (F : nat -> list A) n d m : forall s j i,
  (forall j, length (F j) = n) -> (j < m)%nat -> (i < n)%nat ->
  nth (j * n + i) (concat (map F (seq s m))) d = nth i (F (s + j)%nat) d.
Proof.
  induction m as [|m IH]; intros s j i HF Hj Hi; [lia|].
  cbn [seq map concat]. destruct j as [|j].
  - cbn [Nat.mul Nat.add]. rewrite app_nth1 by (rewrite HF; exact Hi).
    now rewrite Nat.add_0_r.
  - rewrite app_nth2 by (rewrite HF; lia). rewrite HF.
    replace (S j * n + i - n)%nat with (j * n + i)%nat by lia.
    rewrite IH by (try assumption; lia). f_equal. f_equal. lia.
Qed.

Lemma length_concat_blocks {A} (F : nat -> list A) n (l : list nat) :
  (forall j, length (F j) = n) -> length (concat (map F l)) = (length l * n)%nat.
Proof.
  intros HF. induction l as [|a l IH]; [reflexivity|].
  cbn [map concat length Nat.mul]. now rewrite length_app, HF, IH.
Qed.

Lemma length_entries_of_rows (rows : list (list Q)) :
  length (entries (of_rows 0 rows)) = (length (hd [] rows) * length rows)%nat.
Proof.
  unfold entries, of_rows. cbn [cols].
  rewrite (length_concat_blocks _ (length rows)).
  - now rewrite length_seq.
  - intros j. apply length_map.
Qed.

(** Entry [(i, j)] of a numeric array sits at position [j * rows + i] of
    the column-major order in which [set_initial] reads it. *)
Lemma nth_entries_of_rows (rows : list (list Q)) j i :
  (j < length (hd [] rows))%nat -> (i < length rows)%nat ->
  nth (j * length rows + i) (entries (of_rows 0 rows)) 0%Q
  = nth j (nth i rows []) 0%Q.
Proof.
  intros Hj Hi. unfold entries, of_rows. cbn [cols].
  rewrite (nth_concat_blocks _ (length rows)) by (try assumption; intros; apply length_map).
  cbn [Nat.add].
  rewrite (nth_indep _ 0%Q ((fun r => nth j r 0%Q) [])) by (rewrite length_map; exact Hi).
  apply (map_nth (fun r => nth j r 0%Q)).
Qed.

(** What the solver starts from in a Hermite-Simpson cell: the state
    guess, entry by entry, and zero controls. *)
Lemma guess_state N nx (V0 : DM) p :
  length (entries V0) = ((2 * N + 1) * nx)%nat -> (p < (2 * N + 1) * nx)%nat ->
  v_var (guess_env (hs_initial N nx V0)) p = nth p (entries V0) 0%Q.
Proof.
  intros HL Hp. cbn [guess_env v_var]. unfold hs_initial.
  unfold np_zeros. rewrite last_guess_app, !entries_vmat, entries_np_full.
  rewrite last_guess_none.
  - rewrite <- HL.
    pose proof (last_guess_block 0 (entries V0) p ltac:(lia)) as E.
    cbn [Nat.add] in E |- *. rewrite E.
    now rewrite (nth_error_nth' _ 0%Q) by lia.
  - intros v Hv.
    replace ((2 * N + 1) * 1)%nat
      with (length (repeat 0%Q ((2 * N + 1) * 1))) in Hv at 1
      by apply repeat_length.
    apply in_guess_block in Hv. lia.
Qed.

Lemma guess_control N nx (V0 : DM) j :
  (j < 2 * N + 1)%nat ->
  v_var (guess_env (hs_initial N nx V0)) (nx * (2 * N + 1) + j) = 0%Q.
Proof.
  intros Hj. cbn [guess_env v_var]. unfold hs_initial.
  unfold np_zeros. rewrite last_guess_app, !entries_vmat, entries_np_full.
  replace ((2 * N + 1) * 1)%nat
    with (length (repeat 0%Q ((2 * N + 1) * 1))) at 1
    by apply repeat_length.
  rewrite last_guess_block by (rewrite repeat_length; lia).
  now rewrite nth_error_repeat by lia.
Qed.

Lemma Forall2_map_seq {A B} (P : A -> B -> Prop) (f : nat -> A) d (q : list B) :
  forall s,
  (forall i, (i < length q)%nat -> P (f (s + i)%nat) (nth i q d)) ->
  Forall2 P (map f (seq s (length q))) q.
Proof.
  induction q as [|b q IH]; intros s H; cbn [length seq map]; constructor.
  - specialize (H 0%nat). rewrite Nat.add_0_r in H. apply H. cbn [length]. lia.
  - apply IH. intros i Hi. replace (S s + i)%nat with (s + S i)%nat by lia.
    apply (H (S i)). cbn [length]. lia.
Qed.

(** A state column takes the values [q] when each of its variables
    does. *)
Lemma Forall2_vmat_col r base n j (q : list Q) :
  length q = n ->
  (forall i, (i < n)%nat -> (v_var r (base + j * n + i) == nth i q 0)%Q) ->
  Forall2 (fun e c => eval r e == c)%Q (vmat_col base n j) q.
Proof.
  intros <- H. unfold vmat_col.
  apply (Forall2_map_seq _ (fun i => Var (base + j * length q + i)) 0%Q q 0).
  intros i Hi. cbn [eval Nat.add]. now apply H.
Qed.

Lemma hs_boundary_sat r N nx x0 xf :
  length x0 = nx -> length xf = nx ->
  (forall i, (i < nx)%nat -> (v_var r i == nth i x0 0)%Q) ->
  (forall i, (i < nx)%nat -> (v_var r (2 * N * nx + i) == nth i xf 0)%Q) ->
  Forall (sat r) (hs_boundary N nx x0 xf).
Proof.
  intros L0 Lf H0 Hf. unfold hs_boundary.
  constructor; [|constructor; [|constructor]]; cbn [sat]; apply Forall2_map_Const.
  - apply Forall2_vmat_col; [exact L0|].
    intros i Hi. replace (0 + 0 * nx + i)%nat with i by lia. now apply H0.
  - apply Forall2_vmat_col; [exact Lf|].
    intros i Hi. replace (0 + (2 * N + 1 - 1) * nx + i)%nat
      with (2 * N * nx + i)%nat by lia.
    now apply Hf.
Qed.

Lemma pinned_feasible N nx x0 xf :
  (1 <= N)%nat -> (1 <= nx)%nat -> length x0 = nx -> length xf = nx ->
  Forall (sat (pinned N nx x0 xf)) (hs_boundary N nx x0 xf).
Proof.
  intros HN Hnx L0 Lf. apply hs_boundary_sat; try assumption.
  - intros i Hi. cbn [pinned v_var].
    destruct (Nat.ltb_spec i nx); [reflexivity|lia].
  - intros i Hi. cbn [pinned v_var].
    destruct (Nat.ltb_spec (2 * N * nx + i) nx) as [H|H]; [nia|].
    replace (2 * N * nx + i - 2 * N * nx)%nat with i by lia. reflexivity.
Qed.

(** With no segment the grid has one point, and the boundary
    constraints ask for two different positions there. *)
Lemma hs_boundary_one_point r nx a b x0 xf :
  ~ (a == b)%Q ->
  ~ Forall (sat r) (hs_boundary 0 (S nx) (a :: x0) (b :: xf)).
Proof.
  intros Hab H. unfold hs_boundary in H.
  inversion_clear H as [|? ? H1 H']. inversion_clear H' as [|? ? H2 _].
  cbn in H1, H2.
  inversion_clear H1 as [|? ? ? ? E1 _]. inversion_clear H2 as [|? ? ? ? E2 _].
  apply Hab. now rewrite <- E1, <- E2.
Qed.

(** X7. Hermite-Simpson cells: the assembled problem has a feasible point
    exactly when there is at least one segment.  With [N = 0] the single
    grid point is pinned to both the initial and the final state. *)
Theorem hs_feasible_iff (tf : Q) (N : nat) :
  (exists G o, BlockMove.build tf N = Ok (G, o)
     /\ ((exists r, feasible r o) <-> (1 <= N)%nat))
  /\ (exists G o, CartPole.build tf N = Ok (G, o)
     /\ ((exists r, feasible r o) <-> (1 <= N)%nat)).
Proof.
  split.
  - destruct (blockmove_build_full tf N) as (f & _ & E).
    eexists _, _. split; [exact E|]. unfold feasible. cbn [constraints]. split.
    + intros (r & H). destruct N as [|N]; [|lia].
      exfalso. revert H. apply hs_boundary_one_point. discriminate.
    + intros HN. exists (pinned N 2 [0; 0] [1; 0]).
      apply pinned_feasible; [exact HN|lia|reflexivity|reflexivity].
  - destruct (cartpole_build_full tf N) as (f & _ & E).
    eexists _, _. split; [exact E|]. unfold feasible. cbn [constraints]. split.
    + intros (r & H). destruct N as [|N]; [|lia].
      exfalso. revert H. apply hs_boundary_one_point. discriminate.
    + intros HN. exists (pinned N 4 CartPole.x_init CartPole.x_final).
      apply pinned_feasible; [exact HN|lia|reflexivity|reflexivity].
Qed.

Lemma linspace_nth_first a b n :
  (nth 0 (linspace a b (n + 1)) 0 == a)%Q.
Proof.
  destruct n as [|n].
  - change (0 + 1)%nat with 1%nat. rewrite linspace_one. cbn [nth]. ring.
  - rewrite linspace_nth by lia. change (float_of_nat 0) with 0%Q. ring.
Qed.

Lemma length_cartpole_guess N :
  length (entries (cartpole_guess N)) = ((2 * N + 1) * 4)%nat.
Proof.
  unfold cartpole_guess. rewrite length_entries_of_rows.
  cbn [linspace_T CartPole.x_init CartPole.x_final combine map hd length fst snd].
  now rewrite linspace_length.
Qed.

(** The cart-pole state guess at grid point [j]: component [i] is sample
    [j] of the line from [x_init[i]] to [x_final[i]]. *)
Lemma cartpole_guess_value N j i :
  (j < 2 * N + 1)%nat -> (i < 4)%nat ->
  v_var (guess_env (hs_initial N 4 (cartpole_guess N))) (j * 4 + i)
  = nth j (linspace (nth i CartPole.x_init 0) (nth i CartPole.x_final 0) (2 * N + 1)) 0%Q.
Proof.
  intros Hj Hi. rewrite guess_state by (try apply length_cartpole_guess; lia).
  unfold cartpole_guess.
  change 4%nat with (length (linspace_T CartPole.x_init CartPole.x_final (2 * N + 1))) at 1.
  rewrite nth_entries_of_rows.
  - destruct i as [|[|[|[|i]]]]; try reflexivity. lia.
  - cbn [linspace_T CartPole.x_init CartPole.x_final combine map hd fst snd].
    now rewrite linspace_length.
  - exact Hi.
Qed.

Lemma cartpole_guess_feasible N :
  (1 <= N)%nat ->
  Forall (sat (guess_env (hs_initial N 4 (cartpole_guess N))))
         (hs_boundary N 4 CartPole.x_init CartPole.x_final).
Proof.
  intros HN. apply hs_boundary_sat; try reflexivity.
  - intros i Hi. replace i with (0 * 4 + i)%nat at 1 by lia.
    rewrite cartpole_guess_value by lia. apply linspace_nth_first.
  - intros i Hi. replace (2 * N * 4 + i)%nat with ((2 * N) * 4 + i)%nat by lia.
    rewrite cartpole_guess_value by lia.
    rewrite linspace_nth_last by lia. reflexivity.
Qed.

Lemma guess_cost_zero N nx (V0 : DM) :
  (eval (guess_env (hs_initial N nx V0)) (simpson_J N (nx * (2 * N + 1))) == 0)%Q.
Proof.
  rewrite eval_simpson_J. unfold simpson_sum, Qsum.
  rewrite (fold_Qplus_ext _ (fun _ => 0%Q)).
  - induction (seq 0 (2 * N + 1)) as [|a l IH]; [reflexivity|].
    cbn [map fold_right]. rewrite IH. ring.
  - intros i Hi. apply in_seq in Hi. unfold control_at.
    rewrite entry_vmat_row by lia. cbn [eval].
    replace (nx * (2 * N + 1) + i * 1 + 0)%nat with (nx * (2 * N + 1) + i)%nat by lia.
    rewrite guess_control by lia. ring.
Qed.

Lemma simpson_J_nonneg r N bu : (0 <= eval r (simpson_J N bu))%Q.
Proof. rewrite eval_simpson_J. apply simpson_sum_nonneg. Qed.

(** X8. Cart-pole cell: for at least one segment, the initial guess (the
    straight line from [x_init] to [x_final], zero force) satisfies every
    constraint of the assembled problem and has cost zero, which no point
    undercuts: the problem as assembled is already solved by its guess. *)
Theorem cartpole_guess_optimal (tf : Q) (N : nat) :
  (1 <= N)%nat ->
  exists G o J,
    CartPole.build tf N = Ok (G, o)
    /\ objective o = Some J
    /\ feasible (guess_env (initial o)) o
    /\ (eval (guess_env (initial o)) J == 0)%Q
    /\ forall r, (eval (guess_env (initial o)) J <= eval r J)%Q.
Proof.
  intros HN. destruct (cartpole_build_full tf N) as (f & _ & E).
  eexists _, _, _. split; [exact E|]. cbn [objective initial]. split; [reflexivity|].
  unfold feasible. cbn [constraints]. split; [|split].
  - now apply cartpole_guess_feasible.
  - apply guess_cost_zero.
  - intros r. rewrite guess_cost_zero. apply simpson_J_nonneg.
Qed.

Lemma cartpole_guess_optimal_witness :
  exists G o J,
    CartPole.build 2 25 = Ok (G, o)
    /\ objective o = Some J
    /\ feasible (guess_env (initial o)) o
    /\ (eval (guess_env (initial o)) J == 0)%Q
    /\ forall r, (eval (guess_env (initial o)) J <= eval r J)%Q.
Proof. apply (cartpole_guess_optimal 2 25). lia. Defined.

Lemma length_blockmove_guess tf N :
  length (entries (blockmove_guess tf N)) = ((2 * N + 1) * 2)%nat.
Proof.
  unfold blockmove_guess. rewrite length_entries_of_rows.
  cbn [hd length]. now rewrite linspace_length.
Qed.

(** The block-move state guess at grid point [j]: position [t[j]],
    velocity one. *)
Lemma blockmove_guess_value tf N j :
  (j < 2 * N + 1)%nat ->
  v_var (guess_env (hs_initial N 2 (blockmove_guess tf N))) (j * 2)
  = nth j (linspace 0 tf (2 * N + 1)) 0%Q
  /\ v_var (guess_env (hs_initial N 2 (blockmove_guess tf N))) (j * 2 + 1) = 1%Q.
Proof.
  intros Hj.
  assert (L : (j < length (hd [] [linspace 0 tf (2 * N + 1); np_full (2 * N + 1) 1%Q]))%nat)
    by (cbn [hd]; now rewrite linspace_length).
  split.
  - rewrite guess_state by (try apply length_blockmove_guess; lia).
    unfold blockmove_guess.
    pose proof (nth_entries_of_rows [linspace 0 tf (2 * N + 1); np_full (2 * N + 1) 1%Q]
                  j 0 L ltac:(cbn [length]; lia)) as E.
    cbn [length nth] in E. rewrite Nat.add_0_r in E. exact E.
  - rewrite guess_state by (try apply length_blockmove_guess; lia).
    unfold blockmove_guess.
    pose proof (nth_entries_of_rows [linspace 0 tf (2 * N + 1); np_full (2 * N + 1) 1%Q]
                  j 1 L ltac:(cbn [length]; lia)) as E.
    cbn [length nth] in E. rewrite E. unfold np_full.
    apply nth_repeat_lt. exact Hj.
Qed.

(** X9. Block-move Hermite-Simpson cell: the initial guess is never a
    feasible point of the assembled problem.  It guesses velocity one at
    every grid point, and the boundary constraints pin the velocity to
    zero at the first one. *)
Theorem blockmove_guess_infeasible (tf : Q) (N : nat) :
  exists G o,
    BlockMove.build tf N = Ok (G, o)
    /\ (forall j, (j <= 2 * N)%nat ->
          v_var (guess_env (initial o)) (j * 2)
          = nth j (HermiteSimpson.t (BlockMove.g_grid G)) 0%Q
          /\ v_var (guess_env (initial o)) (j * 2 + 1) = 1%Q)
    /\ ~ feasible (guess_env (initial o)) o.
Proof.
  destruct (blockmove_build_full tf N) as (f & _ & E).
  eexists _, _. split; [exact E|]. cbn [initial BlockMove.g_grid hs_grid HermiteSimpson.t].
  split.
  - intros j Hj. apply blockmove_guess_value. lia.
  - unfold feasible. cbn [constraints]. unfold hs_boundary. intros H.
    inversion_clear H as [|? ? H1 _]. cbn [sat map vmat_col seq] in H1.
    inversion_clear H1 as [|? ? ? ? _ H2]. inversion_clear H2 as [|? ? ? ? E2 _].
    cbn [eval] in E2.
    destruct (blockmove_guess_value tf N 0 ltac:(lia)) as [_ V0].
    cbn [Nat.mul Nat.add] in V0, E2. rewrite V0 in E2. discriminate E2.
Qed.

Lemma last_guess_block_n base n (vs : list Q) p :
  length vs = n -> (p < n)%nat ->
  last_guess (guess_pairs (map (fun q => Var (base + q)) (seq 0 n)) vs) (base + p)
  = nth_error vs p.
Proof. intros <-. apply last_guess_block. Qed.

Lemma in_guess_block_n base n (vs : list Q) k v :
  length vs = n ->
  In (k, v) (guess_pairs (map (fun q => Var (base + q)) (seq 0 n)) vs) ->
  (base <= k < base + n)%nat.
Proof. intros <- H. now apply in_guess_block in H. Qed.

Lemma trapz_initial_blocks tf N :
  trapz_initial tf N
  = guess_pairs (map (fun q => Var (0 + q)) (seq 0 (N + 1))) (linspace 0 tf (N + 1))
    ++ guess_pairs (map (fun q => Var (N + 1 + q)) (seq 0 (N + 1))) (repeat 1%Q (N + 1))
    ++ guess_pairs (map (fun q => Var (2 * (N + 1) + q)) (seq 0 (N + 1)))
                   (repeat 0%Q (N + 1)).
Proof.
  unfold trapz_initial. cbn [trapz_globals Trapz.X Trapz.V Trapz.U].
  rewrite !entries_vcol_list. unfold np_zeros, shape. cbn [vcol nrow ncol].
  rewrite !entries_np_full, Nat.mul_1_l.
  unfold entries. cbn [colvec cols concat]. now rewrite app_nil_r.
Qed.

(** What the solver starts from in the trapezoidal cell: position along
    the time grid, velocity one, force zero. *)
Lemma trapz_guess_values tf N i :
  (i <= N)%nat ->
  v_var (guess_env (trapz_initial tf N)) i = nth i (linspace 0 tf (N + 1)) 0%Q
  /\ v_var (guess_env (trapz_initial tf N)) (N + 1 + i) = 1%Q
  /\ v_var (guess_env (trapz_initial tf N)) (2 * (N + 1) + i) = 0%Q.
Proof.
  intros Hi. cbn [guess_env v_var]. rewrite trapz_initial_blocks.
  pose proof (linspace_length 0 tf (N + 1)) as Lt.
  pose proof (repeat_length 1%Q (N + 1)) as L1.
  pose proof (repeat_length 0%Q (N + 1)) as L0.
  pose proof (last_guess_block_n 0 (N + 1) _ i Lt ltac:(lia)) as EX.
  pose proof (last_guess_block_n (N + 1) (N + 1) _ i L1 ltac:(lia)) as EV.
  pose proof (last_guess_block_n (2 * (N + 1)) (N + 1) _ i L0 ltac:(lia)) as EU.
  rewrite (nth_error_nth' _ 0%Q) in EX by lia.
  rewrite nth_error_repeat in EV, EU by lia.
  set (gX := guess_pairs _ (linspace 0 tf (N + 1))) in *.
  set (gV := guess_pairs _ (repeat 1%Q (N + 1))) in *.
  set (gU := guess_pairs _ (repeat 0%Q (N + 1))) in *.
  assert (NV : forall k, (k < N + 1)%nat -> last_guess gV k = None).
  { intros k Hk. apply last_guess_none. intros v Hv.
    apply (in_guess_block_n _ _ _ _ _ L1) in Hv. lia. }
  assert (NU : forall k, (k < 2 * (N + 1))%nat -> last_guess gU k = None).
  { intros k Hk. apply last_guess_none. intros v Hv.
    apply (in_guess_block_n _ _ _ _ _ L0) in Hv. lia. }
  rewrite !last_guess_app. split; [|split].
  - rewrite NU, NV by lia. cbn [Nat.add] in EX. now rewrite EX.
  - rewrite NU by lia. now rewrite EV.
  - now rewrite EU.
Qed.

(** X10. Trapezoidal cell: the initial guess is position along the time
    grid, velocity one and force zero; it satisfies the velocity
    constraint of every segment, and is never a feasible point of the
    assembled problem: the boundary constraints pin the first velocity to
    zero. *)
Theorem trapz_guess_infeasible (tf : Q) (N : nat) :
  exists g J o,
    Trapz.build tf N = Ok (g, J, o)
    /\ (forall i, (i <= N)%nat ->
          value_at (guess_env (initial o)) (Trapz.X g) i = nth i (Trapz.t g) 0%Q
          /\ value_at (guess_env (initial o)) (Trapz.V g) i = 1%Q
          /\ value_at (guess_env (initial o)) (Trapz.U g) i = 0%Q)
    /\ (forall i, (i < N)%nat ->
          In (trapz_x_constr tf N (N + 1) (2 * (N + 1)) i) (constraints o)
          /\ sat (guess_env (initial o)) (trapz_x_constr tf N (N + 1) (2 * (N + 1)) i))
    /\ ~ feasible (guess_env (initial o)) o.
Proof.
  destruct (trapz_build_full tf N) as (o & E & _ & C & _ & I).
  eexists _, _, o. split; [exact E|]. rewrite I.
  cbn [trapz_globals Trapz.X Trapz.V Trapz.U Trapz.t].
  split; [|split].
  - intros i Hi. rewrite !value_at_vcol by lia. cbn [Nat.add].
    now apply trapz_guess_values.
  - intros i Hi. split.
    + rewrite C. apply in_or_app. right. apply in_flat_map.
      exists i. split; [apply in_seq; lia|]. unfold trapz_pair. right. now left.
    + destruct (trapz_guess_values tf N i ltac:(lia)) as (_ & V0 & U0).
      destruct (trapz_guess_values tf N (i + 1) ltac:(lia)) as (_ & V1 & U1).
      apply sat_trapz_x_constr; [exact Hi|].
      rewrite V0, V1, U0, U1. field. apply float_of_nat_nz. lia.
  - intros F. apply (trapz_feasible_equations _ tf N o C) in F.
    destruct F as (_ & _ & F & _).
    cbn [trapz_globals Trapz.V] in F. rewrite value_at_vcol in F by lia.
    destruct (trapz_guess_values tf N 0 ltac:(lia)) as (_ & V0 & _).
    rewrite V0 in F. discriminate F.
Qed.

(* ------------------------------------------------------------------ *)
(** ** The dynamics functions *)

Lemma blockmove_f_double_integrator f p v u :
  BlockMove.derive_dynamics = Ok f -> call f [[p; v]; [u]] = Ok [v; u].
Proof.
  intros E. cbv in E. injection E as <-. reflexivity.
Qed.

(** X12. The constraints the trapezoidal cell writes by hand are the
    trapezoidal rule for the dynamics function of the block-move cell: at
    a feasible point, over every segment, each state component changes by
    [h/2] times the sum of that component of [f] at the two ends. *)
Theorem trapz_collocates_blockmove_dynamics
  (tf : Q) (N : nat) (r : env) (g : Trapz.globals) (J : expr) (o : Opti)
  (f : Function) :
  Trapz.build tf N = Ok (g, J, o) ->
  BlockMove.derive_dynamics = Ok f ->
  feasible r o ->
  forall i, (i < N)%nat ->
  exists fl fr,
    call f [trapz_state g i; trapz_control g i] = Ok fl
    /\ call f [trapz_state g (i + 1); trapz_control g (i + 1)] = Ok fr
    /\ forall k, (k < 2)%nat ->
         (component r (trapz_state g (i + 1)) k - component r (trapz_state g i) k
          == tf / float_of_nat N / 2 * (component r fr k + component r fl k))%Q.
Proof.
  intros E Ef F i Hi. destruct (trapz_build_inv tf N g J o E) as [-> C].
  apply (trapz_feasible_equations r tf N o C) in F.
  destruct F as (_ & _ & _ & _ & F). destruct (F i Hi) as [Fx Fv].
  unfold trapz_state, trapz_control.
  rewrite !(blockmove_f_double_integrator f _ _ _ Ef).
  eexists _, _. split; [reflexivity|]. split; [reflexivity|].
  intros [|[|k]] Hk; [exact Fx|exact Fv|lia].
Qed.

Lemma trapz_collocates_blockmove_dynamics_witness :
  exists g J o f,
    Trapz.build 1 2 = Ok (g, J, o)
    /\ BlockMove.derive_dynamics = Ok f
    /\ feasible two_segments o
    /\ exists fl fr,
         call f [trapz_state g 0; trapz_control g 0] = Ok fl
         /\ call f [trapz_state g (0 + 1); trapz_control g (0 + 1)] = Ok fr
         /\ forall k, (k < 2)%nat ->
              (component two_segments (trapz_state g (0 + 1)) k
               - component two_segments (trapz_state g 0) k
               == 1 / float_of_nat 2 / 2
                  * (component two_segments fr k + component two_segments fl k))%Q.
Proof.
  pose (b := Trapz.build 1 2).
  assert (E : Trapz.build 1 2 = b) by reflexivity.
  vm_compute in b. unfold b in E. clear b.
  pose (d := BlockMove.derive_dynamics).
  assert (Ef : BlockMove.derive_dynamics = d) by reflexivity.
  vm_compute in d. unfold d in Ef. clear d.
  match type of E with _ = Ok (?g, ?J, ?o) => exists g, J, o end.
  match type of Ef with _ = Ok ?f => exists f end.
  match type of E with
  | _ = Ok (_, _, ?o) =>
      assert (F : feasible two_segments o)
        by (unfold feasible; cbn [constraints]; repeat constructor; reflexivity)
  end.
  split; [exact E|]. split; [exact Ef|]. split; [exact F|].
  exact (trapz_collocates_blockmove_dynamics 1 2 two_segments _ _ _ _ E Ef F 0%nat
           ltac:(lia)).
Defined.

(** X13. Cart-pole: the dynamics function the cell derives solves the
    manipulator equations.  Called on a state [(q1, q2, q3, q4)] and a
    force [u] it returns the two velocities followed by accelerations
    [(a1, a2)] with [M (a1, a2) = -C (q3, q4) + tau_g + B u], provided the
    cosine of the pole angle has square at most one (which keeps the mass
    matrix invertible). *)
Theorem cartpole_dynamics_manipulator (r : env) (q1 q2 q3 q4 u : expr) :
  (v_cos r (eval r q2) * v_cos r (eval r q2) <= 1)%Q ->
  exists f a1 a2,
    CartPole.derive_dynamics = Ok f
    /\ call f [[q1; q2; q3; q4]; [u]] = Ok [q3; q4; a1; a2]
    /\ manipulator_equations (v_cos r (eval r q2)) (v_sin r (eval r q2))
         (eval r q4) (eval r u) (eval r a1) (eval r a2).
Proof.
  intros Hc.
  pose (d := CartPole.derive_dynamics).
  assert (Ef : CartPole.derive_dynamics = d) by reflexivity.
  cbv in d. unfold d in Ef. clear d.
  match type of Ef with _ = Ok ?f =>
    exists f; pose (y := call f [[q1; q2; q3; q4]; [u]]);
    assert (Ec : call f [[q1; q2; q3; q4]; [u]] = y) by reflexivity
  end.
  cbv in y. unfold y in Ec. clear y.
  match type of Ec with _ = Ok [_; _; ?a1; ?a2] => exists a1, a2 end.
  split; [exact Ef|]. split; [exact Ec|]. clear Ef Ec.
  unfold manipulator_equations. cbn [eval].
  set (c := v_cos r (eval r q2)) in *. set (s := v_sin r (eval r q2)).
  set (w := eval r q4). set (uu := eval r u). set (z := eval r q3).
  unfold CartPole.m1, CartPole.m2, CartPole.l, CartPole.g.
  assert (D : ~ ((13 # 10) * (3 # 40) - (3 # 20) * c * ((3 # 20) * c) == 0)%Q)
    by (intros D; nra).
  split; field; exact D.
Qed.

Lemma cartpole_dynamics_manipulator_witness :
  (v_cos unit_controls (eval unit_controls (Var 1))
   * v_cos unit_controls (eval unit_controls (Var 1)) <= 1)%Q
  /\ exists f a1 a2,
       CartPole.derive_dynamics = Ok f
       /\ call f [[Var 0; Var 1; Var 2; Var 3]; [Var 4]] = Ok [Var 2; Var 3; a1; a2]
       /\ manipulator_equations
            (v_cos unit_controls (eval unit_controls (Var 1)))
            (v_sin unit_controls (eval unit_controls (Var 1)))
            (eval unit_controls (Var 3)) (eval unit_controls (Var 4))
            (eval unit_controls a1) (eval unit_controls a2).
Proof.
  assert (H : (v_cos unit_controls (eval unit_controls (Var 1))
               * v_cos unit_controls (eval unit_controls (Var 1)) <= 1)%Q)
    by (vm_compute; discriminate).
  split; [exact H|].
  exact (cartpole_dynamics_manipulator unit_controls (Var 0) (Var 1) (Var 2) (Var 3)
           (Var 4) H).
Defined.

(* ------------------------------------------------------------------ *)
(** ** The cost of a feasible trajectory *)

Lemma fold_nonneg_zero (f : nat -> Q) l :
  (forall i, In i l -> (0 <= f i)%Q) ->
  (fold_right Qplus 0 (map f l) <= 0)%Q ->
  forall i, In i l -> (f i == 0)%Q.
Proof.
  induction l as [|a l IH]; intros Hp Hs i Hi; [destruct Hi|].
  cbn [map fold_right] in Hs.
  assert (Ha : (0 <= f a)%Q) by (apply Hp; now left).
  assert (Hr : (0 <= fold_right Qplus 0 (map f l))%Q).
  { clear -Hp. induction l as [|b l IH]; cbn [map fold_right]; [apply Qle_refl|].
    assert (0 <= f b)%Q by (apply Hp; right; now left).
    assert (0 <= fold_right Qplus 0 (map f l))%Q.
    { apply IH. intros j [->|Hj]; apply Hp; [now left|right; now right]. }
    lra. }
  destruct Hi as [->|Hi].
  - lra.
  - apply IH; [intros j Hj; apply Hp; now right|lra|exact Hi].
Qed.

Lemma squares_zero h a b :
  (0 < h)%Q -> (h / 2 * (a ^ 2 + b ^ 2) == 0)%Q -> (a == 0)%Q /\ (b == 0)%Q.
Proof.
  intros Hh E.
  assert (Ea : (a ^ 2 == a * a)%Q) by reflexivity.
  assert (Eb : (b ^ 2 == b * b)%Q) by reflexivity.
  rewrite Ea, Eb in E.
  assert (S : (a * a + b * b == 0)%Q).
  { assert (T : (h * (a * a + b * b) == 0)%Q).
    { setoid_replace (h * (a * a + b * b))%Q
        with (2 * (h / 2 * (a * a + b * b)))%Q by field.
      rewrite E. ring. }
    apply Qmult_integral in T. destruct T as [T|T]; [lra|exact T]. }
  assert (0 <= a * a)%Q by nra. assert (0 <= b * b)%Q by nra.
  assert (Za : (a * a == 0)%Q) by lra. assert (Zb : (b * b == 0)%Q) by lra.
  apply Qmult_integral in Za, Zb. split; tauto.
Qed.

(** A trajectory that meets the trapezoidal equations spends effort:
    with no force at any grid point the block would stay at rest. *)
Lemma trapz_equations_effort tf N x v u :
  (0 < tf)%Q -> trapz_equations tf N x v u ->
  (0 < trapezoid_sum (tf / float_of_nat N) (fun i => u i ^ 2) N)%Q.
Proof.
  intros Htf HE.
  destruct (trapz_equations_need_two_segments tf N x v u HE) as [HN _].
  destruct (trapz_equations_quadratures tf N x v u HE) as [HV _].
  destruct HE as (_ & _ & H3 & _ & HC).
  set (h := (tf / float_of_nat N)%Q) in *.
  assert (Hh : (0 < h)%Q).
  { unfold h. apply Qlt_shift_div_l; [apply float_of_nat_pos; lia|lra]. }
  destruct (Qlt_le_dec 0 (trapezoid_sum h (fun i => u i ^ 2) N)) as [P|P];
    [exact P|exfalso].
  unfold trapezoid_sum, Qsum in P.
  assert (Z : forall i, (i < N)%nat -> (u i == 0)%Q /\ (u (i + 1)%nat == 0)%Q).
  { intros i Hi. apply (squares_zero h); [exact Hh|].
    apply (fold_nonneg_zero (fun i => h / 2 * (u i ^ 2 + u (i + 1)%nat ^ 2))%Q
             (seq 0 N)); [|exact P|apply in_seq; lia].
    intros j _.
    assert (Ea : (u j ^ 2 == u j * u j)%Q) by reflexivity.
    assert (Eb : (u (j + 1)%nat ^ 2 == u (j + 1)%nat * u (j + 1)%nat)%Q) by reflexivity.
    rewrite Ea, Eb.
    apply Qmult_le_0_compat; [apply Qlt_le_weak, Qlt_shift_div_l; lra|].
    assert (0 <= u j * u j)%Q by nra.
    assert (0 <= u (j + 1)%nat * u (j + 1)%nat)%Q by nra. lra. }
  assert (V : forall i, (i <= N)%nat -> (v i == 0)%Q).
  { induction i as [|i IH]; intros Hi; [exact H3|].
    destruct (HC i ltac:(lia)) as [_ Ev]. destruct (Z i ltac:(lia)) as [U0 U1].
    replace (S i) with (i + 1)%nat by lia.
    rewrite U0, U1, (IH ltac:(lia)) in Ev.
    assert (T : (v (i + 1)%nat == v (i + 1)%nat - 0)%Q) by ring.
    rewrite T, Ev. ring. }
  rewrite (trapezoid_sum_const h v 0 N) in HV by (try exact V; lia).
  assert (T : (float_of_nat N * h * 0 == 0)%Q) by ring.
  rewrite T in HV. discriminate HV.
Qed.

(** X14. Trapezoidal cell, positive horizon: every feasible point of the
    assembled problem has strictly positive cost.  Zero cost would mean no
    force at any grid point, and then the block, which starts at rest,
    could not reach the final position. *)
Theorem trapz_feasible_cost_positive
  (tf : Q) (N : nat) (r : env) (g : Trapz.globals) (J : expr) (o : Opti) :
  (0 < tf)%Q ->
  Trapz.build tf N = Ok (g, J, o) ->
  feasible r o ->
  objective o = Some J /\ (0 < eval r J)%Q.
Proof.
  intros Htf E F. destruct (trapz_build_full tf N) as (o' & E' & _ & C & O & _).
  rewrite E in E'. injection E' as -> -> ->. split; [exact O|].
  apply (trapz_feasible_equations r tf N o' C) in F.
  rewrite eval_trapz_J. cbn [trapz_globals Trapz.U] in F.
  exact (trapz_equations_effort tf N _ _ _ Htf F).
Qed.

Lemma trapz_feasible_cost_positive_witness :
  exists g J o,
    (0 < 1)%Q
    /\ Trapz.build 1 2 = Ok (g, J, o)
    /\ feasible two_segments o
    /\ objective o = Some J /\ (0 < eval two_segments J)%Q.
Proof.
  pose (b := Trapz.build 1 2).
  assert (E : Trapz.build 1 2 = b) by reflexivity.
  vm_compute in b. unfold b in E. clear b.
  match type of E with _ = Ok (?g, ?J, ?o) => exists g, J, o end.
  match type of E with
  | _ = Ok (_, _, ?o) =>
      assert (F : feasible two_segments o)
        by (unfold feasible; cbn [constraints]; repeat constructor; reflexivity)
  end.
  assert (H : (0 < 1)%Q) by reflexivity.
  split; [exact H|]. split; [exact E|]. split; [exact F|].
  exact (trapz_feasible_cost_positive 1 2 two_segments _ _ _ H E F).
Defined.

Lemma pinned_cost_zero N nx x0 xf :
  (1 <= nx)%nat -> length xf = nx ->
  (eval (pinned N nx x0 xf) (simpson_J N (nx * (2 * N + 1))) == 0)%Q.
Proof.
  intros Hnx Lf. rewrite eval_simpson_J. unfold simpson_sum, Qsum.
  rewrite (fold_Qplus_ext _ (fun _ => 0%Q)).
  - induction (seq 0 (2 * N + 1)) as [|a l IH]; [reflexivity|].
    cbn [map fold_right]. rewrite IH. ring.
  - intros i Hi. apply in_seq in Hi. unfold control_at.
    rewrite entry_vmat_row by lia. cbn [eval pinned v_var].
    destruct (Nat.ltb_spec (nx * (2 * N + 1) + i * 1 + 0) nx) as [H|H]; [nia|].
    rewrite (nth_overflow xf) by nia. ring.
Qed.

(** X15. Block-move Hermite-Simpson cell: for at least one segment the
    assembled problem has a feasible point of cost zero, and no point has a
    smaller cost.  The block is moved without any force, which the
    trapezoidal cell rules out. *)
Theorem blockmove_unforced_optimum (tf : Q) (N : nat) :
  (1 <= N)%nat ->
  exists G o J r,
    BlockMove.build tf N = Ok (G, o)
    /\ objective o = Some J
    /\ feasible r o
    /\ (eval r J == 0)%Q
    /\ forall r', (eval r J <= eval r' J)%Q.
Proof.
  intros HN. destruct (blockmove_build_full tf N) as (f & _ & E).
  eexists _, _, _, (pinned N 2 [0; 0] [1; 0]).
  split; [exact E|]. cbn [objective]. split; [reflexivity|].
  unfold feasible. cbn [constraints]. split; [|split].
  - apply pinned_feasible; [exact HN|lia|reflexivity|reflexivity].
  - apply pinned_cost_zero; [lia|reflexivity].
  - intros r'. rewrite pinned_cost_zero by (try reflexivity; lia).
    apply simpson_J_nonneg.
Qed.

Lemma blockmove_unforced_optimum_witness :
  exists G o J r,
    BlockMove.build 1 10 = Ok (G, o)
    /\ objective o = Some J
    /\ feasible r o
    /\ (eval r J == 0)%Q
    /\ forall r', (eval r J <= eval r' J)%Q.
Proof. apply (blockmove_unforced_optimum 1 10). lia. Defined.
